(** * syosetu2epub: a shallow embedding of [src/syosetu2epub.py]

    Python [str] values are sequences of Unicode code points; a character is
    modelled by its code point ([N]) and a string by the list of its
    characters.  Part I embeds the functions of the program; Part II states
    and proves the properties. *)

From Equations Require Import Equations.
From Stdlib Require Import NArith String Ascii.
From Stdlib Require Floats Uint63.
From stdpp Require Import base decidable option list numbers gmap pretty.

Local Open Scope N_scope.

(** * Part I: the program *)

(** ** Characters and strings *)

Definition char := N.
Definition str := list char.

(** An ASCII literal of the source as a [str]. *)
Definition lit (s : string) : str :=
  N_of_ascii <$> list_ascii_of_string s.

Definition chr (a : ascii) : char := N_of_ascii a.

(** The double-quote character, U+0022. *)
Definition dquote : char := 34.
(** The line feed, U+000A. *)
Definition LF : char := 10.

(** [p in s] for strings: [p] occurs in [s] as a contiguous substring. *)
Fixpoint starts_with (p s : str) : bool :=
  match p, s with
  | [], _ => true
  | a :: p', b :: s' => (a =? b) && starts_with p' s'
  | _ :: _, [] => false
  end.

Fixpoint contains (p s : str) : bool :=
  starts_with p s ||
  match s with
  | [] => false
  | _ :: s' => contains p s'
  end.

(** [c in s] for a single character [c]. *)
Definition char_in (c : char) (s : str) : bool := existsb (N.eqb c) s.

(** [text[a:b]] for [0 <= a <= b]. *)
Definition slice (text : str) (a b : nat) : str := take (b - a) (drop a text).

(** [str.isspace] on one character, which is also the class [\s] of [re] on
    [str] patterns and what [str.strip] and [str.split] call white space:
    the code points CPython tests in [_PyUnicode_IsWhitespace]. *)
Definition isspace (c : char) : bool :=
  ((9 <=? c) && (c <=? 13)) || ((28 <=? c) && (c <=? 32))
  || (c =? 133) || (c =? 160) || (c =? 5760)
  || ((8192 <=? c) && (c <=? 8202))
  || (c =? 8232) || (c =? 8233) || (c =? 8239) || (c =? 8287) || (c =? 12288).

(** Removing the longest run of elements satisfying [p] from the front
    ([drop_while]) and from the back ([pop_while], the loop
    [while l and p(l[-1]): l.pop()]). *)
Fixpoint drop_while {A} (p : A → bool) (l : list A) : list A :=
  match l with
  | [] => []
  | x :: l' => if p x then drop_while p l' else l
  end.

Fixpoint take_while {A} (p : A → bool) (l : list A) : list A :=
  match l with
  | [] => []
  | x :: l' => if p x then x :: take_while p l' else []
  end.

Definition pop_while {A} (p : A → bool) (l : list A) : list A :=
  reverse (drop_while p (reverse l)).

(** [s.strip()] *)
Definition strip (s : str) : str := pop_while isspace (drop_while isspace s).

(** ** Markers and tables (lines 34-98) *)

Definition SEPARATOR_LINE : str := replicate 32 (chr "-").

Definition MARK_PREFACE : str := lit "__PREFACE__".
Definition MARK_PREFACE_END : str := lit "__PREFACE_END__".
Definition MARK_AFTERWORD : str := lit "__AFTERWORD__".
Definition MARK_AFTERWORD_END : str := lit "__AFTERWORD_END__".
Definition MARK_SEPARATOR : str := lit "__SEPARATOR__".

(** The full-width forms: each value is the key's code point plus 0xFEE0. *)
Definition _JP_PUNCT_MAP : list (char * char) :=
  [ (chr "!", 65281); (chr "?", 65311); (chr ":", 65306); (chr ";", 65307);
    (chr ",", 65292); (chr ".", 65294); (chr "(", 65288); (chr ")", 65289);
    (chr "[", 65339); (chr "]", 65341); (chr "{", 65371); (chr "}", 65373);
    (dquote, 65282); (chr "'", 65287) ].

Definition _JP_DIGIT_MAP : list (char * char) :=
  [ (chr "0", 65296); (chr "1", 65297); (chr "2", 65298); (chr "3", 65299);
    (chr "4", 65300); (chr "5", 65301); (chr "6", 65302); (chr "7", 65303);
    (chr "8", 65304); (chr "9", 65305) ].

(** [d.get(k)] on a dict literal with distinct keys. *)
Fixpoint dict_get {V} (d : list (char * V)) (k : char) : option V :=
  match d with
  | [] => None
  | (k', v) :: d' => if k =? k' then Some v else dict_get d' k
  end.

(** [_JP_TEXT_TRANSLATION = str.maketrans({**_JP_PUNCT_MAP, **_JP_DIGIT_MAP})],
    applied to one character by [str.translate]. *)
Definition _JP_TEXT_TRANSLATION (c : char) : char :=
  default c (dict_get (_JP_PUNCT_MAP ++ _JP_DIGIT_MAP) c).

Definition _SEPARATOR_CHARS : str :=
  [chr "-"; chr "_"; 65293; 65343; 8212; 8211; 8213; 65392; 12540; 9472; 9473].
Definition _SEPARATOR_SYMBOLS : str := [chr "*"; 65290].

(** ** The punctuation pass (lines 83, 118-153) *)

(** The pattern [_URL_RE] with [re.IGNORECASE]: [http], an optional [s],
    [://], then one or more characters other than white space, [<], [>] and
    the double quote.  Under that flag a letter of the pattern also matches
    its other case, and [s] also the long s, U+017F. *)
Definition is_h (c : char) : bool := (c =? chr "h") || (c =? chr "H").
Definition is_t (c : char) : bool := (c =? chr "t") || (c =? chr "T").
Definition is_p (c : char) : bool := (c =? chr "p") || (c =? chr "P").
Definition is_s (c : char) : bool :=
  (c =? chr "s") || (c =? chr "S") || (c =? 383).

Definition url_char (c : char) : bool :=
  negb (isspace c || (c =? chr "<") || (c =? chr ">") || (c =? dquote)).

(** The length of the match of [_URL_RE] anchored at the head of [s]. *)
Definition match_url (s : str) : option nat :=
  match s with
  | h :: t1 :: t2 :: p :: r =>
      if is_h h && is_t t1 && is_t t2 && is_p p then
        let '(n, r') :=
          match r with
          | c :: r' => if is_s c then (5%nat, r') else (4%nat, r)
          | [] => (4%nat, r)
          end in
        match r' with
        | a :: b :: c :: body =>
            if (a =? chr ":") && (b =? chr "/") && (c =? chr "/") then
              match length (take_while url_char body) with
              | O => None
              | S k => Some (n + 3 + S k)%nat
              end
            else None
        | _ => None
        end
      else None
  | _ => None
  end.

(** [_URL_RE.finditer]: the spans [(start, end)] of the non-overlapping
    matches, leftmost first; [pos] is the offset of [s] in the text. *)
Equations? finditer (pos : nat) (s : str) : list (nat * nat) by wf (length s) lt :=
  finditer pos [] := [];
  finditer pos (c :: s') with match_url (c :: s') => {
    | Some n := (pos, pos + n)%nat :: finditer (pos + n) (drop (n - 1) s');
    | None := finditer (S pos) s' }.
Proof. all: rewrite ?length_drop; simpl; lia. Qed.

Section Normalizer.

(** [str.isdigit] on one character: the Unicode property Numeric_Type is
    Digit or Decimal.  The table is Python's, not the program's, and is
    taken as a parameter. *)
Variable isdigit : char → bool.

(** [s.isdigit()] where [s] is one character or the empty string. *)
Definition opt_isdigit (s : option char) : bool := from_option isdigit false s.

(** The body of the loop of [translate_japanese_punct] at index [i],
    where [ch] is [text[i]]: the character appended to [out]. *)
Definition translate_at (text : str) (i : nat) (ch : char) : char :=
  if ch =? chr "." then
    let prev := if (0 <? i)%nat then text !! (i - 1)%nat else None in
    let next_ch :=
      if (i + 1 <? length text)%nat then text !! (i + 1)%nat else None in
    if opt_isdigit prev && opt_isdigit next_ch then chr "."
    else default ch (dict_get _JP_PUNCT_MAP (chr "."))
  else
    match dict_get _JP_PUNCT_MAP ch with
    | Some mapped => mapped
    | None =>
        match dict_get _JP_DIGIT_MAP ch with
        | Some mapped => mapped
        | None => ch
        end
    end.

Definition translate_japanese_punct (text : str) : str :=
  if negb (char_in (chr ".") text) then _JP_TEXT_TRANSLATION <$> text
  else imap (translate_at text) text.

Definition normalize_japanese_punct (text : str) : str :=
  if bool_decide (text = []) then text
  else if negb (contains (lit "http://") text) && negb (contains (lit "https://") text)
  then translate_japanese_punct text
  else
    let '(parts, last) :=
      foldl (λ '(parts, last) '(m_start, m_end),
          let parts :=
            if (last <? m_start)%nat
            then parts ++ [translate_japanese_punct (slice text last m_start)]
            else parts in
          (parts ++ [slice text m_start m_end], m_end))
        ([], 0%nat) (finditer 0 text) in
    let parts :=
      if (last <? length text)%nat
      then parts ++ [translate_japanese_punct (drop last text)]
      else parts in
    concat parts.

End Normalizer.

(** A part of Python's digit table, enough to run the examples: the ASCII
    digits, the superscripts U+00B2, U+00B3 and U+00B9, the Arabic-Indic
    digits and the full-width digits. *)
Definition isdigit_sample (c : char) : bool :=
  ((48 <=? c) && (c <=? 57)) || (c =? 178) || (c =? 179) || (c =? 185)
  || ((1632 <=? c) && (c <=? 1641)) || ((65296 <=? c) && (c <=? 65305)).

(** ** Markup to text (lines 942-944) *)

Lemma drop_while_length {A} (p : A → bool) (l : list A) :
  (length (drop_while p l) ≤ length l)%nat.
Proof. induction l as [|x l IH]; simpl; [lia|]. destruct (p x); simpl; lia. Qed.

(** [s.replace(old, new)] for a non-empty [old]: the occurrences of [old]
    are replaced from the left, without overlap. *)
Equations? str_replace (old new s : str) : str by wf (length s) lt :=
  str_replace old new [] := [];
  str_replace old new (c :: s') :=
    if starts_with old (c :: s')
    then new ++ str_replace old new (drop (length old - 1) s')
    else c :: str_replace old new s'.
Proof. all: rewrite ?length_drop; simpl; lia. Qed.

(** The length of the match of the pattern [<[^>]+>] anchored at the head of
    [s]: the greedy run after [<] must be non-empty and must be followed by
    a [>]. *)
Definition match_tag (s : str) : option nat :=
  match s with
  | c :: r =>
      if c =? chr "<" then
        let run := take_while (λ x, negb (x =? chr ">")) r in
        match run, drop (length run) r with
        | _ :: _, _ :: _ => Some (length run + 2)%nat
        | _, _ => None
        end
      else None
  | [] => None
  end.

(** [re.sub(r"<[^>]+>", "", s)] *)
Equations? strip_tags (s : str) : str by wf (length s) lt :=
  strip_tags [] := [];
  strip_tags (c :: s') with match_tag (c :: s') => {
    | Some n := strip_tags (drop (n - 1) s');
    | None := c :: strip_tags s' }.
Proof. all: rewrite ?length_drop; simpl; lia. Qed.

Definition html_to_text (s : str) : str :=
  let s := str_replace (lit "<br />") [LF] s in
  let s := str_replace (lit "<br/>") [LF] s in
  let s := str_replace (lit "<br>") [LF] s in
  strip_tags s.

(** ** The separator pass (lines 156-231) *)

Definition is_separator_line (text : str) : bool :=
  let compact := filter (λ ch, isspace ch = false) text in
  if bool_decide (compact = []) then false
  else if forallb (λ ch, char_in ch _SEPARATOR_CHARS) compact
  then (4 <=? length compact)%nat
  else if forallb (λ ch, char_in ch _SEPARATOR_SYMBOLS) compact then true
  else false.

Definition markers : gset str :=
  {[ MARK_PREFACE; MARK_PREFACE_END; MARK_AFTERWORD; MARK_AFTERWORD_END;
     MARK_SEPARATOR ]}.

Definition is_nil {A} (l : list A) : bool :=
  match l with [] => true | _ => false end.

Section Separators.

(** [html.unescape], the character-reference decoder of Python's library. *)
Variable unescape : str → str.

Definition is_blank_para (para : str) : bool :=
  if bool_decide (para = []) then true
  else if bool_decide (para ∈ markers) then false
  else if contains (lit "<img") para then false
  else is_nil (strip (unescape (html_to_text para))).

(** The loop of [normalize_separator_spacing]: [rest] is
    [paragraphs[i:]] and [out] the list built so far. *)
Equations? spacing_loop (rest out : list str) : list str
  by wf (length rest) lt :=
  spacing_loop [] out := out;
  spacing_loop (para :: rest') out :=
    if negb (bool_decide (para = MARK_SEPARATOR)) then
      spacing_loop rest' (out ++ [para])
    else
      let out := pop_while is_blank_para out in
      let out := if is_nil out then out else out ++ [[]] in
      let out := out ++ [para] in
      let rest'' := drop_while is_blank_para rest' in
      let out := if is_nil rest'' then out else out ++ [[]] in
      spacing_loop rest'' out.
Proof.
  - simpl; lia.
  - pose proof (drop_while_length is_blank_para rest'); subst rest''; simpl; lia.
Qed.

Definition normalize_separator_spacing (paragraphs : list str) : list str :=
  if is_nil paragraphs then paragraphs else spacing_loop paragraphs [].

Definition apply_separator_handling (paragraphs : list str) : list str :=
  if is_nil paragraphs then paragraphs
  else
    normalize_separator_spacing
      (foldl (λ out para,
         if bool_decide (para ∈ markers) || bool_decide (para = [])
         then out ++ [para]
         else if is_separator_line (unescape (html_to_text para))
              then out ++ [MARK_SEPARATOR]
              else out ++ [para]) [] paragraphs).

End Separators.

(** ** The chapter extractor (lines 459-463, 604-751) *)

(** [html.escape(s, quote=True)] *)
Definition html_escape (s : str) : str :=
  mjoin ((λ c,
    if c =? chr "&" then lit "&amp;"
    else if c =? chr "<" then lit "&lt;"
    else if c =? chr ">" then lit "&gt;"
    else if c =? dquote then lit "&quot;"
    else if c =? chr "'" then lit "&#x27;"
    else [c]) <$> s).

(** [s.split()]: the maximal runs of characters that are not white space. *)
Fixpoint split_ws_from (cur s : str) : list str :=
  match s with
  | [] => if is_nil cur then [] else [cur]
  | c :: s' =>
      if isspace c
      then (if is_nil cur then split_ws_from [] s' else cur :: split_ws_from [] s')
      else split_ws_from (cur ++ [c]) s'
  end.

Definition split_ws (s : str) : list str := split_ws_from [] s.

(** The attribute list [HTMLParser] hands to a handler; a value is [None]
    for an attribute written without one. *)
Definition attrs_t := list (str * option str).

(** [dict(attrs).get(k)]: the last pair for [k] wins. *)
Definition attrs_get (attrs : attrs_t) (k : str) : option str :=
  foldl (λ acc '(k', v), if bool_decide (k' = k) then v else acc) None attrs.

Definition has_class (attrs : attrs_t) (class_name : str) : bool :=
  match attrs_get attrs (lit "class") with
  | None => false
  | Some cls =>
      if is_nil cls then false else bool_decide (class_name ∈ split_ws cls)
  end.

(** What [HTMLParser.feed] and [close] call on the parser, in order. *)
Inductive event :=
  | StartTag (tag : str) (attrs : attrs_t)
  | StartEndTag (tag : str) (attrs : attrs_t)
  | EndTag (tag : str)
  | Data (data : str).

Record ChapterParser := mkChapterParser {
  title_parts : list str;
  paragraphs : list str;
  _remove_furigana : bool;
  _ruby_skip_depth : Z;
  _in_title : bool;
  _text_block_depth : Z;
  _in_p : bool;
  _current_html_parts : list str;
  _current_text_parts : list str;
  _block_label_end : option str
}.

Definition ChapterParser_init (remove_furigana : bool) : ChapterParser :=
  {| title_parts := []; paragraphs := []; _remove_furigana := remove_furigana;
     _ruby_skip_depth := 0; _in_title := false; _text_block_depth := 0;
     _in_p := false; _current_html_parts := []; _current_text_parts := [];
     _block_label_end := None |}.

Definition set_paragraphs (f : list str → list str) (self : ChapterParser) :=
  {| title_parts := title_parts self; paragraphs := f (paragraphs self);
     _remove_furigana := _remove_furigana self;
     _ruby_skip_depth := _ruby_skip_depth self; _in_title := _in_title self;
     _text_block_depth := _text_block_depth self; _in_p := _in_p self;
     _current_html_parts := _current_html_parts self;
     _current_text_parts := _current_text_parts self;
     _block_label_end := _block_label_end self |}.

Definition set_ruby_skip_depth (d : Z) (self : ChapterParser) :=
  {| title_parts := title_parts self; paragraphs := paragraphs self;
     _remove_furigana := _remove_furigana self;
     _ruby_skip_depth := d; _in_title := _in_title self;
     _text_block_depth := _text_block_depth self; _in_p := _in_p self;
     _current_html_parts := _current_html_parts self;
     _current_text_parts := _current_text_parts self;
     _block_label_end := _block_label_end self |}.

Definition set_in_title (b : bool) (self : ChapterParser) :=
  {| title_parts := title_parts self; paragraphs := paragraphs self;
     _remove_furigana := _remove_furigana self;
     _ruby_skip_depth := _ruby_skip_depth self; _in_title := b;
     _text_block_depth := _text_block_depth self; _in_p := _in_p self;
     _current_html_parts := _current_html_parts self;
     _current_text_parts := _current_text_parts self;
     _block_label_end := _block_label_end self |}.

Definition set_title_parts (f : list str → list str) (self : ChapterParser) :=
  {| title_parts := f (title_parts self); paragraphs := paragraphs self;
     _remove_furigana := _remove_furigana self;
     _ruby_skip_depth := _ruby_skip_depth self; _in_title := _in_title self;
     _text_block_depth := _text_block_depth self; _in_p := _in_p self;
     _current_html_parts := _current_html_parts self;
     _current_text_parts := _current_text_parts self;
     _block_label_end := _block_label_end self |}.

Definition set_text_block_depth (d : Z) (self : ChapterParser) :=
  {| title_parts := title_parts self; paragraphs := paragraphs self;
     _remove_furigana := _remove_furigana self;
     _ruby_skip_depth := _ruby_skip_depth self; _in_title := _in_title self;
     _text_block_depth := d; _in_p := _in_p self;
     _current_html_parts := _current_html_parts self;
     _current_text_parts := _current_text_parts self;
     _block_label_end := _block_label_end self |}.

Definition set_block_label_end (l : option str) (self : ChapterParser) :=
  {| title_parts := title_parts self; paragraphs := paragraphs self;
     _remove_furigana := _remove_furigana self;
     _ruby_skip_depth := _ruby_skip_depth self; _in_title := _in_title self;
     _text_block_depth := _text_block_depth self; _in_p := _in_p self;
     _current_html_parts := _current_html_parts self;
     _current_text_parts := _current_text_parts self;
     _block_label_end := l |}.

(** Sets [_in_p], [_current_html_parts] and [_current_text_parts]. *)
Definition set_current (in_p : bool) (html_parts text_parts : list str)
    (self : ChapterParser) :=
  {| title_parts := title_parts self; paragraphs := paragraphs self;
     _remove_furigana := _remove_furigana self;
     _ruby_skip_depth := _ruby_skip_depth self; _in_title := _in_title self;
     _text_block_depth := _text_block_depth self; _in_p := in_p;
     _current_html_parts := html_parts;
     _current_text_parts := text_parts;
     _block_label_end := _block_label_end self |}.

Definition append_html (part : str) (self : ChapterParser) :=
  set_current (_in_p self) (_current_html_parts self ++ [part])
    (_current_text_parts self) self.

Definition append_html_text (hpart tpart : str) (self : ChapterParser) :=
  set_current (_in_p self) (_current_html_parts self ++ [hpart])
    (_current_text_parts self ++ [tpart]) self.

Definition is_tag (tag : str) (name : string) : bool :=
  bool_decide (tag = lit name).

(** The [<img src=... alt=... />] fragment both image branches build. *)
Definition img_fragment (attrs : attrs_t) (self : ChapterParser) : ChapterParser :=
  let src := default [] (attrs_get attrs (lit "src")) in
  if is_nil src then self
  else
    let alt := default [] (attrs_get attrs (lit "alt")) in
    let alt_attr :=
      if is_nil alt then lit " alt=" ++ [dquote; dquote]
      else lit " alt=" ++ [dquote] ++ html_escape alt ++ [dquote] in
    let safe_src := html_escape src in
    append_html
      (lit "<img src=" ++ [dquote] ++ safe_src ++ [dquote] ++ alt_attr ++ lit " />")
      self.

Definition in_text_p (self : ChapterParser) : bool :=
  (0 <? _text_block_depth self)%Z && _in_p self.

Section Extractor.

Variable isdigit : char → bool.

Definition handle_starttag (tag : str) (attrs : attrs_t)
    (self : ChapterParser) : ChapterParser :=
  if is_tag tag "img" && in_text_p self then img_fragment attrs self
  else if is_tag tag "rt" || is_tag tag "rp" then
    if _remove_furigana self
    then set_ruby_skip_depth (_ruby_skip_depth self + 1) self
    else if in_text_p self
         then append_html (lit "<" ++ tag ++ lit ">") self
         else self
  else if is_tag tag "ruby" then
    if negb (_remove_furigana self) && in_text_p self
    then append_html (lit "<ruby>") self
    else self
  else if is_tag tag "h1" && has_class attrs (lit "p-novel__title")
  then set_in_title true self
  else if is_tag tag "div" then
    if (0 <? _text_block_depth self)%Z
    then set_text_block_depth (_text_block_depth self + 1) self
    else
      let is_preface := has_class attrs (lit "p-novel__text--preface") in
      let is_afterword := has_class attrs (lit "p-novel__text--afterword") in
      let is_text_block :=
        has_class attrs (lit "p-novel__text") || is_preface || is_afterword in
      if is_text_block then
        let self := set_text_block_depth 1 self in
        if is_preface then
          set_paragraphs (λ ps, ps ++ [MARK_PREFACE])
            (set_block_label_end (Some MARK_PREFACE_END) self)
        else if is_afterword then
          set_paragraphs (λ ps, ps ++ [MARK_AFTERWORD])
            (set_block_label_end (Some MARK_AFTERWORD_END) self)
        else set_block_label_end None self
      else self
  else if (0 <? _text_block_depth self)%Z && is_tag tag "p"
  then set_current true [] [] self
  else if in_text_p self then
    if is_tag tag "br" then append_html_text (lit "<br />") [LF] self else self
  else self.

Definition handle_startendtag (tag : str) (attrs : attrs_t)
    (self : ChapterParser) : ChapterParser :=
  if in_text_p self then
    if is_tag tag "br" then append_html_text (lit "<br />") [LF] self
    else if is_tag tag "img" then img_fragment attrs self
    else self
  else self.

Definition handle_endtag (tag : str) (self : ChapterParser) : ChapterParser :=
  if is_tag tag "rt" || is_tag tag "rp" then
    if _remove_furigana self then
      if (0 <? _ruby_skip_depth self)%Z
      then set_ruby_skip_depth (_ruby_skip_depth self - 1) self
      else self
    else if in_text_p self
         then append_html (lit "</" ++ tag ++ lit ">") self
         else self
  else if is_tag tag "ruby" then
    if negb (_remove_furigana self) && in_text_p self
    then append_html (lit "</ruby>") self
    else self
  else if is_tag tag "h1" && _in_title self then set_in_title false self
  else if is_tag tag "div" && (0 <? _text_block_depth self)%Z then
    let self := set_text_block_depth (_text_block_depth self - 1) self in
    if (_text_block_depth self =? 0)%Z then
      let self :=
        match _block_label_end self with
        | Some label =>
            if is_nil label then self
            else set_block_label_end None
                   (set_paragraphs (λ ps, ps ++ [label]) self)
        | None => self
        end in
      match last (paragraphs self) with
      | Some para =>
          if is_nil para then self
          else set_paragraphs (λ ps, ps ++ [[]]) self
      | None => self
      end
    else self
  else if is_tag tag "p" && _in_p self then
    let html_content := mjoin (_current_html_parts self) in
    let text_content := mjoin (_current_text_parts self) in
    let self :=
      if is_nil (strip text_content) && is_nil (strip html_content)
      then set_paragraphs (λ ps, ps ++ [[]]) self
      else set_paragraphs (λ ps, ps ++ [html_content]) self in
    set_current false [] [] self
  else self.

Definition handle_data (data : str) (self : ChapterParser) : ChapterParser :=
  if _remove_furigana self && (0 <? _ruby_skip_depth self)%Z then self
  else if _in_title self
  then set_title_parts (λ ps, ps ++ [normalize_japanese_punct isdigit data]) self
  else if in_text_p self then
    let normalized := normalize_japanese_punct isdigit data in
    append_html_text (html_escape normalized) normalized self
  else self.

Definition get_title (self : ChapterParser) : str :=
  strip (mjoin (title_parts self)).

Definition dispatch (self : ChapterParser) (e : event) : ChapterParser :=
  match e with
  | StartTag tag attrs => handle_starttag tag attrs self
  | StartEndTag tag attrs => handle_startendtag tag attrs self
  | EndTag tag => handle_endtag tag self
  | Data data => handle_data data self
  end.

(** [parse_chapter_page] once [feed] and [close] have turned the page into
    the handler calls [events]. *)
Definition parse_chapter_events (events : list event) (remove_furigana : bool)
    : str * list str :=
  let parser := foldl dispatch (ChapterParser_init remove_furigana) events in
  let paragraphs := pop_while is_nil (paragraphs parser) in
  (get_title parser, paragraphs).

(** The tokenizer of [html.parser.HTMLParser] (with [convert_charrefs]),
    Python's and not the program's. *)
Variable html_events : str → list event.

Definition parse_chapter_page (page_html : str) (remove_furigana : bool)
    : str * list str :=
  parse_chapter_events (html_events page_html) remove_furigana.

End Extractor.

(** ** Results and exceptions *)

(** A call either returns a value or raises. *)
Inductive result (E A : Type) :=
  | Ok (a : A)
  | Raise (e : E).
Arguments Ok {E A} a.
Arguments Raise {E A} e.

(** ** The fetcher (lines 271-310) *)

Module Fetch.

(** The exceptions [_fetch_url] tells apart: [HTTPError] with its status
    code; [URLError], [socket.timeout] and [ssl.SSLError], handled by the
    second [except] clause; and any other exception, which no clause
    catches. *)
Inductive exc :=
  | HTTPError (code : Z)
  | TransportError (msg : str)
  | OtherError (msg : str).

(** What one call does besides computing: the waits it asks for. *)
Inductive effect :=
  | LimiterWait
  | SleepDelay
  | SleepBackoff (base : Z).

Inductive outcome (R : Type) :=
  | Returned (resp : R)
  | Raised (attempt : Z) (e : exc)
  | FellThrough (last_err : option exc).
Arguments Returned {R} resp.
Arguments Raised {R} attempt e.
Arguments FellThrough {R} last_err.

Section FetchUrl.

(** The response [(resp.read(), resp.headers)]. *)
Variable response : Type.
(** What [urlopen] and [resp.read()] do at each attempt. *)
Variable urlopen : Z → result exc response.

Definition retryable_codes : list Z := [429; 500; 502; 503; 504]%Z.

(** [min(8.0, 2**attempt)]; a random jitter in [0, 0.25] is added to it. *)
Definition backoff_base (attempt : Z) : Z := Z.min 8 (2 ^ attempt).

(** The [for attempt in range(retries + 1)] loop over the attempts still
    to make, then the [raise RuntimeError] after it.  [has_limiter] stands
    for [limiter is not None] and [delay_positive] for [delay > 0]; the
    URL, the timeout and the user agent only reach [urlopen]. *)
Fixpoint fetch_loop (has_limiter : bool) (delay_positive : bool)
    (retries : Z) (attempts : list Z) (last_err : option exc)
    (log : list effect) : outcome response * list effect :=
  match attempts with
  | [] => (FellThrough last_err, log)
  | attempt :: rest =>
      let log :=
        if has_limiter then log ++ [LimiterWait]
        else if delay_positive then log ++ [SleepDelay]
        else log in
      match urlopen attempt with
      | Ok resp => (Returned resp, log)
      | Raise (HTTPError code) =>
          if bool_decide (code ∈ retryable_codes) && (attempt <? retries)%Z
          then fetch_loop has_limiter delay_positive retries rest
                 (Some (HTTPError code))
                 (log ++ [SleepBackoff (backoff_base attempt)])
          else (Raised attempt (HTTPError code), log)
      | Raise (TransportError msg) =>
          if (attempt <? retries)%Z
          then fetch_loop has_limiter delay_positive retries rest
                 (Some (TransportError msg))
                 (log ++ [SleepBackoff (backoff_base attempt)])
          else (Raised attempt (TransportError msg), log)
      | Raise (OtherError msg) => (Raised attempt (OtherError msg), log)
      end
  end.

Definition _fetch_url (has_limiter delay_positive : bool) (retries : Z)
    : outcome response * list effect :=
  fetch_loop has_limiter delay_positive retries
    (seqZ 0 (retries + 1)) None [].

End FetchUrl.

End Fetch.

(** ** The chapter downloader (lines 1057-1130) *)

(** The [Chapter] dictionary. *)
Record Chapter := mkChapter {
  ch_title : str;
  ch_paragraphs : list str;
  ch_url : str
}.

(** [enumerate(links)] *)
Definition enumerate {A} (l : list A) : list (nat * A) := imap pair l.

Module Download.

Inductive error (exn : Type) :=
  | Reraised (e : exn)
  | RuntimeError (url : str) (cause : exn).
Arguments Reraised {exn} e.
Arguments RuntimeError {exn} url cause.

Section DownloadChapters.

(** The exceptions ([Exception] instances) a fetch can raise. *)
Variable exn : Type.
(** [get_page] for the item at (0-based) position [i] of [links]: the
    page text, or the exception the call raises. *)
Variable get_page : nat → str → result exn str.
(** [parse_chapter_page(page, remove_furigana=...)] *)
Variable parse_chapter_page : str → bool → str * list str.

(** The chapter built from a fetched page; [idx] is the 1-based number
    used for a missing title. *)
Definition make_chapter (idx : nat) (url page : str) (remove_furigana : bool)
    : Chapter :=
  let '(chap_title, paragraphs) := parse_chapter_page page remove_furigana in
  let chap_title :=
    if is_nil chap_title then lit "Chapter " ++ lit (pretty idx) else chap_title in
  {| ch_title := chap_title; ch_paragraphs := paragraphs; ch_url := url |}.

(** The sequential loop, over [enumerate(links)] (the source counts from
    1; here [i] counts from 0 and [idx] is [i + 1]). *)
Fixpoint sequential (skip_errors remove_furigana : bool)
    (items : list (nat * str)) (chapters : list Chapter)
    : result (error exn) (list Chapter) :=
  match items with
  | [] => Ok chapters
  | (i, url) :: items' =>
      match get_page i url with
      | Raise e =>
          if skip_errors
          then sequential skip_errors remove_furigana items' chapters
          else Raise (Reraised e)
      | Ok html_page =>
          sequential skip_errors remove_furigana items'
            (chapters ++ [make_chapter (i + 1) url html_page remove_furigana])
      end
  end.

Definition fetch_one (remove_furigana : bool) (index : nat) (url : str)
    : result exn (nat * Chapter) :=
  match get_page index url with
  | Raise e => Raise e
  | Ok html_page =>
      Ok (index, make_chapter (index + 1) url html_page remove_furigana)
  end.

(** The loop over [as_completed(future_map)]: [completed] lists the
    [(idx, url)] of the futures in the order they complete. *)
Fixpoint collect (skip_errors remove_furigana : bool)
    (completed : list (nat * str)) (results : list (option Chapter))
    (errors : list (str * exn))
    : result (error exn) (list (option Chapter) * list (str * exn)) :=
  match completed with
  | [] => Ok (results, errors)
  | (idx, url) :: completed' =>
      match fetch_one remove_furigana idx url with
      | Ok (index, chapter) =>
          collect skip_errors remove_furigana completed'
            (<[index := Some chapter]> results) errors
      | Raise e =>
          let errors := errors ++ [(url, e)] in
          if negb skip_errors then Raise (RuntimeError url e)
          else collect skip_errors remove_furigana completed' results errors
      end
  end.

Definition download_chapters (links : list str) (jobs : Z)
    (skip_errors remove_furigana : bool) (completed : list (nat * str))
    : result (error exn) (list Chapter) :=
  if (jobs <=? 1)%Z || (length links <=? 1)%nat then
    sequential skip_errors remove_furigana (enumerate links) []
  else
    let results := replicate (length links) None in
    match collect skip_errors remove_furigana completed results [] with
    | Raise e => Raise e
    | Ok (results, errors) => Ok (omap id results)
    end.

(** The chapter of the item [(i, url)], when its page downloads. *)
Definition chapter_of (remove_furigana : bool) (item : nat * str)
    : option Chapter :=
  match get_page item.1 item.2 with
  | Ok html_page =>
      Some (make_chapter (item.1 + 1) item.2 html_page remove_furigana)
  | Raise _ => None
  end.

(** The items that download, in the order of [links]. *)
Definition downloaded (remove_furigana : bool) (links : list str)
    : list Chapter :=
  omap (chapter_of remove_furigana) (enumerate links).

End DownloadChapters.

End Download.

(** ** The flat-text writer (lines 1133-1181) *)

Section WriteTxt.

Variable unescape : str → str.
(** [replace_img_tags_for_txt(html_text, base_url)]: the substitution of
    [_IMG_TAG_RE] by a placeholder, which [re] and [urljoin] compute. *)
Variable replace_img_tags_for_txt : str → str → str.

Definition append_block (lines : list str) (block : list str) : list str :=
  default lines (
    (if is_nil block then None else Some ()) ≫= λ _,
    (if bool_decide (head block = Some SEPARATOR_LINE) then
       let last := default [] (head (filter (λ ln, ln ≠ []) (reverse lines))) in
       if bool_decide (last = SEPARATOR_LINE) then
         let block := tail block in
         if is_nil block then None else Some block
       else Some block
     else Some block) ≫= λ block,
    (if negb (is_nil lines) && bool_decide (last lines = Some []) then
       let block := drop_while is_nil block in
       if is_nil block then None else Some block
     else Some block) ≫= λ block,
    let lines :=
      if negb (is_nil lines) && negb (bool_decide (last lines = Some []))
         && negb (bool_decide (head block = Some []))
      then lines ++ [[]] else lines in
    Some (lines ++ block)).

Definition section_map : list (str * list str) :=
  [ (MARK_PREFACE, [SEPARATOR_LINE; []; [21069; 26360; 12365]; []]);
    (MARK_AFTERWORD, [SEPARATOR_LINE; []; [24460; 26360; 12365]; []]);
    (MARK_PREFACE_END, [SEPARATOR_LINE]);
    (MARK_AFTERWORD_END, [SEPARATOR_LINE]);
    (MARK_SEPARATOR, [SEPARATOR_LINE]) ].

Definition section_get (para : str) : option (list str) :=
  snd <$> head (filter (λ kv, kv.1 = para) section_map).

(** ["\n".join(lines)] *)
Fixpoint join_lines (lines : list str) : str :=
  match lines with
  | [] => []
  | [ln] => ln
  | ln :: lines' => ln ++ [LF] ++ join_lines lines'
  end.

Definition render_paragraphs (chap_base : str) (paras out_lines : list str)
    : list str :=
  foldl (λ out_lines para,
    match section_get para with
    | Some ((_ :: _) as section) => append_block out_lines section
    | _ =>
        if is_nil para then out_lines ++ [[]]
        else
          let clean := replace_img_tags_for_txt para chap_base in
          out_lines ++ [unescape (html_to_text clean)]
    end) out_lines paras.

(** The text [write_txt] writes to [path]. *)
Definition write_txt (title author : str) (chapters : list Chapter)
    (book_url : str) : str :=
  let out_lines := [title] in
  let out_lines :=
    if is_nil author then out_lines
    else out_lines ++ [[20316; 32773; 65306] ++ author] in
  let out_lines := out_lines ++ [[]] in
  let out_lines :=
    foldl (λ out_lines chap,
      let out_lines := out_lines ++ [ch_title chap] in
      let out_lines := out_lines ++ [[]] in
      let chap_base := if is_nil (ch_url chap) then book_url else ch_url chap in
      let out_lines := render_paragraphs chap_base (ch_paragraphs chap) out_lines in
      out_lines ++ [[]]) out_lines chapters in
  strip (join_lines out_lines) ++ [LF].

End WriteTxt.

(** ** The table-of-contents walk of [main] (lines 1653-1718) *)

Module Toc.

(** An entry of [TocParser.items] and of [toc_items]: the dictionaries
    with ["type": "volume"] and with ["type": "chapter"]. *)
Inductive item :=
  | Volume (title : str)
  | ChapterLink (href : str) (title : str).

(** What [parse_toc_page] returns. *)
Record toc_page := mkTocPage {
  page_title : str;
  page_author : str;
  page_summary : str;
  items : list item;
  page_next : str
}.

(** The variables of the loop; [fetch_log] lists the URLs handed to
    [get_page], in order. *)
Record walk := mkWalk {
  next_url : str;
  page_num : nat;
  title : str;
  author : str;
  summary : str;
  toc_items : list item;
  seen_links : gset str;
  seen_pages : gset str;
  fetch_log : list str
}.

(** How the walk ends: the [while] loop is left (its condition fails or
    [break] runs), or [main] returns on a failed fetch. *)
Inductive ending (exn : Type) :=
  | LoopDone
  | FetchFailed (e : exn).
Arguments LoopDone {exn}.
Arguments FetchFailed {exn} e.

Section Walk.

Variable exn : Type.
(** [get_page(page_url, ...)] *)
Variable get_page : str → result exn str.
(** [parse_toc_page(page, remove_furigana=...)] *)
Variable parse_toc_page : str → bool → toc_page.
(** [urllib.parse.urljoin] *)
Variable urljoin : str → str → str.

(** The [for item in items] loop. *)
Definition merge_item (page_url : str)
    (acc : list item * gset str) (it : item) : list item * gset str :=
  let '(toc_items, seen_links) := acc in
  match it with
  | Volume t =>
      let volume_title := strip t in
      if is_nil volume_title then acc
      else if match last toc_items with
              | Some (Volume t') => bool_decide (t' = volume_title)
              | _ => false
              end
      then acc
      else (toc_items ++ [Volume volume_title], seen_links)
  | ChapterLink href t =>
      if is_nil href then acc
      else
        let full := urljoin page_url href in
        if bool_decide (full ∈ seen_links) then acc
        else (toc_items ++ [ChapterLink full (strip t)], {[ full ]} ∪ seen_links)
  end.

(** One pass through the body of the [while] loop, after its guards. *)
Definition visit (remove_furigana : bool) (w : walk) (page : str) : walk :=
  let page_url := next_url w in
  let p := parse_toc_page page remove_furigana in
  let title :=
    if is_nil (title w) && negb (is_nil (page_title p))
    then page_title p else title w in
  let author :=
    if is_nil (author w) && negb (is_nil (page_author p))
    then page_author p else author w in
  let summary :=
    if is_nil (summary w) && negb (is_nil (page_summary p))
    then page_summary p else summary w in
  let '(toc_items, seen_links) :=
    foldl (merge_item page_url) (toc_items w, seen_links w) (items p) in
  {| next_url :=
       if is_nil (page_next p) then [] else urljoin page_url (page_next p);
     page_num := page_num w + 1;
     title := title; author := author; summary := summary;
     toc_items := toc_items; seen_links := seen_links;
     seen_pages := {[ page_url ]} ∪ seen_pages w;
     fetch_log := fetch_log w ++ [page_url] |}.

(** The [while next_url:] loop, run for at most [fuel] tests of its
    condition; [None] when they do not suffice. *)
Fixpoint toc_loop (remove_furigana : bool) (fuel : nat) (w : walk)
    : option (ending exn * walk) :=
  match fuel with
  | O => None
  | S fuel' =>
      if is_nil (next_url w) then Some (LoopDone, w)
      else if bool_decide (next_url w ∈ seen_pages w) then Some (LoopDone, w)
      else
        match get_page (next_url w) with
        | Raise e =>
            Some (FetchFailed e,
                  {| next_url := next_url w; page_num := page_num w;
                     title := title w; author := author w;
                     summary := summary w; toc_items := toc_items w;
                     seen_links := seen_links w;
                     seen_pages := {[ next_url w ]} ∪ seen_pages w;
                     fetch_log := fetch_log w ++ [next_url w] |})
        | Ok page => toc_loop remove_furigana fuel' (visit remove_furigana w page)
        end
  end.

Definition toc_start (book_url : str) : walk :=
  {| next_url := book_url; page_num := 1; title := []; author := [];
     summary := []; toc_items := []; seen_links := ∅; seen_pages := ∅;
     fetch_log := [] |}.

Definition toc_walk (remove_furigana : bool) (fuel : nat) (book_url : str)
    : option (ending exn * walk) :=
  toc_loop remove_furigana fuel (toc_start book_url).

End Walk.

End Toc.

(** ** Numbers and ranges on the command line (lines 338-353, 1726-1745) *)

(** [l[i]] for a Python list: a negative index counts from the end, and an
    index out of range raises [IndexError] ([None]). *)
Definition list_index {A} (l : list A) (i : Z) : option A :=
  if (0 <=? i)%Z then l !! Z.to_nat i
  else if (- Z.of_nat (length l) <=? i)%Z
       then l !! Z.to_nat (Z.of_nat (length l) + i)
       else None.

Section ChapterSelection.

(** The class [\d] of [re] on [str] patterns: the decimal digits of
    Unicode, which are neither white space nor the hyphen. *)
Variable isdecimal : char → bool.
(** [int(s)]; [None] when it raises [ValueError]. *)
Variable int : str → option Z.

(** The match of [^(\d+)\s*-\s*(\d+)$] at the start of [raw]: its two
    groups.  [raw] is stripped, so [$] can only match at its end. *)
Definition match_range (raw : str) : option (str * str) :=
  let a := take_while isdecimal raw in
  if is_nil a then None
  else
    match drop_while isspace (drop (length a) raw) with
    | c :: rest =>
        if c =? chr "-" then
          let rest := drop_while isspace rest in
          let b := take_while isdecimal rest in
          if is_nil b then None
          else if is_nil (drop (length b) rest) then Some (a, b) else None
        else None
    | [] => None
    end.

(** The match of [^(\d+)$]: its group. *)
Definition match_number (raw : str) : option str :=
  if negb (is_nil raw) && forallb isdecimal raw then Some raw else None.

(** [parse_number_range]; it raises the [ValueError] of [int], which it
    does not catch. *)
Definition parse_number_range (text : str) : result unit (option (Z * Z)) :=
  let raw := strip text in
  match match_range raw with
  | Some (ga, gb) =>
      match int ga with
      | None => Raise ()
      | Some a =>
          match int gb with
          | None => Raise ()
          | Some b =>
              if (a <? 1)%Z || (b <? 1)%Z || (b <? a)%Z then Ok None
              else Ok (Some (a, b))
          end
      end
  | None =>
      match match_number raw with
      | None => Ok None
      | Some g =>
          match int g with
          | None => Raise ()
          | Some value =>
              if (value <? 1)%Z then Ok None else Ok (Some (value, value))
          end
      end
  end.

(** How the selection of chapters in [main] ends: with [selected_links],
    with the message [No chapters found.] or [Invalid chapter range.], or
    with an exception. *)
Inductive selection :=
  | Selected (selected_links : list str)
  | NoChapters
  | InvalidRange
  | SelectionRaised.

(** [range(a, b)] *)
Definition range (a b : Z) : list Z := seqZ a (b - a).

(** The selection of [main]: [args_chapters] is [args.chapters], empty
    when the option is not given. *)
Definition select_chapters (chapter_links : list str) (args_chapters : str)
    : selection :=
  if is_nil chapter_links then NoChapters else
  let indices :=
    if negb (is_nil args_chapters) then
      match parse_number_range args_chapters with
      | Raise _ => inr SelectionRaised
      | Ok None => inr InvalidRange
      | Ok (Some (start, end_)) =>
          if (Z.of_nat (length chapter_links) <? end_)%Z then inr InvalidRange
          else inl (range (start - 1) end_)
      end
    else inl (range 0 (Z.of_nat (length chapter_links))) in
  match indices with
  | inr stop => stop
  | inl indices =>
      match mapM (list_index chapter_links) indices with
      | Some selected_links => Selected selected_links
      | None => SelectionRaised
      end
  end.

End ChapterSelection.

(** ** File names (lines 45-52, 356-380) *)

Definition MAX_FILENAME_LEN : Z := 120.

Definition _WINDOWS_RESERVED_NAMES : list str :=
  [lit "CON"; lit "PRN"; lit "AUX"; lit "NUL"]
  ++ ((λ i, lit "COM" ++ lit (pretty i)) <$> seq 1 9)
  ++ ((λ i, lit "LPT" ++ lit (pretty i)) <$> seq 1 9).

(** The characters the first substitution of [_sanitize_filename]
    removes: the backslash (U+005C), the slash, the colon, the asterisk,
    the question mark, the double quote and the three characters less-than,
    greater-than and bar. *)
Definition forbidden_char (c : char) : bool :=
  char_in c [92; chr "/"; chr ":"; chr "*"; chr "?"; dquote;
             chr "<"; chr ">"; chr "|"].

(** The substitution of one space for each run of white space ([\s+]);
    [in_run] tells that the character before
    was white space. *)
Fixpoint collapse_spaces (in_run : bool) (name : str) : str :=
  match name with
  | [] => []
  | c :: name' =>
      if isspace c then
        if in_run then collapse_spaces true name'
        else chr " " :: collapse_spaces true name'
      else c :: collapse_spaces false name'
  end.

(** [name.rstrip] of the space and the period. *)
Definition rstrip_space_dot (name : str) : str :=
  pop_while (λ c, char_in c [chr " "; chr "."]) name.

Section Filenames.

(** [str.upper] *)
Variable upper : str → str.

Definition is_reserved (name : str) : bool :=
  bool_decide (upper name ∈ _WINDOWS_RESERVED_NAMES).

Definition _sanitize_filename (name default : str) : str :=
  let name := filter (λ c, forbidden_char c = false) name in
  let name := strip (collapse_spaces false name) in
  let name := rstrip_space_dot name in
  let name := if is_nil name then default else name in
  if is_reserved name then chr "_" :: name else name.

Definition _truncate_filename (name : str) (max_length : Z) : str :=
  if (0 <? max_length)%Z && (max_length <? Z.of_nat (length name))%Z
  then rstrip_space_dot (take (Z.to_nat max_length) name)
  else name.

Definition safe_filename (name default : str) (max_length : Z) : str :=
  let name := _sanitize_filename name default in
  let name := _truncate_filename name max_length in
  let name := if is_nil name then default else name in
  if is_reserved name then chr "_" :: name else name.

Definition volume_label_for_filename (volume_title : str) (vol_index : Z)
    : str :=
  let default_label := lit "Volume " ++ lit (pretty vol_index) in
  let sanitized := _sanitize_filename volume_title default_label in
  if (MAX_FILENAME_LEN <? Z.of_nat (length sanitized))%Z
  then safe_filename default_label default_label MAX_FILENAME_LEN
  else safe_filename sanitized default_label MAX_FILENAME_LEN.

End Filenames.

(** ** The images of a book (lines 754-783) *)

Section Images.

Variable unescape : str → str.
Variable urljoin : str → str → str.
(** For each match of [_IMG_TAG_RE.finditer(para)], in order, the value of
    the first non-empty group of the three, or the empty string. *)
Variable img_tag_srcs : str → list str.

Definition normalize_image_src (src base_url : str) : str :=
  let src := unescape src in
  if starts_with (lit "data:") src then src else urljoin base_url src.

(** The body of the loop over the matches: [acc] is [(sources, seen)]. *)
Definition add_image_source (chap_base : str) (acc : list str * gset str)
    (raw_src : str) : list str * gset str :=
  if is_nil raw_src then acc
  else
    let norm := normalize_image_src raw_src chap_base in
    if bool_decide (norm ∈ acc.2) then acc
    else (acc.1 ++ [norm], {[ norm ]} ∪ acc.2).

Definition is_block_marker (para : str) : bool :=
  bool_decide (para ∈ [MARK_PREFACE; MARK_PREFACE_END; MARK_AFTERWORD;
                       MARK_AFTERWORD_END]).

Definition extract_image_sources (chapters : list Chapter) (base_url : str)
    : list str :=
  (foldl (λ acc chap,
     let chap_base := if is_nil (ch_url chap) then base_url else ch_url chap in
     foldl (λ acc para,
       if is_nil para || is_block_marker para then acc
       else foldl (add_image_source chap_base) acc (img_tag_srcs para))
       acc (ch_paragraphs chap))
     ([], ∅) chapters).1.

End Images.

(** ** Volumes (lines 962-1037) *)

(** The [Volume] dictionary. *)
Record Volume := mkVolume {
  vol_title : str;
  vol_chapters : list str
}.

(** The stripped title, or [Volume n] when that is empty. *)
Definition volume_title_or (title : str) (vol_index : nat) : str :=
  let title := strip title in
  if is_nil title then lit "Volume " ++ lit (pretty vol_index) else title.

Module Volumes.

(** The variables of the loop of [build_volumes].  [current] refers to a
    dictionary that is also an element of [volumes]: it is kept as the
    position of that element, and appending to the chapters of [current]
    updates the element there. *)
Record state := mkState {
  volumes : list Volume;
  current : option nat;
  vol_index : nat;
  found_volume : bool
}.

Definition new_volume (title : str) (found : bool) (st : state) : state :=
  {| volumes := volumes st ++ [mkVolume title []];
     current := Some (length (volumes st));
     vol_index := vol_index st + 1;
     found_volume := found |}.

Definition append_chapter (href : str) (st : state) : state :=
  match current st with
  | Some c =>
      {| volumes :=
           alter (λ v, mkVolume (vol_title v) (vol_chapters v ++ [href])) c
             (volumes st);
         current := current st; vol_index := vol_index st;
         found_volume := found_volume st |}
  | None => st
  end.

(** [selected is None or href in selected] *)
Definition is_selected (selected : option (gset str)) (href : str) : bool :=
  match selected with
  | None => true
  | Some selected => bool_decide (href ∈ selected)
  end.

Definition step (selected : option (gset str)) (st : state) (it : Toc.item)
    : state :=
  match it with
  | Toc.Volume title =>
      new_volume (volume_title_or title (vol_index st + 1)) true st
  | Toc.ChapterLink href _ =>
      let st :=
        match current st with
        | None =>
            new_volume (lit "Volume " ++ lit (pretty (vol_index st + 1)%nat))
              (found_volume st) st
        | Some _ => st
        end in
      if negb (is_nil href) && is_selected selected href
      then append_chapter href st else st
  end.

Definition build_volumes (toc_items : list Toc.item)
    (selected : option (gset str)) : list Volume * bool :=
  let st :=
    foldl (step selected)
      {| volumes := []; current := None; vol_index := 0;
         found_volume := false |} toc_items in
  (volumes st, found_volume st).

End Volumes.

(** The dictionary from the URL of each chapter to its index in
    [chapters]; of two chapters with one URL the later one wins. *)
Definition index_map (chapters : list Chapter) : gmap str nat :=
  foldl (λ m item, <[ch_url item.2 := item.1]> m) ∅ (enumerate chapters).

Definition build_volume_breaks (volumes : list Volume) (chapters : list Chapter)
    : list (str * nat * nat) :=
  let index_map := index_map chapters in
  foldl (λ breaks item,
    let vol_idx := (item.1 + 1)%nat in
    let volume_title := volume_title_or (vol_title item.2) vol_idx in
    let indices := omap (λ url, index_map !! url) (vol_chapters item.2) in
    match indices with
    | [] => breaks
    | i :: indices' =>
        breaks ++ [(volume_title, foldl Nat.min i indices',
                    foldl Nat.max i indices')]
    end) [] (enumerate volumes).

Section VolumeSelection.

(** [str.lower] *)
Variable lower : str → str.
(** [int(s)]; [None] when it raises [ValueError]. *)
Variable int : str → option Z.

(** [re.split] of [raw] at the runs of commas and white space: [cur] is the field being read and
    [in_sep] tells that the character before was a separator. *)
Fixpoint re_split_from (cur : str) (in_sep : bool) (raw : str) : list str :=
  match raw with
  | [] => [cur]
  | c :: raw' =>
      if (c =? chr ",") || isspace c then
        if in_sep then re_split_from [] true raw'
        else cur :: re_split_from [] true raw'
      else re_split_from (cur ++ [c]) false raw'
  end.

Definition re_split (raw : str) : list str := re_split_from [] false raw.

(** [result.add(n)] for the [n] of [range(a, b + 1)], or [None] at the
    first [n > max_index]. *)
Definition add_range (max_index : Z) (a b : Z) (result : gset Z)
    : option (gset Z) :=
  foldl (λ acc n,
    result ← acc;
    if (max_index <? n)%Z then None else Some ({[ n ]} ∪ result))
    (Some result) (range a (b + 1)).

(** The body of the loop over the parts. *)
Definition add_part (max_index : Z) (result : gset Z) (part : str)
    : option (gset Z) :=
  if is_nil part then Some result
  else if char_in (chr "-") part then
    let a_str := take_while (λ c, negb (c =? chr "-")) part in
    let b_str := drop (S (length a_str)) part in
    if is_nil a_str || is_nil b_str then None
    else
      a ← int a_str;
      b ← int b_str;
      if (a <? 1)%Z || (b <? 1)%Z || (b <? a)%Z then None
      else add_range max_index a b result
  else
    n ← int part;
    if (n <? 1)%Z || (max_index <? n)%Z then None
    else Some ({[ n ]} ∪ result).

Definition parse_volume_selection (text : str) (max_index : Z)
    : option (gset Z) :=
  let raw := lower (strip text) in
  if bool_decide (raw ∈ [[]; lit "all"; lit "*"; lit "a"])
  then Some (list_to_set (range 1 (max_index + 1)))
  else
    result ← foldl (λ acc part, result ← acc; add_part max_index result part)
               (Some ∅) (re_split raw);
    if bool_decide (result = ∅) then None else Some result.

End VolumeSelection.

(** ** The table-of-contents parser (lines 466-601, 735-741) *)

(** [str.splitlines]: the line boundaries are the line feed, the carriage
    return (with a line feed after it, if there is one), and U+000B,
    U+000C, U+001C to U+001E, U+0085, U+2028 and U+2029. *)
Definition is_line_boundary (c : char) : bool :=
  ((10 <=? c) && (c <=? 13)) || ((28 <=? c) && (c <=? 30))
  || (c =? 133) || (c =? 8232) || (c =? 8233).

Fixpoint splitlines_from (cur s : str) : list str :=
  match s with
  | [] => if is_nil cur then [] else [cur]
  | c :: s' =>
      if c =? 13 then
        match s' with
        | c' :: s'' =>
            if c' =? LF then cur :: splitlines_from [] s''
            else cur :: splitlines_from [] s'
        | [] => [cur]
        end
      else if is_line_boundary c then cur :: splitlines_from [] s'
      else splitlines_from (cur ++ [c]) s'
  end.

Definition splitlines (s : str) : list str := splitlines_from [] s.

Module TocParser.

Record parser := mkParser {
  title_parts : list str;
  author_parts : list str;
  summary_parts : list str;
  items : list Toc.item;
  next_url : str;
  _remove_furigana : bool;
  _ruby_skip_depth : Z;
  _in_title : bool;
  _in_author : bool;
  _eplist_depth : Z;
  _in_volume_title : bool;
  _volume_parts : list str;
  _in_chapter_link : bool;
  _chapter_parts : list str;
  _chapter_href : option str;
  _summary_depth : Z
}.

Definition init (remove_furigana : bool) : parser :=
  {| title_parts := []; author_parts := []; summary_parts := []; items := [];
     next_url := []; _remove_furigana := remove_furigana;
     _ruby_skip_depth := 0; _in_title := false; _in_author := false;
     _eplist_depth := 0; _in_volume_title := false; _volume_parts := [];
     _in_chapter_link := false; _chapter_parts := []; _chapter_href := None;
     _summary_depth := 0 |}.

(** The assignments to one attribute of [self]. *)
Definition set_title_parts (v : list str) (self : parser) : parser :=
  {| title_parts := v; author_parts := author_parts self;
     summary_parts := summary_parts self; items := items self;
     next_url := next_url self; _remove_furigana := _remove_furigana self;
     _ruby_skip_depth := _ruby_skip_depth self; _in_title := _in_title self;
     _in_author := _in_author self; _eplist_depth := _eplist_depth self;
     _in_volume_title := _in_volume_title self;
     _volume_parts := _volume_parts self;
     _in_chapter_link := _in_chapter_link self;
     _chapter_parts := _chapter_parts self;
     _chapter_href := _chapter_href self;
     _summary_depth := _summary_depth self |}.

Definition set_author_parts (v : list str) (self : parser) : parser :=
  {| title_parts := title_parts self; author_parts := v;
     summary_parts := summary_parts self; items := items self;
     next_url := next_url self; _remove_furigana := _remove_furigana self;
     _ruby_skip_depth := _ruby_skip_depth self; _in_title := _in_title self;
     _in_author := _in_author self; _eplist_depth := _eplist_depth self;
     _in_volume_title := _in_volume_title self;
     _volume_parts := _volume_parts self;
     _in_chapter_link := _in_chapter_link self;
     _chapter_parts := _chapter_parts self;
     _chapter_href := _chapter_href self;
     _summary_depth := _summary_depth self |}.

Definition set_summary_parts (v : list str) (self : parser) : parser :=
  {| title_parts := title_parts self; author_parts := author_parts self;
     summary_parts := v; items := items self; next_url := next_url self;
     _remove_furigana := _remove_furigana self;
     _ruby_skip_depth := _ruby_skip_depth self; _in_title := _in_title self;
     _in_author := _in_author self; _eplist_depth := _eplist_depth self;
     _in_volume_title := _in_volume_title self;
     _volume_parts := _volume_parts self;
     _in_chapter_link := _in_chapter_link self;
     _chapter_parts := _chapter_parts self;
     _chapter_href := _chapter_href self;
     _summary_depth := _summary_depth self |}.

Definition set_items (v : list Toc.item) (self : parser) : parser :=
  {| title_parts := title_parts self; author_parts := author_parts self;
     summary_parts := summary_parts self; items := v;
     next_url := next_url self; _remove_furigana := _remove_furigana self;
     _ruby_skip_depth := _ruby_skip_depth self; _in_title := _in_title self;
     _in_author := _in_author self; _eplist_depth := _eplist_depth self;
     _in_volume_title := _in_volume_title self;
     _volume_parts := _volume_parts self;
     _in_chapter_link := _in_chapter_link self;
     _chapter_parts := _chapter_parts self;
     _chapter_href := _chapter_href self;
     _summary_depth := _summary_depth self |}.

Definition set_next_url (v : str) (self : parser) : parser :=
  {| title_parts := title_parts self; author_parts := author_parts self;
     summary_parts := summary_parts self; items := items self; next_url := v;
     _remove_furigana := _remove_furigana self;
     _ruby_skip_depth := _ruby_skip_depth self; _in_title := _in_title self;
     _in_author := _in_author self; _eplist_depth := _eplist_depth self;
     _in_volume_title := _in_volume_title self;
     _volume_parts := _volume_parts self;
     _in_chapter_link := _in_chapter_link self;
     _chapter_parts := _chapter_parts self;
     _chapter_href := _chapter_href self;
     _summary_depth := _summary_depth self |}.

Definition set_ruby_skip_depth (v : Z) (self : parser) : parser :=
  {| title_parts := title_parts self; author_parts := author_parts self;
     summary_parts := summary_parts self; items := items self;
     next_url := next_url self; _remove_furigana := _remove_furigana self;
     _ruby_skip_depth := v; _in_title := _in_title self;
     _in_author := _in_author self; _eplist_depth := _eplist_depth self;
     _in_volume_title := _in_volume_title self;
     _volume_parts := _volume_parts self;
     _in_chapter_link := _in_chapter_link self;
     _chapter_parts := _chapter_parts self;
     _chapter_href := _chapter_href self;
     _summary_depth := _summary_depth self |}.

Definition set_in_title (v : bool) (self : parser) : parser :=
  {| title_parts := title_parts self; author_parts := author_parts self;
     summary_parts := summary_parts self; items := items self;
     next_url := next_url self; _remove_furigana := _remove_furigana self;
     _ruby_skip_depth := _ruby_skip_depth self; _in_title := v;
     _in_author := _in_author self; _eplist_depth := _eplist_depth self;
     _in_volume_title := _in_volume_title self;
     _volume_parts := _volume_parts self;
     _in_chapter_link := _in_chapter_link self;
     _chapter_parts := _chapter_parts self;
     _chapter_href := _chapter_href self;
     _summary_depth := _summary_depth self |}.

Definition set_in_author (v : bool) (self : parser) : parser :=
  {| title_parts := title_parts self; author_parts := author_parts self;
     summary_parts := summary_parts self; items := items self;
     next_url := next_url self; _remove_furigana := _remove_furigana self;
     _ruby_skip_depth := _ruby_skip_depth self; _in_title := _in_title self;
     _in_author := v; _eplist_depth := _eplist_depth self;
     _in_volume_title := _in_volume_title self;
     _volume_parts := _volume_parts self;
     _in_chapter_link := _in_chapter_link self;
     _chapter_parts := _chapter_parts self;
     _chapter_href := _chapter_href self;
     _summary_depth := _summary_depth self |}.

Definition set_eplist_depth (v : Z) (self : parser) : parser :=
  {| title_parts := title_parts self; author_parts := author_parts self;
     summary_parts := summary_parts self; items := items self;
     next_url := next_url self; _remove_furigana := _remove_furigana self;
     _ruby_skip_depth := _ruby_skip_depth self; _in_title := _in_title self;
     _in_author := _in_author self; _eplist_depth := v;
     _in_volume_title := _in_volume_title self;
     _volume_parts := _volume_parts self;
     _in_chapter_link := _in_chapter_link self;
     _chapter_parts := _chapter_parts self;
     _chapter_href := _chapter_href self;
     _summary_depth := _summary_depth self |}.

Definition set_in_volume_title (v : bool) (self : parser) : parser :=
  {| title_parts := title_parts self; author_parts := author_parts self;
     summary_parts := summary_parts self; items := items self;
     next_url := next_url self; _remove_furigana := _remove_furigana self;
     _ruby_skip_depth := _ruby_skip_depth self; _in_title := _in_title self;
     _in_author := _in_author self; _eplist_depth := _eplist_depth self;
     _in_volume_title := v; _volume_parts := _volume_parts self;
     _in_chapter_link := _in_chapter_link self;
     _chapter_parts := _chapter_parts self;
     _chapter_href := _chapter_href self;
     _summary_depth := _summary_depth self |}.

Definition set_volume_parts (v : list str) (self : parser) : parser :=
  {| title_parts := title_parts self; author_parts := author_parts self;
     summary_parts := summary_parts self; items := items self;
     next_url := next_url self; _remove_furigana := _remove_furigana self;
     _ruby_skip_depth := _ruby_skip_depth self; _in_title := _in_title self;
     _in_author := _in_author self; _eplist_depth := _eplist_depth self;
     _in_volume_title := _in_volume_title self; _volume_parts := v;
     _in_chapter_link := _in_chapter_link self;
     _chapter_parts := _chapter_parts self;
     _chapter_href := _chapter_href self;
     _summary_depth := _summary_depth self |}.

Definition set_in_chapter_link (v : bool) (self : parser) : parser :=
  {| title_parts := title_parts self; author_parts := author_parts self;
     summary_parts := summary_parts self; items := items self;
     next_url := next_url self; _remove_furigana := _remove_furigana self;
     _ruby_skip_depth := _ruby_skip_depth self; _in_title := _in_title self;
     _in_author := _in_author self; _eplist_depth := _eplist_depth self;
     _in_volume_title := _in_volume_title self;
     _volume_parts := _volume_parts self; _in_chapter_link := v;
     _chapter_parts := _chapter_parts self;
     _chapter_href := _chapter_href self;
     _summary_depth := _summary_depth self |}.

Definition set_chapter_parts (v : list str) (self : parser) : parser :=
  {| title_parts := title_parts self; author_parts := author_parts self;
     summary_parts := summary_parts self; items := items self;
     next_url := next_url self; _remove_furigana := _remove_furigana self;
     _ruby_skip_depth := _ruby_skip_depth self; _in_title := _in_title self;
     _in_author := _in_author self; _eplist_depth := _eplist_depth self;
     _in_volume_title := _in_volume_title self;
     _volume_parts := _volume_parts self;
     _in_chapter_link := _in_chapter_link self; _chapter_parts := v;
     _chapter_href := _chapter_href self;
     _summary_depth := _summary_depth self |}.

Definition set_chapter_href (v : option str) (self : parser) : parser :=
  {| title_parts := title_parts self; author_parts := author_parts self;
     summary_parts := summary_parts self; items := items self;
     next_url := next_url self; _remove_furigana := _remove_furigana self;
     _ruby_skip_depth := _ruby_skip_depth self; _in_title := _in_title self;
     _in_author := _in_author self; _eplist_depth := _eplist_depth self;
     _in_volume_title := _in_volume_title self;
     _volume_parts := _volume_parts self;
     _in_chapter_link := _in_chapter_link self;
     _chapter_parts := _chapter_parts self; _chapter_href := v;
     _summary_depth := _summary_depth self |}.

Definition set_summary_depth (v : Z) (self : parser) : parser :=
  {| title_parts := title_parts self; author_parts := author_parts self;
     summary_parts := summary_parts self; items := items self;
     next_url := next_url self; _remove_furigana := _remove_furigana self;
     _ruby_skip_depth := _ruby_skip_depth self; _in_title := _in_title self;
     _in_author := _in_author self; _eplist_depth := _eplist_depth self;
     _in_volume_title := _in_volume_title self;
     _volume_parts := _volume_parts self;
     _in_chapter_link := _in_chapter_link self;
     _chapter_parts := _chapter_parts self;
     _chapter_href := _chapter_href self; _summary_depth := v |}.

Definition handle_starttag (tag : str) (attrs : attrs_t) (self : parser)
    : parser :=
  if is_tag tag "rt" || is_tag tag "rp" then
    if _remove_furigana self
    then set_ruby_skip_depth (_ruby_skip_depth self + 1) self
    else self
  else if is_tag tag "div" && (0 <? _summary_depth self)%Z then
    set_summary_depth (_summary_depth self + 1) self
  else if is_tag tag "div"
          && (bool_decide (attrs_get attrs (lit "id") = Some (lit "novel_ex"))
              || has_class attrs (lit "p-novel__summary")) then
    set_summary_depth 1 self
  else if is_tag tag "h1" && has_class attrs (lit "p-novel__title") then
    set_in_title true self
  else if is_tag tag "div" && has_class attrs (lit "p-novel__author") then
    set_in_author true self
  else if is_tag tag "a" && has_class attrs (lit "c-pager__item--next")
          && is_nil (next_url self) then
    match attrs_get attrs (lit "href") with
    | Some href => if is_nil href then self else set_next_url href self
    | None => self
    end
  else if is_tag tag "div" then
    let self :=
      if (0 <? _eplist_depth self)%Z
      then set_eplist_depth (_eplist_depth self + 1) self
      else if has_class attrs (lit "p-eplist") then set_eplist_depth 1 self
           else self in
    if (0 <? _eplist_depth self)%Z
       && has_class attrs (lit "p-eplist__chapter-title")
    then set_volume_parts [] (set_in_volume_title true self)
    else self
  else if is_tag tag "br" && (0 <? _summary_depth self)%Z then
    set_summary_parts (summary_parts self ++ [[LF]]) self
  else if is_tag tag "a" && (0 <? _eplist_depth self)%Z
          && has_class attrs (lit "p-eplist__subtitle") then
    match attrs_get attrs (lit "href") with
    | Some href =>
        if is_nil href then self
        else set_chapter_href (Some href)
               (set_chapter_parts [] (set_in_chapter_link true self))
    | None => self
    end
  else self.

Definition handle_endtag (tag : str) (self : parser) : parser :=
  if (is_tag tag "rt" || is_tag tag "rp") && _remove_furigana self then
    if (0 <? _ruby_skip_depth self)%Z
    then set_ruby_skip_depth (_ruby_skip_depth self - 1) self
    else self
  else if is_tag tag "div" && (0 <? _summary_depth self)%Z then
    let self := set_summary_depth (_summary_depth self - 1) self in
    if (_summary_depth self =? 0)%Z
    then set_summary_parts (summary_parts self ++ [[LF]]) self
    else self
  else if is_tag tag "p" && (0 <? _summary_depth self)%Z then
    set_summary_parts (summary_parts self ++ [[LF]]) self
  else if is_tag tag "h1" && _in_title self then set_in_title false self
  else if is_tag tag "div" && _in_author self then set_in_author false self
  else if is_tag tag "div" then
    let self :=
      if _in_volume_title self then
        let volume_title := strip (mjoin (_volume_parts self)) in
        let self :=
          if is_nil volume_title then self
          else set_items (items self ++ [Toc.Volume volume_title]) self in
        set_volume_parts [] (set_in_volume_title false self)
      else self in
    if (0 <? _eplist_depth self)%Z
    then set_eplist_depth (_eplist_depth self - 1) self
    else self
  else if is_tag tag "a" && _in_chapter_link self then
    let chapter_title := strip (mjoin (_chapter_parts self)) in
    let self :=
      match _chapter_href self with
      | Some href =>
          if is_nil href then self
          else set_items (items self ++ [Toc.ChapterLink href chapter_title])
                 self
      | None => self
      end in
    set_chapter_href None
      (set_chapter_parts [] (set_in_chapter_link false self))
  else self.

Section Handlers.

Variable isdigit : char → bool.

Definition handle_data (data : str) (self : parser) : parser :=
  if _remove_furigana self && (0 <? _ruby_skip_depth self)%Z then self
  else if _in_title self then
    set_title_parts (title_parts self ++ [normalize_japanese_punct isdigit data])
      self
  else if _in_author self then
    set_author_parts
      (author_parts self ++ [normalize_japanese_punct isdigit data]) self
  else if (0 <? _summary_depth self)%Z then
    set_summary_parts
      (summary_parts self ++ [normalize_japanese_punct isdigit data]) self
  else if _in_volume_title self then
    set_volume_parts
      (_volume_parts self ++ [normalize_japanese_punct isdigit data]) self
  else if _in_chapter_link self then
    set_chapter_parts
      (_chapter_parts self ++ [normalize_japanese_punct isdigit data]) self
  else self.

(** [TocParser] does not override [handle_startendtag]: [HTMLParser] calls
    [handle_starttag] and then [handle_endtag]. *)
Definition dispatch (self : parser) (e : event) : parser :=
  match e with
  | StartTag tag attrs => handle_starttag tag attrs self
  | StartEndTag tag attrs => handle_endtag tag (handle_starttag tag attrs self)
  | EndTag tag => handle_endtag tag self
  | Data data => handle_data data self
  end.

Definition feed (events : list event) (remove_furigana : bool) : parser :=
  foldl dispatch (init remove_furigana) events.

End Handlers.

Definition get_title (self : parser) : str := strip (mjoin (title_parts self)).

(** The prefix that [get_author] removes. *)
Definition author_label : str := [20316; 32773; 65306].

Definition get_author (self : parser) : str :=
  let raw := strip (mjoin (author_parts self)) in
  strip (if starts_with author_label raw then drop (length author_label) raw
         else raw).

Definition get_summary (self : parser) : str :=
  let raw := mjoin (summary_parts self) in
  let lines := strip <$> splitlines raw in
  join_lines (filter (λ line, line ≠ []) lines).

End TocParser.

Section ParseTocPage.

Variable isdigit : char → bool.
(** The tokenizer of [html.parser.HTMLParser], as for [parse_chapter_page]. *)
Variable html_events : str → list event.

Definition parse_toc_events (events : list event) (remove_furigana : bool)
    : Toc.toc_page :=
  let parser := TocParser.feed isdigit events remove_furigana in
  {| Toc.page_title := TocParser.get_title parser;
     Toc.page_author := TocParser.get_author parser;
     Toc.page_summary := TocParser.get_summary parser;
     Toc.items := TocParser.items parser;
     Toc.page_next := TocParser.next_url parser |}.

Definition parse_toc_page (page_html : str) (remove_furigana : bool)
    : Toc.toc_page :=
  parse_toc_events (html_events page_html) remove_furigana.

End ParseTocPage.

(** ** The image downloader (lines 88-96, 107-110, 786-897) *)

Definition _IMG_EXT_BY_MIME : list (str * str) :=
  [ (lit "image/jpeg", lit ".jpg"); (lit "image/jpg", lit ".jpg");
    (lit "image/png", lit ".png"); (lit "image/gif", lit ".gif");
    (lit "image/webp", lit ".webp"); (lit "image/bmp", lit ".bmp");
    (lit "image/svg+xml", lit ".svg") ].

(** [s.endswith(suffix)] *)
Definition ends_with (suffix : string) (s : str) : bool :=
  starts_with (reverse (lit suffix)) (reverse s).

(** [s.partition(sep)]: the text before the first [sep] and the text after
    it, which is empty when there is no [sep]. *)
Definition partition (sep : char) (s : str) : str * str :=
  let before := take_while (λ c, negb (c =? sep)) s in
  (before, drop (S (length before)) s).

(** The format [03d] of a counter: its decimal digits, filled up with zeros
    to three characters. *)
Definition pad3 (n : nat) : str :=
  let digits := lit (pretty n) in
  replicate (3 - length digits) (chr "0") ++ digits.

(** The [ImageItem] dictionary. *)
Record ImageItem (bytes : Type) := mkImageItem {
  img_href : str;
  img_media_type : str;
  img_data : bytes
}.
Arguments mkImageItem {bytes} _ _ _.
Arguments img_href {bytes} _.
Arguments img_media_type {bytes} _.
Arguments img_data {bytes} _.

Module Images.

Section DownloadImages.

Variables bytes exn : Type.
Variable unescape : str → str.
Variable urljoin : str → str → str.
Variable img_tag_srcs : str → list str.
(** [str.lower] *)
Variable lower : str → str.
(** [urllib.parse.urlparse(url).path], or the exception it raises. *)
Variable url_path : str → result exn str.
(** [base64.b64decode] and [str.encode] for UTF-8. *)
Variable b64decode : str → result exn bytes.
Variable encode_utf8 : str → result exn bytes.
(** [get_binary] for the source at position [index]: the data and the
    content type, or the exception of the fetch. *)
Variable get_binary : nat → str → result exn (bytes * str).

Definition _guess_media_type_from_url (url : str) : result exn str :=
  match url_path url with
  | Raise e => Raise e
  | Ok path =>
      let path := lower path in
      Ok (if ends_with ".jpg" path || ends_with ".jpeg" path
          then lit "image/jpeg"
          else if ends_with ".png" path then lit "image/png"
          else if ends_with ".gif" path then lit "image/gif"
          else if ends_with ".webp" path then lit "image/webp"
          else if ends_with ".bmp" path then lit "image/bmp"
          else if ends_with ".svg" path then lit "image/svg+xml"
          else [])
  end.

Definition _ext_from_media_type (media_type : str) : str :=
  default [] (snd <$> head (filter (λ kv, kv.1 = lower media_type)
                              _IMG_EXT_BY_MIME)).

Definition octet_stream : str := lit "application/octet-stream".

Definition _parse_data_url (src : str) : result exn (bytes * str) :=
  let '(header, data) := partition (chr ",") src in
  let meta := if starts_with (lit "data:") header then drop 5 header else [] in
  let '(mime, enc) := partition (chr ";") meta in
  let mime := if is_nil mime then octet_stream else mime in
  match (if bool_decide (lower enc = lit "base64") then b64decode data
         else encode_utf8 data) with
  | Ok decoded => Ok (decoded, mime)
  | Raise e => Raise e
  end.

(** What [fetch_one(index, src)] returns after [index] and [src]: the
    data, the media type and the exception.  It catches every [Exception]. *)
Definition fetch_one (index : nat) (src : str)
    : option bytes * str * option exn :=
  let fetched :=
    if starts_with (lit "data:") src then _parse_data_url src
    else
      match get_binary index src with
      | Raise e => Raise e
      | Ok (data, content_type) =>
          let media_type := strip (partition (chr ";") content_type).1 in
          if is_nil media_type then
            match _guess_media_type_from_url src with
            | Ok media_type => Ok (data, media_type)
            | Raise e => Raise e
            end
          else Ok (data, media_type)
      end in
  match fetched with
  | Ok (data, media_type) =>
      (Some data, if is_nil media_type then octet_stream else media_type, None)
  | Raise e => (None, [], Some e)
  end.

(** An element of [results]. *)
Definition fetched := (str * (option bytes * str * option exn))%type.

(** [results[index] = (src, data, media_type, err)], in both loops. *)
Definition store_result (results : list (option fetched)) (item : nat * str)
    : list (option fetched) :=
  <[item.1 := Some (item.2, fetch_one item.1 item.2)]> results.

(** The last loop: [acc] is [(image_map, images, counter)]. *)
Definition add_image (acc : gmap str str * list (ImageItem bytes) * nat)
    (item : option fetched) : gmap str str * list (ImageItem bytes) * nat :=
  let '(image_map, images, counter) := acc in
  match item with
  | Some (src, (Some data, media_type, None)) =>
      let ext := _ext_from_media_type media_type in
      let ext := if is_nil ext then lit ".bin" else ext in
      let filename := lit "image" ++ pad3 counter ++ ext in
      let href := lit "images/" ++ filename in
      (<[src := href]> image_map,
       images ++ [mkImageItem href media_type data], (counter + 1)%nat)
  | _ => acc
  end.

(** [download_images]; [completed] lists the [(idx, src)] of the futures in
    the order they complete. *)
Definition download_images (chapters : list Chapter) (base_url : str)
    (jobs : Z) (completed : list (nat * str))
    : gmap str str * list (ImageItem bytes) :=
  let sources :=
    extract_image_sources unescape urljoin img_tag_srcs chapters base_url in
  if is_nil sources then (∅, [])
  else
    let results := replicate (length sources) None in
    let results :=
      if (jobs <=? 1)%Z || (length sources <=? 1)%nat
      then foldl store_result results (enumerate sources)
      else foldl store_result results completed in
    (foldl add_image (∅, [], 1%nat) results).1.

End DownloadImages.

End Images.

(** ** The rate limiter (lines 248-268) *)

(** The operations [RateLimiter] uses on times: [0.0], [+], [-], [<] and
    [<=].  The program runs them on binary64 floats. *)
Class Arith (T : Type) := {
  t_zero : T;
  t_add : T → T → T;
  t_sub : T → T → T;
  t_lt : T → T → bool;
  t_le : T → T → bool
}.

(** The floats of Python: binary64, with the operations of IEEE 754. *)
Global Instance binary64 : Arith PrimFloat.float := {|
  t_zero := PrimFloat.zero;
  t_add := PrimFloat.add;
  t_sub := PrimFloat.sub;
  t_lt := PrimFloat.ltb;
  t_le := PrimFloat.leb
|}.

(** Times counted in whole ticks, where every operation is exact. *)
Global Instance exact_ticks : Arith Z := {|
  t_zero := 0%Z;
  t_add := Z.add;
  t_sub := Z.sub;
  t_lt := Z.ltb;
  t_le := Z.leb
|}.

Record RateLimiter (T : Type) := mkRateLimiter {
  min_interval : T;
  _next_time : T
}.
Arguments mkRateLimiter {T} _ _.
Arguments min_interval {T} _.
Arguments _next_time {T} _.

Module Limiter.

(** What a call of [wait] does: it returns before it takes the lock, or it
    reads the clock under the lock ([now]) and computes [sleep_for]. *)
Inductive outcome (T : Type) :=
  | ReturnedAtOnce
  | Scheduled (now sleep_for : T).
Arguments ReturnedAtOnce {T}.
Arguments Scheduled {T} now sleep_for.

Section Wait.

Context {T : Type} `{Arith T}.

(** [max(0.0, min_interval)]: the second argument when it is greater. *)
Definition clamp (interval : T) : T :=
  if t_lt t_zero interval then interval else t_zero.

(** [RateLimiter(interval)], built when [time.monotonic()] reads [now]. *)
Definition init (interval now : T) : RateLimiter T :=
  let min_interval := clamp interval in
  {| min_interval := min_interval;
     _next_time :=
       if t_lt t_zero min_interval then t_add now min_interval else t_zero |}.

(** [wait], for the reading [now] of [time.monotonic()] under the lock. *)
Definition wait (self : RateLimiter T) (now : T)
    : RateLimiter T * outcome T :=
  if t_le (min_interval self) t_zero then (self, ReturnedAtOnce)
  else if t_lt now (_next_time self) then
    ({| min_interval := min_interval self;
        _next_time := t_add (_next_time self) (min_interval self) |},
     Scheduled now (t_sub (_next_time self) now))
  else
    ({| min_interval := min_interval self;
        _next_time := t_add now (min_interval self) |},
     Scheduled now t_zero).

(** [time.sleep(sleep_for)] runs when [sleep_for > 0]. *)
Definition sleeps (o : outcome T) : option T :=
  match o with
  | Scheduled _ sleep_for =>
      if t_lt t_zero sleep_for then Some sleep_for else None
  | ReturnedAtOnce => None
  end.

(** The calls of [wait] by any number of threads, in the order in which
    they hold the lock; [nows] lists the clock readings of the calls. *)
Fixpoint waits (self : RateLimiter T) (nows : list T) : list (outcome T) :=
  match nows with
  | [] => []
  | now :: nows' =>
      let '(self, o) := wait self now in
      o :: waits self nows'
  end.


End Wait.

End Limiter.







(** An arithmetic in which sums and differences are exact and the order
    is total. *)
Class ExactArith (T : Type) `{Arith T} : Prop := {
  t_add_sub : ∀ a b, t_add a (t_sub b a) = b;
  t_add_zero : ∀ a, t_add a t_zero = a;
  t_le_refl : ∀ a, t_le a a = true;
  t_lt_false_le : ∀ a b, t_lt a b = false → t_le b a = true;
  t_lt_true_le : ∀ a b, t_lt a b = true → t_le b a = false;
  t_le_add_sub : ∀ a b m, t_le (t_add a m) b = true → t_le m (t_sub b a) = true
}.

(** * Part II: the properties *)

(** ** The fetcher never falls out of its retry loop *)

Section FetchFacts.

Import Fetch.

Context {response : Type}.
Variable urlopen : Z → result exc response.

(** An attempt whose exception the loop answers with another attempt,
    given that one is left. *)
Definition retried (r : result exc response) : Prop :=
  match r with
  | Raise (HTTPError code) => code ∈ retryable_codes
  | Raise (TransportError _) => True
  | _ => False
  end.

(** The outcome stems from attempt [k], the last one made: every attempt
    before it was retried, and the call returns what attempt [k] read or
    raises what attempt [k] raised. *)
Definition decided_by_attempt (retries : Z) (o : outcome response) : Prop :=
  match o with
  | Returned resp =>
      ∃ k, (0 ≤ k ≤ retries)%Z ∧ urlopen k = Ok resp
           ∧ ∀ j, (0 ≤ j < k)%Z → retried (urlopen j)
  | Raised k e =>
      (0 ≤ k ≤ retries)%Z ∧ urlopen k = Raise e
      ∧ ∀ j, (0 ≤ j < k)%Z → retried (urlopen j)
  | FellThrough _ => False
  end.

Lemma fetch_loop_decided hl dp retries (n : nat) (k : Z) last_err log :
  (0 ≤ k)%Z → (k + Z.of_nat n = retries + 1)%Z → (0 < n)%nat →
  (∀ j, (0 ≤ j < k)%Z → retried (urlopen j)) →
  decided_by_attempt retries
    (fetch_loop response urlopen hl dp retries (seqZ k (Z.of_nat n)) last_err log).1.
Proof.
  revert k last_err log.
  induction n as [|n IH]; intros k last_err log Hk Hsum Hn Hpre; [lia|].
  rewrite seqZ_cons by lia. simpl.
  replace (Z.pred (Z.of_nat (S n))) with (Z.of_nat n) by lia.
  assert (Hstep : ∀ e0 le lg, retried (Raise e0 : result exc response) →
            urlopen k = Raise e0 → (k <? retries)%Z = true →
            decided_by_attempt retries
              (fetch_loop response urlopen hl dp retries
                 (seqZ (Z.succ k) (Z.of_nat n)) le lg).1).
  { intros e0 le lg Hr He Hlt. apply Z.ltb_lt in Hlt.
    apply IH; [lia | lia | lia |].
    intros j Hj. destruct (decide (j = k)) as [->|Hne].
    - rewrite He. exact Hr.
    - apply Hpre. lia. }
  destruct (urlopen k) as [resp|[code|msg|msg]] eqn:Hopen; simpl.
  - exists k. repeat split; try lia; auto.
  - destruct (bool_decide (code ∈ retryable_codes)) eqn:Hc; simpl.
    + destruct (k <? retries)%Z eqn:Hlt.
      * apply (Hstep (HTTPError code)); auto. simpl. by apply bool_decide_eq_true in Hc.
      * simpl. repeat split; try lia; auto.
    + repeat split; try lia; auto.
  - destruct (k <? retries)%Z eqn:Hlt.
    + apply (Hstep (TransportError msg)); auto. exact I.
    + simpl. repeat split; try lia; auto.
  - repeat split; try lia; auto.
Qed.

(** C10: with [retries >= 0], [_fetch_url] returns the response of some
    attempt or raises the exception of the last attempt it made, from
    inside the loop; the [RuntimeError] after the loop is never reached. *)
Theorem fetch_url_returns_or_raises_in_loop hl dp (retries : Z) :
  (0 ≤ retries)%Z →
  decided_by_attempt retries (_fetch_url response urlopen hl dp retries).1.
Proof.
  intros Hr. unfold _fetch_url.
  replace (retries + 1)%Z with (Z.of_nat (Z.to_nat (retries + 1))) by lia.
  apply fetch_loop_decided; try lia.
Qed.

End FetchFacts.

(** A server that answers 503 twice and then 404. *)
Definition urlopen_503_503_404 (attempt : Z) : result Fetch.exc unit :=
  if (attempt <? 2)%Z then Raise (Fetch.HTTPError 503) else Raise (Fetch.HTTPError 404).

Lemma fetch_url_returns_or_raises_in_loop_witness :
  (0 ≤ 3)%Z ∧
  decided_by_attempt urlopen_503_503_404 3
    (Fetch._fetch_url unit urlopen_503_503_404 true false 3).1.
Proof.
  split; [lia|].
  apply (fetch_url_returns_or_raises_in_loop urlopen_503_503_404 true false 3).
  lia.
Defined.

(** With a negative [retries] the loop body never runs and the call falls
    through to the [RuntimeError]. *)
Example fetch_url_negative_retries :
  (Fetch._fetch_url unit urlopen_503_503_404 true false (-1)).1 = Fetch.FellThrough None.
Proof. reflexivity. Qed.

Example fetch_url_503_503_404 :
  Fetch._fetch_url unit urlopen_503_503_404 true false 3
  = (Fetch.Raised 2 (Fetch.HTTPError 404),
     [Fetch.LimiterWait; Fetch.SleepBackoff 1; Fetch.LimiterWait;
      Fetch.SleepBackoff 2; Fetch.LimiterWait]).
Proof. reflexivity. Qed.

(** ** The flat text ends with one newline *)

Lemma drop_while_head {A} (p : A → bool) (l : list A) (x : A) :
  head (drop_while p l) = Some x → p x = false.
Proof.
  induction l as [|y l IH]; simpl; [done|].
  destruct (p y) eqn:Hy; [done|]. simpl. by intros [= ->].
Qed.

Lemma pop_while_last {A} (p : A → bool) (l : list A) (x : A) :
  last (pop_while p l) = Some x → p x = false.
Proof. unfold pop_while. rewrite last_reverse. apply drop_while_head. Qed.

Lemma strip_last (s : str) (c : char) :
  last (strip s) = Some c → isspace c = false.
Proof. apply pop_while_last. Qed.

(** [out] is some text followed by one line feed, and that text does not
    itself end with a line feed. *)
Definition ends_with_one_newline (out : str) : Prop :=
  ∃ body, out = body ++ [LF] ∧ last body ≠ Some LF.

(** The last line of [out], however it is delimited, is not blank: whatever
    stands between a line feed of [out] and its final line feed contains a
    character that is not white space. *)
Definition no_trailing_blank_line (out : str) : Prop :=
  ∀ pre ws, out = pre ++ [LF] ++ ws ++ [LF] → ∃ c, c ∈ ws ∧ isspace c = false.

Lemma stripped_line_shape (body : str) :
  (∀ c, last body = Some c → isspace c = false) →
  ends_with_one_newline (body ++ [LF]) ∧ no_trailing_blank_line (body ++ [LF]).
Proof.
  intros Hlast. split.
  - exists body. split; [done|]. intros H. by apply Hlast in H.
  - intros pre ws Heq.
    assert (body = pre ++ [LF] ++ ws) as ->.
    { apply (app_inj_tail body (pre ++ [LF] ++ ws) LF LF).
      rewrite Heq. by rewrite <- !app_assoc. }
    destruct ws as [|w ws _] using rev_ind.
    + specialize (Hlast LF). rewrite app_nil_r, last_snoc in Hlast.
      by specialize (Hlast eq_refl).
    + exists w. split; [set_solver|]. apply Hlast.
      by rewrite !app_assoc, last_snoc.
Qed.

(** C8: whatever the title, the author and the chapters are, the text
    [write_txt] writes ends with exactly one line feed, and no blank line
    precedes that line feed. *)
Theorem write_txt_ends_with_one_newline
    (unescape : str → str) (replace_img_tags_for_txt : str → str → str)
    (title author : str) (chapters : list Chapter) (book_url : str) :
  let out := write_txt unescape replace_img_tags_for_txt title author chapters book_url in
  ends_with_one_newline out ∧ no_trailing_blank_line out.
Proof.
  cbv zeta. unfold write_txt. apply stripped_line_shape. apply strip_last.
Qed.

Example write_txt_empty_book :
  write_txt id (λ para _, para) [] [] [] [] = [LF].
Proof. reflexivity. Qed.

(** ** The table-of-contents walk terminates *)

Lemma log_matches_step (url : str) (log : list str) (seen : gset str) :
  NoDup log → (∀ u, u ∈ log ↔ u ∈ seen) → url ∉ seen →
  NoDup (log ++ [url]) ∧ ∀ u, u ∈ log ++ [url] ↔ u ∈ ({[ url ]} ∪ seen : gset str).
Proof.
  intros Hnd Hiff Hnew. split.
  - apply NoDup_app. repeat split; [done | | apply NoDup_singleton].
    intros u Hu Hu'. apply list_elem_of_singleton in Hu' as ->.
    by apply Hiff in Hu.
  - intros u.
    rewrite elem_of_app, list_elem_of_singleton, elem_of_union, elem_of_singleton, Hiff.
    tauto.
Qed.


Lemma unvisited_shrinks (pages seen : gset str) (url : str) :
  url ∈ pages → url ∉ seen →
  (size (pages ∖ ({[ url ]} ∪ seen)) < size (pages ∖ seen))%nat.
Proof. intros Hin Hnew. apply subset_size. set_solver. Qed.

Section WalkFacts.

Import Toc.

Context {exn : Type}.
Variable get_page : str → result exn str.
Variable parse_toc_page : str → bool → toc_page.
Variable urljoin : str → str → str.
Variable remove_furigana : bool.

Local Abbreviation visit := (Toc.visit parse_toc_page urljoin remove_furigana).
Local Abbreviation toc_loop := (Toc.toc_loop exn get_page parse_toc_page urljoin remove_furigana).

Lemma visit_seen_pages w page :
  seen_pages (visit w page) = {[ next_url w ]} ∪ seen_pages w.
Proof. unfold Toc.visit. by destruct (foldl _ _ _). Qed.

Lemma visit_fetch_log w page :
  fetch_log (visit w page) = fetch_log w ++ [next_url w].
Proof. unfold Toc.visit. by destruct (foldl _ _ _). Qed.

(** The log and the set of visited pages hold the same URLs, once each. *)
Definition log_matches (w : walk) : Prop :=
  NoDup (fetch_log w) ∧ ∀ u, u ∈ fetch_log w ↔ u ∈ seen_pages w.

(** How a finished walk stands: nothing was fetched twice, and the loop
    was left because there is no next link or because the next URL had
    been visited. *)
Definition walk_ended (r : ending exn * walk) : Prop :=
  NoDup (fetch_log r.2) ∧
  (r.1 = LoopDone → next_url r.2 = [] ∨ next_url r.2 ∈ seen_pages r.2).

Section FiniteSite.

(** The site serves pages at finitely many URLs. *)
Variable pages : gset str.
Hypothesis served : ∀ u page, get_page u = Ok page → u ∈ pages.

Lemma toc_loop_terminates (fuel : nat) (w : walk) :
  seen_pages w ⊆ pages → log_matches w →
  (size (pages ∖ seen_pages w) < fuel)%nat →
  ∃ r, toc_loop fuel w = Some r ∧ walk_ended r.
Proof using served.
  revert w. induction fuel as [|fuel IH]; intros w Hsub [Hnd Hlog] Hsize; [lia|].
  simpl. destruct (is_nil (next_url w)) eqn:Hnil.
  { exists (LoopDone, w). split; [reflexivity|]. split; [exact Hnd|].
    intros _. left. simpl. by destruct (next_url w). }
  destruct (bool_decide (next_url w ∈ seen_pages w)) eqn:Hseen.
  { apply bool_decide_eq_true in Hseen.
    exists (LoopDone, w). split; [reflexivity|]. split; [exact Hnd|].
    intros _. by right. }
  apply bool_decide_eq_false in Hseen.
  destruct (log_matches_step (next_url w) (fetch_log w) (seen_pages w))
    as [Hnd' Hlog']; [done..|].
  destruct (get_page (next_url w)) as [page|e] eqn:Hget.
  - apply served in Hget.
    apply IH.
    + rewrite visit_seen_pages. apply union_subseteq. split; [|done].
      by apply singleton_subseteq_l.
    + split; rewrite visit_fetch_log; [done|].
      intros u. rewrite visit_seen_pages. apply Hlog'.
    + rewrite visit_seen_pages.
      pose proof (unvisited_shrinks pages (seen_pages w) (next_url w) Hget Hseen).
      lia.
  - eexists. split; [reflexivity|]. split; [exact Hnd'|]. simpl. by intros [=].
Qed.

End FiniteSite.

Lemma toc_loop_more_fuel (fuel fuel' : nat) (w : walk) r :
  toc_loop fuel w = Some r → (fuel ≤ fuel')%nat → toc_loop fuel' w = Some r.
Proof.
  revert fuel' w. induction fuel as [|fuel IH]; intros fuel' w; [done|].
  destruct fuel' as [|fuel']; [lia|]. simpl.
  destruct (is_nil (next_url w)); [done|].
  destruct (bool_decide _); [done|].
  destruct (get_page (next_url w)); [|done].
  intros H ?. apply IH; [done|lia].
Qed.

(** C7: when the site serves pages at finitely many URLs, whatever their
    next links are, the walk ends within one test of the loop condition
    per such URL plus one; no URL is fetched twice, and the loop is left
    on a page without a next link or on a next URL already visited. *)
Theorem toc_walk_terminates (pages : gset str) (book_url : str) (fuel : nat) :
  (∀ u page, get_page u = Ok page → u ∈ pages) →
  (size pages < fuel)%nat →
  ∃ r, Toc.toc_walk exn get_page parse_toc_page urljoin remove_furigana fuel book_url
         = Some r ∧ walk_ended r.
Proof.
  intros Hserved Hfuel. unfold Toc.toc_walk.
  apply (toc_loop_terminates pages Hserved).
  - simpl. set_solver.
  - split; simpl; [apply NoDup_nil_2 | set_solver].
  - simpl. rewrite difference_empty_L. done.
Qed.

End WalkFacts.

(** Two pages whose next links point at each other: the text of a page is
    its next link. *)
Definition two_page_cycle (u : str) : result unit str :=
  if bool_decide (u = lit "A") then Ok (lit "B")
  else if bool_decide (u = lit "B") then Ok (lit "A")
  else Raise ().

Definition next_is_text (page : str) (_ : bool) : Toc.toc_page :=
  {| Toc.page_title := []; Toc.page_author := []; Toc.page_summary := [];
     Toc.items := []; Toc.page_next := page |}.

Lemma two_page_cycle_served (u page : str) :
  two_page_cycle u = Ok page → u ∈ ({[ lit "A"; lit "B" ]} : gset str).
Proof.
  unfold two_page_cycle. repeat case_bool_decide; subst; try done; set_solver.
Qed.

Lemma toc_walk_terminates_witness :
  ∃ r, Toc.toc_walk unit two_page_cycle next_is_text (λ _ href, href) false 3 (lit "A")
         = Some r ∧ walk_ended r.
Proof.
  apply (toc_walk_terminates two_page_cycle next_is_text (λ _ href, href) false
           {[ lit "A"; lit "B" ]} (lit "A") 3 two_page_cycle_served).
  rewrite size_union, !size_singleton; [lia|].
  apply disjoint_singleton_l. rewrite elem_of_singleton. by intros [=].
Defined.

Example toc_walk_two_page_cycle :
  (λ r, (r.1, Toc.fetch_log r.2, Toc.next_url r.2)) <$>
    Toc.toc_walk unit two_page_cycle next_is_text (λ _ href, href) false 3 (lit "A")
  = Some (Toc.LoopDone, [lit "A"; lit "B"], lit "A").
Proof. vm_compute. reflexivity. Qed.

(** ** The downloader keeps the order of its input *)

Lemma enumerate_lookup {A} (l : list A) (i : nat) :
  enumerate l !! i = pair i <$> l !! i.
Proof. unfold enumerate. apply list_lookup_imap. Qed.

Lemma elem_of_enumerate {A} (l : list A) (i : nat) (x : A) :
  (i, x) ∈ enumerate l ↔ l !! i = Some x.
Proof.
  rewrite list_elem_of_lookup. split.
  - intros [j Hj]. rewrite enumerate_lookup in Hj.
    destruct (l !! j) eqn:E; simplify_eq/=. done.
  - intros Hi. exists i. rewrite enumerate_lookup, Hi. done.
Qed.

Lemma enumerate_fst {A} (l : list A) : (enumerate l).*1 = seq 0 (length l).
Proof.
  apply list_eq. intros i. rewrite list_lookup_fmap, enumerate_lookup.
  destruct (l !! i) eqn:E; simpl.
  - symmetry. apply lookup_seq. split; [done|]. by eapply lookup_lt_Some.
  - symmetry. apply lookup_seq_ge. by apply lookup_ge_None.
Qed.

Lemma enumerate_snd {A} (l : list A) : (enumerate l).*2 = l.
Proof.
  apply list_eq. intros i. rewrite list_lookup_fmap, enumerate_lookup.
  by destruct (l !! i).
Qed.

Section DownloadFacts.

Import Download.

Context {exn : Type}.
Variable get_page : nat → str → result exn str.
Variable parse_chapter_page : str → bool → str * list str.
Variable remove_furigana : bool.

Local Abbreviation make_chapter := (Download.make_chapter parse_chapter_page).
Local Abbreviation sequential :=
  (Download.sequential exn get_page parse_chapter_page).
Local Abbreviation collect := (Download.collect exn get_page parse_chapter_page).
Local Abbreviation chapter_of :=
  (Download.chapter_of exn get_page parse_chapter_page remove_furigana).
Local Abbreviation downloaded :=
  (Download.downloaded exn get_page parse_chapter_page remove_furigana).
Local Abbreviation download_chapters :=
  (Download.download_chapters exn get_page parse_chapter_page).

Implicit Types (items completed : list (nat * str)) (links : list str).
Implicit Types (results : list (option Chapter)) (chapters : list Chapter).

Lemma make_chapter_url idx url page : ch_url (make_chapter idx url page remove_furigana) = url.
Proof. unfold Download.make_chapter. by destruct (parse_chapter_page _ _). Qed.

Lemma chapter_of_url item c : chapter_of item = Some c → ch_url c = item.2.
Proof.
  unfold Download.chapter_of. destruct (get_page _ _); intros [= <-].
  apply make_chapter_url.
Qed.

(** *** The sequential path *)

Lemma sequential_skip items chapters :
  sequential true remove_furigana items chapters
  = Ok (chapters ++ omap chapter_of items).
Proof.
  revert chapters. induction items as [|[i url] items IH]; intros chapters; simpl.
  - by rewrite app_nil_r.
  - unfold Download.chapter_of; simpl. destruct (get_page i url); simpl.
    + rewrite IH. by rewrite <- app_assoc.
    + apply IH.
Qed.

Lemma sequential_fail_fast items chapters chs :
  sequential false remove_furigana items chapters = Ok chs →
  chs = chapters ++ omap chapter_of items
  ∧ Forall (λ item, is_Some (chapter_of item)) items.
Proof.
  revert chapters chs.
  induction items as [|[i url] items IH]; intros chapters chs; simpl.
  - intros [= <-]. by rewrite app_nil_r.
  - assert (chapter_of (i, url)
            = match get_page i url with
              | Ok html_page => Some (make_chapter (i + 1) url html_page remove_furigana)
              | Raise _ => None
              end) as Hof by reflexivity.
    rewrite Hof. destruct (get_page i url); simpl; [|done].
    intros H. apply IH in H as [-> Hall]. rewrite <- app_assoc. split; [done|].
    constructor; [|done]. rewrite Hof. by eexists.
Qed.

(** *** The concurrent path *)

(** What the completion of one future does to [results]. *)
Definition store results (item : nat * str) : list (option Chapter) :=
  match chapter_of item with
  | Some chapter => <[item.1 := Some chapter]> results
  | None => results
  end.

Lemma collect_skip completed results errors :
  ∃ errors', collect true remove_furigana completed results errors
             = Ok (foldl store results completed, errors').
Proof.
  revert results errors.
  induction completed as [|[i url] completed IH]; intros results errors; simpl.
  - by eexists.
  - unfold store at 2, Download.fetch_one, Download.chapter_of; simpl.
    destruct (get_page i url); simpl; apply IH.
Qed.

Lemma collect_fail_fast completed results errors results' errors' :
  collect false remove_furigana completed results errors = Ok (results', errors') →
  results' = foldl store results completed
  ∧ Forall (λ item, is_Some (chapter_of item)) completed.
Proof.
  revert results errors.
  induction completed as [|[i url] completed IH]; intros results errors; simpl.
  - by intros [= <- <-].
  - assert (chapter_of (i, url)
            = match get_page i url with
              | Ok html_page => Some (make_chapter (i + 1) url html_page remove_furigana)
              | Raise _ => None
              end) as Hof by reflexivity.
    unfold store at 2, Download.fetch_one. rewrite Hof.
    destruct (get_page i url); simpl; [|done].
    intros H. apply IH in H as [-> Hall]. split; [done|].
    constructor; [|done]. rewrite Hof. by eexists.
Qed.

Lemma store_length results item : length (store results item) = length results.
Proof. unfold store. destruct (chapter_of item); [apply length_insert|done]. Qed.

Lemma foldl_store_length completed results :
  length (foldl store results completed) = length results.
Proof.
  revert results. induction completed as [|item completed IH]; intros results; simpl; [done|].
  by rewrite IH, store_length.
Qed.

(** A slot no completed future owns is left alone. *)
Lemma foldl_store_other completed results (j : nat) :
  j ∉ completed.*1 → foldl store results completed !! j = results !! j.
Proof.
  revert results. induction completed as [|[i url] completed IH]; intros results; simpl; [done|].
  intros Hj. apply not_elem_of_cons in Hj as [Hne Hj].
  rewrite IH by done. unfold store; simpl.
  destruct (chapter_of (i, url)); [|done].
  by apply list_lookup_insert_ne.
Qed.

(** The slot of a completed future holds its chapter, if it has one. *)
Lemma foldl_store_own completed results (j : nat) (url : str) :
  NoDup completed.*1 → (j, url) ∈ completed → (j < length results)%nat →
  foldl store results completed !! j
  = match chapter_of (j, url) with
    | Some chapter => Some (Some chapter)
    | None => results !! j
    end.
Proof.
  revert results.
  induction completed as [|[i url'] completed IH]; intros results Hnd Hin Hlen; simpl.
  - by apply elem_of_nil in Hin.
  - apply NoDup_cons in Hnd as [Hi Hnd].
    apply elem_of_cons in Hin as [[= <- <-]|Hin].
    + rewrite foldl_store_other by done. unfold store; simpl.
      destruct (chapter_of (j, url)); [|done].
      by apply list_lookup_insert_eq.
    + assert (i ≠ j) as Hne.
      { intros ->. apply Hi. apply list_elem_of_fmap. by exists (j, url). }
      rewrite IH; [|done..|by rewrite store_length].
      destruct (chapter_of (j, url)); [done|].
      unfold store; simpl. destruct (chapter_of (i, url')); [|done].
      by apply list_lookup_insert_ne.
Qed.

(** Once every future has completed, in whatever order, the slots hold
    the chapters of the items in the order of [links]. *)
Lemma foldl_store_complete links completed :
  completed ≡ₚ enumerate links →
  foldl store (replicate (length links) None) completed
  = chapter_of <$> enumerate links.
Proof.
  intros Hperm. apply list_eq. intros j.
  rewrite list_lookup_fmap, enumerate_lookup.
  destruct (links !! j) as [url|] eqn:Hj; simpl.
  - assert (j < length links)%nat as Hlt by by eapply lookup_lt_Some.
    rewrite (foldl_store_own _ _ j url).
    + destruct (chapter_of (j, url)); [done|].
      by rewrite lookup_replicate_2.
    + rewrite Hperm, enumerate_fst. apply NoDup_seq.
    + rewrite Hperm. by apply elem_of_enumerate.
    + by rewrite length_replicate.
  - apply lookup_ge_None. rewrite foldl_store_length, length_replicate.
    by apply lookup_ge_None.
Qed.

Lemma omap_id_fmap {A B} (f : A → option B) (l : list A) :
  omap id (f <$> l) = omap f l.
Proof. induction l as [|x l IH]; csimpl; [done|]. rewrite IH. by destruct (f x). Qed.

(** *** Order *)

Lemma downloaded_sublist links : ch_url <$> downloaded links `sublist_of` links.
Proof.
  unfold Download.downloaded. rewrite <- (enumerate_snd links) at 2.
  induction (enumerate links) as [|item items IH]; csimpl; [done|].
  destruct (chapter_of item) as [c|] eqn:Hc; csimpl.
  - rewrite (chapter_of_url _ _ Hc). by apply sublist_skip.
  - by apply sublist_cons.
Qed.

Lemma all_downloaded_urls items :
  Forall (λ item, is_Some (chapter_of item)) items →
  ch_url <$> omap chapter_of items = items.*2.
Proof.
  induction 1 as [|item items [c Hc] _ IH]; csimpl; [done|].
  rewrite Hc; csimpl. by rewrite IH, (chapter_of_url _ _ Hc).
Qed.

(** C3: whatever the order [completed] in which the futures complete,
    [download_chapters] in skip-errors mode returns the chapters of the
    items that download, in the order of [links], a subsequence of
    [links] by URL with no placeholder for a failed item; and when it
    returns in fail-fast mode the chapters stand at the positions of
    their links. *)
Theorem download_chapters_keeps_order links (jobs : Z) completed :
  completed ≡ₚ enumerate links →
  download_chapters links jobs true remove_furigana completed = Ok (downloaded links)
  ∧ ch_url <$> downloaded links `sublist_of` links
  ∧ ∀ chs, download_chapters links jobs false remove_furigana completed = Ok chs →
           chs = downloaded links ∧ ch_url <$> chs = links.
Proof.
  intros Hperm. unfold Download.download_chapters. split; [|split].
  - destruct (_ || _).
    + by rewrite sequential_skip.
    + destruct (collect_skip completed (replicate (length links) None) [])
        as [errors' ->].
      by rewrite (foldl_store_complete _ _ Hperm), omap_id_fmap.
  - apply downloaded_sublist.
  - intros chs. destruct (_ || _).
    + intros H. apply sequential_fail_fast in H as [-> Hall]. split; [done|].
      simpl. by rewrite (all_downloaded_urls _ Hall), enumerate_snd.
    + destruct (collect _ _ _ _ _) as [[results errors]|] eqn:Hc; [|done].
      intros [= <-]. apply collect_fail_fast in Hc as [-> Hall].
      rewrite (foldl_store_complete _ _ Hperm), omap_id_fmap. split; [done|].
      rewrite all_downloaded_urls, enumerate_snd; [done|]. by rewrite <- Hperm.
Qed.

End DownloadFacts.

(** Five items of which the second fails, completing in the order
    D, B, E, A, C; the text of a page is its title. *)
Definition five_links : list str := [lit "A"; lit "B"; lit "C"; lit "D"; lit "E"].

Definition all_but_B (i : nat) (url : str) : result unit str :=
  if bool_decide (url = lit "B") then Raise () else Ok url.

Definition title_is_text (page : str) (_ : bool) : str * list str := (page, []).

Definition completion_DBEAC : list (nat * str) :=
  [(3, lit "D"); (1, lit "B"); (4, lit "E"); (0, lit "A"); (2, lit "C")]%nat.

Lemma completion_DBEAC_perm : completion_DBEAC ≡ₚ enumerate five_links.
Proof. apply (bool_decide_unpack _). by vm_compute. Qed.

Lemma download_chapters_keeps_order_witness :
  completion_DBEAC ≡ₚ enumerate five_links ∧
  Download.download_chapters unit all_but_B title_is_text five_links 3 true false
    completion_DBEAC
  = Ok (Download.downloaded unit all_but_B title_is_text false five_links).
Proof.
  split; [exact completion_DBEAC_perm|].
  exact (proj1 (download_chapters_keeps_order all_but_B title_is_text false
                  five_links 3 completion_DBEAC completion_DBEAC_perm)).
Defined.

Example download_five_skip_errors :
  ch_url <$> Download.downloaded unit all_but_B title_is_text false five_links
  = [lit "A"; lit "C"; lit "D"; lit "E"].
Proof. reflexivity. Qed.

(** ** Separators and the blank paragraphs around them *)

Lemma drop_while_cons_head {A} (p : A → bool) (l : list A) (x : A) (l' : list A) :
  drop_while p l = x :: l' → p x = false.
Proof. intros H. apply (drop_while_head p l). by rewrite H. Qed.

Lemma is_nil_reverse {A} (l : list A) : is_nil (reverse l) = is_nil l.
Proof. destruct l as [|x l]; [done|]. rewrite reverse_cons. by destruct (reverse l). Qed.

Lemma pop_while_reverse {A} (p : A → bool) (l : list A) :
  pop_while p (reverse l) = reverse (drop_while p l).
Proof. unfold pop_while. by rewrite reverse_involutive. Qed.

Section SeparatorFacts.

Variable unescape : str → str.

Local Abbreviation blank := (is_blank_para unescape).
Local Abbreviation spacing_loop := (spacing_loop unescape).

Lemma blank_empty : blank [] = true.
Proof. reflexivity. Qed.

Lemma blank_separator : blank MARK_SEPARATOR = false.
Proof. by vm_compute. Qed.

Lemma separator_nonempty : MARK_SEPARATOR ≠ [].
Proof. done. Qed.

(** What stands on one side of a separator, read away from it: nothing,
    or one empty paragraph and then a paragraph that is not blank. *)
Definition side_ok (side : list str) : Prop :=
  match side with
  | [] => True
  | e :: x :: _ => e = [] ∧ blank x = false
  | [_] => False
  end.

(** Every separator of [l] has such sides. *)
Definition separators_flanked (l : list str) : Prop :=
  ∀ pre post, l = pre ++ MARK_SEPARATOR :: post →
    side_ok (reverse pre) ∧ side_ok post.

(** *** The loop, on the reversed output *)

Lemma spacing_loop_other (para : str) (rest racc : list str) :
  para ≠ MARK_SEPARATOR →
  spacing_loop (para :: rest) (reverse racc)
  = spacing_loop rest (reverse (para :: racc)).
Proof.
  intros Hne. simp spacing_loop.
  rewrite bool_decide_eq_false_2 by done. simpl. by rewrite reverse_cons.
Qed.

(** The reversed output after a separator has been handled. *)
Definition after_separator (rest racc : list str) : list str :=
  let r1 := drop_while blank racc in
  let r2 := if is_nil r1 then r1 else [] :: r1 in
  let r3 := MARK_SEPARATOR :: r2 in
  if is_nil (drop_while blank rest) then r3 else [] :: r3.

Lemma spacing_loop_separator (rest racc : list str) :
  spacing_loop (MARK_SEPARATOR :: rest) (reverse racc)
  = spacing_loop (drop_while blank rest) (reverse (after_separator rest racc)).
Proof.
  simp spacing_loop. rewrite bool_decide_eq_true_2 by done. simpl.
  f_equal. unfold after_separator. rewrite pop_while_reverse, is_nil_reverse.
  destruct (is_nil (drop_while blank racc));
    destruct (is_nil (drop_while blank rest));
    by rewrite ?reverse_cons.
Qed.

(** *** The invariant of the loop *)

(** [x] may be appended to the output whose reverse is [r]: right after a
    separator only an empty paragraph, and after that empty paragraph
    only a paragraph that is not blank. *)
Definition may_follow (x : str) (r : list str) : Prop :=
  (∀ r', r = MARK_SEPARATOR :: r' → x = [])
  ∧ (∀ e r', r = e :: MARK_SEPARATOR :: r' → blank x = false).

Fixpoint well_spaced (racc : list str) : Prop :=
  match racc with
  | [] => True
  | x :: r => (x = MARK_SEPARATOR → side_ok r) ∧ may_follow x r ∧ well_spaced r
  end.

(** The reversed output [racc] and the paragraphs [rest] still to read. *)
Definition loop_inv (racc rest : list str) : Prop :=
  well_spaced racc
  ∧ (∀ r, racc = MARK_SEPARATOR :: r → rest = [])
  ∧ (∀ e r, racc = e :: MARK_SEPARATOR :: r →
       ∃ x rest', rest = x :: rest' ∧ blank x = false).

(** The output is complete: it does not end with a separator and one
    more paragraph. *)
Definition settled (racc : list str) : Prop :=
  ∀ e r, racc ≠ e :: MARK_SEPARATOR :: r.

Lemma well_spaced_drop_while (racc : list str) :
  well_spaced racc → well_spaced (drop_while blank racc).
Proof.
  induction racc as [|x r IH]; simpl; [done|].
  intros (? & ? & ?). destruct (blank x); simpl; auto.
Qed.

Local Ltac inv_auto :=
  repeat (split || intro); simplify_eq/=;
  eauto using blank_separator, blank_empty.

Lemma loop_inv_other (para : str) (rest racc : list str) :
  para ≠ MARK_SEPARATOR → loop_inv racc (para :: rest) →
  loop_inv (para :: racc) rest.
Proof.
  intros Hne (Hwf & Hsep & Hpend). split; [|split].
  - split; [done|]. split; [|done]. split.
    + intros r' ->. by specialize (Hsep _ eq_refl).
    + intros e r' ->.
      by destruct (Hpend _ _ eq_refl) as (x & rest' & [= <- <-] & Hx).
  - by intros r [= ? ?].
  - intros e r [= -> ->]. by specialize (Hsep _ eq_refl).
Qed.

Lemma loop_inv_separator (rest racc : list str) :
  well_spaced racc →
  loop_inv (after_separator rest racc) (drop_while blank rest).
Proof.
  intros Hwf. apply well_spaced_drop_while in Hwf.
  unfold after_separator.
  destruct (drop_while blank racc) as [|y r1] eqn:Hr1; simpl.
  - (* the separator opens the output *)
    destruct (drop_while blank rest) as [|x rest''] eqn:Hrest; simpl.
    + inv_auto.
    + apply drop_while_cons_head in Hrest. inv_auto.
  - apply drop_while_cons_head in Hr1 as Hy.
    assert (well_spaced ([] :: y :: r1)) as Hwf2.
    { destruct Hwf as (Hs & [Hf1 Hf2] & Hwf). split; [by intros [= ?]|].
      split; [|by repeat split]. split; [done|].
      intros e r' [= -> ->]. specialize (Hf1 _ eq_refl). subst e.
      by rewrite blank_empty in Hy. }
    assert (well_spaced (MARK_SEPARATOR :: [] :: y :: r1)) as Hwf3.
    { split; [|split]; [| |exact Hwf2].
      - intros _. simpl. done.
      - split; [by intros r' [= ?]|]. intros e r' [= ? ?]. apply blank_separator. }
    destruct (drop_while blank rest) as [|x rest''] eqn:Hrest; simpl.
    + split; [exact Hwf3|]. split; [done|]. by intros e r [= ? ?].
    + apply drop_while_cons_head in Hrest.
      split; [|split].
      * split; [by intros [= ?]|]. split; [|exact Hwf3].
        split; [done|]. by intros e r' [= ? ?].
      * by intros r [= ?].
      * intros e r [= ? ?]. eauto.
Qed.

(** The loop returns a well-spaced, settled output. *)
Lemma spacing_loop_well_spaced (rest racc : list str) :
  loop_inv racc rest →
  ∃ R, spacing_loop rest (reverse racc) = reverse R ∧ well_spaced R ∧ settled R.
Proof.
  remember (length rest) as n eqn:Hn. revert rest racc Hn.
  induction n as [n IH] using lt_wf_ind. intros rest racc -> Hinv.
  destruct rest as [|para rest].
  - exists racc. simp spacing_loop. destruct Hinv as (Hwf & _ & Hpend).
    repeat split; [done|]. intros e r ->.
    by destruct (Hpend _ _ eq_refl) as (? & ? & ? & _).
  - destruct (decide (para = MARK_SEPARATOR)) as [->|Hne].
    + rewrite spacing_loop_separator.
      eapply IH; [|reflexivity|apply loop_inv_separator, Hinv].
      pose proof (drop_while_length blank rest). simpl. lia.
    + rewrite spacing_loop_other by done.
      eapply IH; [|reflexivity|by apply loop_inv_other].
      simpl. lia.
Qed.

(** *** From the invariant to the sides of each separator *)

Lemma well_spaced_around (a b : list str) :
  well_spaced (a ++ MARK_SEPARATOR :: b) →
  side_ok b ∧ (a = [] ∨ a = [[]] ∨ ∃ a' y, a = a' ++ [y; []] ∧ blank y = false).
Proof.
  induction a as [|x a IH]; simpl.
  - intros (Hs & _ & _). auto.
  - intros (_ & [Hf1 Hf2] & Hwf). destruct (IH Hwf) as [Hb Ha]. split; [done|].
    destruct Ha as [->|[->|(a' & y & -> & Hy)]].
    + right; left. by rewrite (Hf1 _ eq_refl).
    + right; right. exists [], x. split; [done|]. by eapply Hf2.
    + right; right. exists (x :: a'), y. done.
Qed.

Lemma well_spaced_flanked (R : list str) :
  well_spaced R → settled R → separators_flanked (reverse R).
Proof.
  intros Hwf Hset pre post Heq.
  assert (R = reverse post ++ MARK_SEPARATOR :: reverse pre) as ->.
  { apply (inj reverse). rewrite Heq, reverse_app, reverse_cons, !reverse_involutive.
    by rewrite <- app_assoc. }
  destruct (well_spaced_around _ _ Hwf) as [Hb Ha]. split; [done|].
  destruct Ha as [Ha|[Ha|(a' & y & Ha & Hy)]].
  - apply (f_equal reverse) in Ha. rewrite reverse_involutive in Ha. by subst.
  - rewrite Ha in Hset. by specialize (Hset [] (reverse pre)).
  - apply (f_equal reverse) in Ha.
    rewrite reverse_involutive, reverse_app in Ha. subst post. simpl.
    done.
Qed.

Lemma spacing_loop_flanked (paragraphs : list str) :
  separators_flanked (spacing_loop paragraphs []).
Proof.
  destruct (spacing_loop_well_spaced paragraphs []) as (R & HR & Hwf & Hset).
  - split; [done|]. split; [done|]. by intros e r ?.
  - change (@nil str) with (reverse (@nil str)). rewrite HR.
    by apply well_spaced_flanked.
Qed.

Lemma normalize_separator_spacing_flanked (paragraphs : list str) :
  separators_flanked (normalize_separator_spacing unescape paragraphs).
Proof.
  unfold normalize_separator_spacing.
  destruct paragraphs as [|p ps]; simpl.
  - intros pre post H. by destruct pre.
  - apply spacing_loop_flanked.
Qed.

(** *** A flanked list is left as it is *)

Lemma spacing_loop_fixed (rest racc : list str) :
  separators_flanked (reverse racc ++ rest) →
  spacing_loop rest (reverse racc) = reverse racc ++ rest.
Proof.
  remember (length rest) as n eqn:Hn. revert rest racc Hn.
  induction n as [n IH] using lt_wf_ind. intros rest racc -> Hfl.
  destruct rest as [|para rest].
  - simp spacing_loop. by rewrite app_nil_r.
  - destruct (decide (para = MARK_SEPARATOR)) as [->|Hne].
    + destruct (Hfl (reverse racc) rest eq_refl) as [Hpre Hpost].
      rewrite reverse_involutive in Hpre.
      rewrite spacing_loop_separator. unfold after_separator.
      assert ((if is_nil (drop_while blank racc) then drop_while blank racc
               else [] :: drop_while blank racc) = racc) as ->.
      { destruct racc as [|e [|x racc]]; simpl in *; [done|done|].
        destruct Hpre as [-> Hx]. rewrite blank_empty. simpl. by rewrite Hx. }
      destruct rest as [|e [|x rest]]; simpl in *; [|done|].
      * simp spacing_loop. by rewrite reverse_cons.
      * destruct Hpost as [-> Hx]. rewrite blank_empty. simpl. rewrite Hx. simpl.
        rewrite (IH (length (x :: rest))); [| simpl; lia | done |].
        -- rewrite !reverse_cons. by rewrite <- !app_assoc.
        -- rewrite !reverse_cons, <- !app_assoc. exact Hfl.
    + rewrite spacing_loop_other by done.
      rewrite (IH (length rest)); [| simpl; lia | done |].
      * rewrite reverse_cons. by rewrite <- app_assoc.
      * rewrite reverse_cons, <- app_assoc. exact Hfl.
Qed.

Lemma normalize_separator_spacing_fixed (l : list str) :
  separators_flanked l → normalize_separator_spacing unescape l = l.
Proof.
  intros Hfl. unfold normalize_separator_spacing.
  destruct (is_nil l); [done|].
  change (@nil str) with (reverse (@nil str)). by apply spacing_loop_fixed.
Qed.

(** C4, as the code has it: in the output of [normalize_separator_spacing],
    and so of [apply_separator_handling], a separator that is not the first
    paragraph is preceded by exactly one empty paragraph, before which
    stands a paragraph that is not blank; a separator that is not the
    last paragraph is followed by exactly one empty paragraph, after
    which stands a paragraph that is not blank.  At the start and at the
    end of the output no blank is put next to the separator. *)
Theorem separators_flanked_by_one_blank (paragraphs : list str) :
  separators_flanked (normalize_separator_spacing unescape paragraphs)
  ∧ separators_flanked (apply_separator_handling unescape paragraphs).
Proof.
  split; [apply normalize_separator_spacing_flanked|].
  unfold apply_separator_handling. destruct (is_nil paragraphs) eqn:Hnil.
  - destruct paragraphs; [|done]. intros pre post H. by destruct pre.
  - apply normalize_separator_spacing_flanked.
Qed.

(** C9: [normalize_separator_spacing] is idempotent: applied to its own
    output, for any paragraph list, it returns that output unchanged. *)
Theorem normalize_separator_spacing_idempotent (ps : list str) :
  normalize_separator_spacing unescape (normalize_separator_spacing unescape ps)
  = normalize_separator_spacing unescape ps.
Proof.
  apply normalize_separator_spacing_fixed, normalize_separator_spacing_flanked.
Qed.

(** C4 as the specification words it: a blank on each side of every
    separator, wherever the separator stands. *)
Definition one_blank (side : list str) : Prop :=
  match side with
  | e :: rest =>
      e = [] ∧ match rest with [] => True | x :: _ => blank x = false end
  | [] => False
  end.

Definition separators_surrounded (l : list str) : Prop :=
  ∀ pre post, l = pre ++ MARK_SEPARATOR :: post →
    one_blank (reverse pre) ∧ one_blank post.

End SeparatorFacts.

(** A separator between two empty paragraphs and nothing else: the blank
    runs before and after it are dropped, not collapsed to one blank, and
    the output is the separator alone. *)
Lemma separator_alone_has_no_blank :
  normalize_separator_spacing id [[]; MARK_SEPARATOR; []] = [MARK_SEPARATOR]
  ∧ apply_separator_handling id [[]; lit "----"; []] = [MARK_SEPARATOR]
  ∧ ¬ separators_surrounded id
        (normalize_separator_spacing id [[]; MARK_SEPARATOR; []]).
Proof.
  split; [by vm_compute|]. split; [by vm_compute|].
  replace (normalize_separator_spacing id [[]; MARK_SEPARATOR; []])
    with [MARK_SEPARATOR] by by vm_compute.
  intros H. destruct (H [] [] eq_refl) as [[] _].
Qed.

Example separator_spacing_example :
  normalize_separator_spacing id
    [lit "a"; lit " "; []; MARK_SEPARATOR; []; lit "<br />"; MARK_SEPARATOR; lit "b";
     MARK_SEPARATOR]
  = [lit "a"; []; MARK_SEPARATOR; []; MARK_SEPARATOR; []; lit "b"; []; MARK_SEPARATOR].
Proof. by vm_compute. Qed.

(** ** The punctuation pass *)

Lemma starts_with_chars (p s : str) (c : char) :
  starts_with p s = true → c ∈ p → c ∈ s.
Proof.
  revert s. induction p as [|a p IH]; intros s Hs Hc; [by apply elem_of_nil in Hc|].
  destruct s as [|b s]; [done|]. simpl in Hs.
  apply andb_true_iff in Hs as [Hab Hs]. apply N.eqb_eq in Hab as ->.
  apply elem_of_cons in Hc as [->|Hc]; [left|right; eauto].
Qed.

(** A substring brings its characters along. *)
Lemma contains_chars (p s : str) (c : char) :
  contains p s = true → c ∈ p → c ∈ s.
Proof.
  induction s as [|b s IH]; simpl; intros Hs Hc.
  - rewrite orb_false_r in Hs. by eapply starts_with_chars.
  - apply orb_true_iff in Hs as [Hs|Hs]; [by eapply starts_with_chars|].
    right. by apply IH.
Qed.

Lemma no_colon_no_url (s : str) :
  chr ":" ∉ s →
  contains (lit "http://") s = false ∧ contains (lit "https://") s = false.
Proof.
  intros Hs. split; apply not_true_is_false; intros H; apply Hs;
    (eapply contains_chars; [exact H|]); by apply (bool_decide_unpack _).
Qed.

(** The image of a character other than the period: the [dict.get]
    cascade of the loop. *)
Definition fullwidth_of (ch : char) : char :=
  match dict_get _JP_PUNCT_MAP ch with
  | Some mapped => mapped
  | None =>
      match dict_get _JP_DIGIT_MAP ch with
      | Some mapped => mapped
      | None => ch
      end
  end.

(** The ASCII digits, the keys of [_JP_DIGIT_MAP]. *)
Definition is_ascii_digit (c : char) : bool := (48 <=? c) && (c <=? 57).

(** Case analysis on a character against the keys of the two tables. *)
Ltac key_cases c :=
  cbv [fullwidth_of _JP_TEXT_TRANSLATION dict_get _JP_PUNCT_MAP _JP_DIGIT_MAP
       app default chr dquote N_of_ascii N_of_digits fst snd];
  simpl;
  repeat match goal with
         | |- context [N.eqb c ?k] => destruct (N.eqb_spec c k); [subst c|]
         end.

Lemma translation_table_fullwidth (c : char) :
  _JP_TEXT_TRANSLATION c = fullwidth_of c.
Proof. key_cases c; reflexivity. Qed.

Lemma fullwidth_of_idem (c : char) : fullwidth_of (fullwidth_of c) = fullwidth_of c.
Proof.
  assert (∀ d, fullwidth_of c = d → fullwidth_of d = d) as H; [|by apply H].
  key_cases c; intros d <-; try reflexivity.
  key_cases c; try reflexivity; congruence.
Qed.

Lemma fullwidth_of_not_colon (c : char) : fullwidth_of c ≠ chr ":".
Proof. key_cases c; try done. Qed.

Lemma fullwidth_of_not_period (c : char) : c ≠ chr "." → fullwidth_of c ≠ chr ".".
Proof. intros Hc. key_cases c; try done. Qed.

Lemma fullwidth_of_ascii_digit (c : char) :
  is_ascii_digit c = true → fullwidth_of c = c + 65248.
Proof.
  unfold is_ascii_digit. intros H. apply andb_true_iff in H as [H1 H2].
  apply N.leb_le in H1, H2. key_cases c; try reflexivity; try lia.
Qed.

(** What the proofs need of Python's digit table: the keys of
    [_JP_PUNCT_MAP] are not digits, and the keys and the values of
    [_JP_DIGIT_MAP] are. *)
Definition punct_not_digit (isdigit : char → bool) : Prop :=
  forallb (λ kv, negb (isdigit kv.1)) _JP_PUNCT_MAP = true.
Definition ascii_digits_digit (isdigit : char → bool) : Prop :=
  forallb (λ kv, isdigit kv.1) _JP_DIGIT_MAP = true.
Definition fullwidth_digits_digit (isdigit : char → bool) : Prop :=
  forallb (λ kv, isdigit kv.2) _JP_DIGIT_MAP = true.

Ltac split_table H :=
  cbv [punct_not_digit ascii_digits_digit fullwidth_digits_digit forallb
       _JP_PUNCT_MAP _JP_DIGIT_MAP fst snd chr dquote N_of_ascii N_of_digits] in H;
  simpl in H;
  repeat match type of H with
         | (_ && _ = true) =>
             let H1 := fresh "Hk" in apply andb_prop in H as [H1 H];
             try apply negb_true_iff in H1
         end.

Section NormalizerFacts.

Variable isdigit : char → bool.

Local Abbreviation translate := (translate_japanese_punct isdigit).
Local Abbreviation normalize := (normalize_japanese_punct isdigit).

Lemma period_not_digit : punct_not_digit isdigit → isdigit (chr ".") = false.
Proof. intros H. split_table H. assumption. Qed.

Lemma fullwidth_of_digit (c : char) :
  punct_not_digit isdigit → fullwidth_digits_digit isdigit →
  isdigit c = true → isdigit (fullwidth_of c) = true.
Proof.
  intros Hp Hf Hc. split_table Hp. split_table Hf.
  key_cases c; try assumption;
    match goal with
    | H1 : isdigit ?k = true, H2 : isdigit ?k = false |- _ =>
        rewrite H1 in H2; discriminate H2
    end.
Qed.

Lemma ascii_digit_digit (c : char) :
  ascii_digits_digit isdigit → is_ascii_digit c = true → isdigit c = true.
Proof.
  intros Ha H. split_table Ha. unfold is_ascii_digit in H.
  apply andb_true_iff in H as [H1 H2]. apply N.leb_le in H1, H2.
  assert (c = 48 ∨ c = 49 ∨ c = 50 ∨ c = 51 ∨ c = 52 ∨ c = 53 ∨ c = 54
          ∨ c = 55 ∨ c = 56 ∨ c = 57) as Hc by lia.
  repeat destruct Hc as [->|Hc]; try assumption. by subst c.
Qed.

Lemma translate_at_period (text : str) (i : nat) :
  translate_at isdigit text i (chr ".")
  = if opt_isdigit isdigit (if (0 <? i)%nat then text !! (i - 1)%nat else None)
       && opt_isdigit isdigit
            (if (i + 1 <? length text)%nat then text !! (i + 1)%nat else None)
    then chr "." else 65294.
Proof. reflexivity. Qed.

Lemma translate_at_other (text : str) (i : nat) (ch : char) :
  ch ≠ chr "." → translate_at isdigit text i ch = fullwidth_of ch.
Proof.
  intros Hne. unfold translate_at. apply N.eqb_neq in Hne. by rewrite Hne.
Qed.

Lemma char_in_false (c : char) (s : str) : char_in c s = false → c ∉ s.
Proof.
  unfold char_in. induction s as [|b s IH]; simpl; intros H; [apply not_elem_of_nil|].
  apply orb_false_iff in H as [Hb Hs]. apply N.eqb_neq in Hb.
  apply not_elem_of_cons. auto.
Qed.

(** Both branches of [translate_japanese_punct] compute the loop. *)
Lemma translate_imap (text : str) :
  translate text = imap (translate_at isdigit text) text.
Proof.
  unfold translate_japanese_punct.
  destruct (char_in (chr ".") text) eqn:Hdot; simpl; [done|].
  apply char_in_false in Hdot.
  rewrite <- imap_const. apply imap_ext. intros i ch Hi. simpl.
  rewrite translation_table_fullwidth, translate_at_other; [done|].
  intros ->. apply Hdot. by eapply list_elem_of_lookup_2.
Qed.

Lemma translate_lookup (text : str) (i : nat) :
  translate text !! i = translate_at isdigit text i <$> text !! i.
Proof. rewrite translate_imap. apply list_lookup_imap. Qed.

Lemma translate_length (text : str) : length (translate text) = length text.
Proof. rewrite translate_imap. apply length_imap. Qed.

Lemma translate_at_not_colon (text : str) (i : nat) (ch : char) :
  translate_at isdigit text i ch ≠ chr ":".
Proof.
  destruct (decide (ch = chr ".")) as [->|Hne].
  - rewrite translate_at_period. by destruct (_ && _).
  - rewrite translate_at_other by done. apply fullwidth_of_not_colon.
Qed.

Lemma translate_no_colon (text : str) : chr ":" ∉ translate text.
Proof.
  intros Hin. apply list_elem_of_lookup in Hin as [i Hi].
  rewrite translate_lookup in Hi. destruct (text !! i) as [ch|]; [|done].
  injection Hi as Hi. by apply translate_at_not_colon in Hi.
Qed.

Section Idempotence.

Hypothesis Hpunct : punct_not_digit isdigit.
Hypothesis Hfull : fullwidth_digits_digit isdigit.

(** A digit next to a period is still a digit after the pass. *)
Lemma translate_keeps_digit (text : str) (j : nat) :
  opt_isdigit isdigit (text !! j) = true →
  opt_isdigit isdigit (translate text !! j) = true.
Proof using Hpunct Hfull.
  rewrite translate_lookup. destruct (text !! j) as [p|]; simpl; [|done].
  intros Hp. rewrite translate_at_other.
  - by apply fullwidth_of_digit.
  - intros ->. by rewrite period_not_digit in Hp.
Qed.

Lemma translate_at_fixed (text : str) (i : nat) (ch : char) :
  text !! i = Some ch →
  translate_at isdigit (translate text) i (translate_at isdigit text i ch)
  = translate_at isdigit text i ch.
Proof using Hpunct Hfull.
  intros Hi. destruct (decide (ch = chr ".")) as [->|Hne].
  - rewrite (translate_at_period text).
    destruct (opt_isdigit isdigit _ && opt_isdigit isdigit _) eqn:Hfl.
    + apply andb_true_iff in Hfl as [Hprev Hnext].
      rewrite translate_at_period, translate_length.
      destruct (0 <? i)%nat; [|done]. destruct (i + 1 <? length text)%nat; [|done].
      by rewrite !translate_keeps_digit.
    + by rewrite translate_at_other.
  - rewrite (translate_at_other text) by done.
    rewrite translate_at_other by by apply fullwidth_of_not_period.
    apply fullwidth_of_idem.
Qed.

Lemma translate_idempotent (text : str) :
  translate (translate text) = translate text.
Proof using Hpunct Hfull.
  apply list_eq. intros i. rewrite translate_lookup.
  rewrite !(translate_lookup text). destruct (text !! i) as [ch|] eqn:Hi; [|done].
  cbn. by rewrite translate_at_fixed.
Qed.

Lemma normalize_without_url (text : str) :
  contains (lit "http://") text = false → contains (lit "https://") text = false →
  normalize text = if bool_decide (text = []) then text else translate text.
Proof.
  intros H1 H2. unfold normalize_japanese_punct. by rewrite H1, H2.
Qed.

(** C5: on a string that contains neither [http://] nor [https://],
    normalizing twice gives what normalizing once gives. *)
Theorem normalize_japanese_punct_idempotent (text : str) :
  contains (lit "http://") text = false →
  contains (lit "https://") text = false →
  normalize (normalize text) = normalize text.
Proof using Hpunct Hfull.
  intros H1 H2. rewrite (normalize_without_url text H1 H2).
  case_bool_decide as Hnil.
  - subst text. reflexivity.
  - destruct (no_colon_no_url _ (translate_no_colon text)) as [H1' H2'].
    rewrite (normalize_without_url _ H1' H2').
    case_bool_decide; [done|]. apply translate_idempotent.
Qed.

End Idempotence.

(** *** Decimal numbers *)

Lemma no_h_no_url (s : str) :
  chr "h" ∉ s →
  contains (lit "http://") s = false ∧ contains (lit "https://") s = false.
Proof.
  intros Hs. split; apply not_true_is_false; intros H; apply Hs;
    (eapply contains_chars; [exact H|]); by apply (bool_decide_unpack _).
Qed.

Lemma ascii_digit_not_period (c : char) : is_ascii_digit c = true → c ≠ chr ".".
Proof. intros H ->. discriminate H. Qed.

Lemma ascii_digit_not_h (c : char) : is_ascii_digit c = true → c ≠ chr "h".
Proof. intros H ->. discriminate H. Qed.

Lemma translate_at_ascii_digit (text : str) (i : nat) (c : char) :
  is_ascii_digit c = true → translate_at isdigit text i c = c + 65248.
Proof.
  intros Hc. rewrite translate_at_other by by apply ascii_digit_not_period.
  by apply fullwidth_of_ascii_digit.
Qed.

Lemma imap_ascii_digits (f : nat → char → char) (ds : str) :
  Forall (λ c, is_ascii_digit c = true) ds →
  (∀ i c, is_ascii_digit c = true → f i c = c + 65248) →
  imap f ds = (λ c, c + 65248) <$> ds.
Proof.
  intros Hds Hf. rewrite <- imap_const. apply imap_ext. intros i c Hi. simpl.
  apply Hf. exact (Forall_lookup_1 _ _ _ _ Hds Hi).
Qed.

(** C1, as the code has it: in a string of ASCII digits around one
    interior period the period stays as it is and every digit becomes its
    full-width form; in ["3.14 yay!"] the three digits and the [!] are
    mapped, the period, the space and the letters are not. *)
Theorem normalize_japanese_punct_decimal (ds1 ds2 : str) :
  ascii_digits_digit isdigit →
  ds1 ≠ [] → ds2 ≠ [] →
  Forall (λ c, is_ascii_digit c = true) ds1 →
  Forall (λ c, is_ascii_digit c = true) ds2 →
  normalize (ds1 ++ chr "." :: ds2)
  = ((λ c, c + 65248) <$> ds1) ++ chr "." :: ((λ c, c + 65248) <$> ds2)
  ∧ normalize (lit "3.14 yay!")
    = [65299; chr "."; 65297; 65300; chr " "; chr "y"; chr "a"; chr "y"; 65281].
Proof.
  intros Hascii Hne1 Hne2 Hds1 Hds2. split.
  - set (text := ds1 ++ chr "." :: ds2).
    assert (chr "h" ∉ text) as Hh.
    { unfold text. rewrite elem_of_app, elem_of_cons. intros [H|[H|H]]; [|done|].
      - eapply Forall_forall in Hds1; [|exact H]. by apply ascii_digit_not_h in Hds1.
      - eapply Forall_forall in Hds2; [|exact H]. by apply ascii_digit_not_h in Hds2. }
    destruct (no_h_no_url _ Hh) as [H1 H2].
    rewrite (normalize_without_url _ H1 H2).
    rewrite bool_decide_eq_false_2 by (unfold text; by destruct ds1).
    rewrite translate_imap. unfold text at 2. rewrite imap_app, imap_cons.
    f_equal; [|f_equal].
    + apply imap_ascii_digits; [done|]. intros. by apply translate_at_ascii_digit.
    + rewrite translate_at_period.
      destruct ds1 as [|d1 ds1' _] using rev_ind; [done|].
      destruct ds2 as [|d2 ds2']; [done|].
      apply Forall_app in Hds1 as [_ Hd1]. apply Forall_cons in Hds2 as [Hd2 _].
      apply Forall_cons in Hd1 as [Hd1 _].
      apply (ascii_digit_digit _ Hascii) in Hd1, Hd2.
      unfold text. rewrite !length_app. simpl.
      replace (0 <? length ds1' + 1 + 0)%nat with true
        by (symmetry; apply Nat.ltb_lt; lia).
      replace (length ds1' + 1 + 0 + 1 <? length ds1' + 1 + S (S (length ds2')))%nat
        with true by (symmetry; apply Nat.ltb_lt; lia).
      replace (length ds1' + 1 + 0 - 1)%nat with (length ds1' + 0)%nat by lia.
      replace (length ds1' + 1 + 0 + 1)%nat with (length (ds1' ++ [d1]) + 1)%nat
        by (rewrite length_app; simpl; lia).
      rewrite <- (app_assoc ds1' [d1]) at 1.
      rewrite (lookup_app_r ds1') by lia.
      replace (length ds1' + 0 - length ds1')%nat with 0%nat by lia. simpl.
      rewrite (lookup_app_r (ds1' ++ [d1])) by lia.
      replace (length (ds1' ++ [d1]) + 1 - length (ds1' ++ [d1]))%nat with 1%nat by lia.
      simpl. by rewrite Hd1, Hd2.
    + apply imap_ascii_digits; [done|]. intros. by apply translate_at_ascii_digit.
  - assert (isdigit 51 = true ∧ isdigit 49 = true) as [H3 H1].
    { split; apply (ascii_digit_digit _ Hascii); reflexivity. }
    vm_compute. by rewrite H3, H1.
Qed.

End NormalizerFacts.

Lemma isdigit_sample_tables :
  punct_not_digit isdigit_sample ∧ ascii_digits_digit isdigit_sample
  ∧ fullwidth_digits_digit isdigit_sample.
Proof. by vm_compute. Qed.

Lemma normalize_japanese_punct_decimal_witness :
  normalize_japanese_punct isdigit_sample (lit "3.14")
  = [65299; chr "."; 65297; 65300].
Proof.
  refine (proj1 (normalize_japanese_punct_decimal isdigit_sample (lit "3") (lit "14")
                   _ _ _ _ _)).
  - reflexivity.
  - done.
  - done.
  - by repeat constructor.
  - by repeat constructor.
Defined.

Lemma normalize_japanese_punct_idempotent_witness :
  let text := lit "3.14 yay!" in
  contains (lit "http://") text = false ∧ contains (lit "https://") text = false ∧
  normalize_japanese_punct isdigit_sample (normalize_japanese_punct isdigit_sample text)
  = normalize_japanese_punct isdigit_sample text.
Proof.
  cbv zeta. split; [reflexivity|]. split; [reflexivity|].
  apply (normalize_japanese_punct_idempotent isdigit_sample); reflexivity.
Defined.

(** C1 as the specification words it fails on its own examples: the
    digits of ["3.14"] are mapped, and so are those of ["3.14 yay!"]. *)
Lemma decimal_digits_are_mapped :
  normalize_japanese_punct isdigit_sample (lit "3.14") = [65299; chr "."; 65297; 65300]
  ∧ normalize_japanese_punct isdigit_sample (lit "3.14") ≠ lit "3.14"
  ∧ normalize_japanese_punct isdigit_sample (lit "3.14 yay!")
    ≠ lit "3.14 yay" ++ [65281].
Proof. split; [by vm_compute|]. split; by vm_compute. Qed.

Example normalize_keeps_urls :
  normalize_japanese_punct isdigit_sample (lit "see http://a.b/c?d=1. ok.")
  = lit "see http://a.b/c?d=1. ok" ++ [65294].
Proof. by vm_compute. Qed.

(** ** The chapter extractor and trailing blanks *)

Lemma html_escape_nonempty (s : str) : s ≠ [] → html_escape s ≠ [].
Proof.
  destruct s as [|c s]; [done|]. intros _. unfold html_escape. simpl.
  repeat case_match; done.
Qed.

Lemma mjoin_singleton (x : str) : mjoin [x] = x.
Proof. simpl. apply app_nil_r. Qed.

Lemma strip_nonempty (s : str) : is_nil (strip s) = false → s ≠ [].
Proof. by intros H ->. Qed.

(** The result of [parse_chapter_events] never ends with an empty
    paragraph. *)
Lemma parse_chapter_events_last (isdigit : char → bool) (events : list event)
    (remove_furigana : bool) (para : str) :
  last (parse_chapter_events isdigit events remove_furigana).2 = Some para →
  para ≠ [].
Proof.
  unfold parse_chapter_events. simpl. intros H%pop_while_last. by destruct para.
Qed.

(** Evaluates the comparisons of tag names. *)
Ltac eval_tags :=
  repeat match goal with
         | |- context [is_tag (lit ?a) ?b] =>
             let v := eval vm_compute in (is_tag (lit a) b) in
             change (is_tag (lit a) b) with v
         end.

(** Runs the updates of the parser state. *)
Ltac state_step :=
  cbn -[lit normalize_japanese_punct html_escape strip has_class mjoin
        MARK_PREFACE MARK_PREFACE_END MARK_AFTERWORD MARK_AFTERWORD_END
        handle_starttag handle_endtag handle_data handle_startendtag is_tag].

(** A preface block holding one paragraph with the text [sentence], then a
    body block holding one empty paragraph. *)
Definition preface_then_empty_paragraph (preface_attrs body_attrs : attrs_t)
    (sentence : str) : list event :=
  [ StartTag (lit "div") preface_attrs;
    StartTag (lit "p") []; Data sentence; EndTag (lit "p");
    EndTag (lit "div");
    StartTag (lit "div") body_attrs;
    StartTag (lit "p") []; EndTag (lit "p");
    EndTag (lit "div") ].

Section ExtractorFacts.

Variable isdigit : char → bool.
Variable remove_furigana : bool.
Variables preface_attrs body_attrs : attrs_t.
Variable sentence : str.
(** The tokenizer and a page it reads as the events above. *)
Variable html_events : str → list event.
Variable page_html : str.

Hypothesis page_events :
  html_events page_html
  = preface_then_empty_paragraph preface_attrs body_attrs sentence.
Hypothesis preface_class :
  has_class preface_attrs (lit "p-novel__text--preface") = true.
Hypothesis body_class : has_class body_attrs (lit "p-novel__text") = true.
Hypothesis body_not_preface :
  has_class body_attrs (lit "p-novel__text--preface") = false.
Hypothesis body_not_afterword :
  has_class body_attrs (lit "p-novel__text--afterword") = false.
Hypothesis sentence_not_blank :
  is_nil (strip (normalize_japanese_punct isdigit sentence)) = false.

(** The parser before the final trimming. *)
Lemma preface_then_empty_paragraph_parser :
  paragraphs
    (foldl (dispatch isdigit) (ChapterParser_init remove_furigana)
       (preface_then_empty_paragraph preface_attrs body_attrs sentence))
  = [ MARK_PREFACE; html_escape (normalize_japanese_punct isdigit sentence);
      MARK_PREFACE_END; []; [] ].
Proof using preface_class body_class body_not_preface body_not_afterword
  sentence_not_blank.
  unfold preface_then_empty_paragraph. cbn [foldl dispatch].
  (* the preface block opens *)
  unfold handle_starttag at 4. eval_tags. rewrite preface_class, orb_true_r. state_step.
  (* its paragraph *)
  unfold handle_starttag at 3. eval_tags. state_step.
  unfold handle_data. state_step. rewrite andb_false_r. state_step.
  unfold handle_endtag at 4. eval_tags. state_step.
  rewrite !mjoin_singleton, sentence_not_blank. state_step.
  (* the preface block closes *)
  unfold handle_endtag at 3. eval_tags. state_step.
  destruct (is_nil MARK_PREFACE_END) eqn:Hend; [discriminate Hend|]. state_step.
  (* the body block and its empty paragraph *)
  unfold handle_starttag at 2. eval_tags. state_step.
  rewrite body_class, body_not_preface, body_not_afterword. state_step.
  unfold handle_starttag. eval_tags. state_step.
  unfold handle_endtag at 2. eval_tags. state_step.
  unfold handle_endtag. eval_tags. state_step.
  reflexivity.
Qed.

Lemma preface_then_empty_paragraph_events :
  (parse_chapter_events isdigit
     (preface_then_empty_paragraph preface_attrs body_attrs sentence)
     remove_furigana).2
  = [ MARK_PREFACE; html_escape (normalize_japanese_punct isdigit sentence);
      MARK_PREFACE_END ].
Proof using preface_class body_class body_not_preface body_not_afterword
  sentence_not_blank.
  unfold parse_chapter_events. cbn [snd].
  rewrite preface_then_empty_paragraph_parser.
  pose proof (html_escape_nonempty _ (strip_nonempty _ sentence_not_blank)) as Hne.
  destruct (html_escape (normalize_japanese_punct isdigit sentence)) as [|c h]; [done|].
  reflexivity.
Qed.

(** C2, as the code has it: for a page with a preface block holding one
    sentence and then a body block holding one empty paragraph, the
    extractor collects the preface-start marker, the sentence, the
    preface-end marker and two blanks, and the final trimming removes both
    blanks: [parse_chapter_page] returns the two markers around the
    sentence and no blank after them. *)
Theorem parse_chapter_page_preface_then_empty_paragraph :
  (parse_chapter_page isdigit html_events page_html remove_furigana).2
  = [ MARK_PREFACE; html_escape (normalize_japanese_punct isdigit sentence);
      MARK_PREFACE_END ].
Proof using page_events preface_class body_class body_not_preface
  body_not_afterword sentence_not_blank.
  unfold parse_chapter_page. rewrite page_events.
  apply preface_then_empty_paragraph_events.
Qed.

End ExtractorFacts.

(** The page of C2, with the class attributes the site uses. *)
Definition sentence_page : list event :=
  preface_then_empty_paragraph
    [(lit "class", Some (lit "js-novel-text p-novel__text p-novel__text--preface"))]
    [(lit "class", Some (lit "js-novel-text p-novel__text"))]
    (lit "sentence").

Lemma parse_chapter_page_preface_then_empty_paragraph_witness :
  (parse_chapter_page isdigit_sample (λ _, sentence_page) (lit "<html>") false).2
  = [MARK_PREFACE; lit "sentence"; MARK_PREFACE_END].
Proof.
  exact (parse_chapter_page_preface_then_empty_paragraph isdigit_sample false
           [(lit "class", Some (lit "js-novel-text p-novel__text p-novel__text--preface"))]
           [(lit "class", Some (lit "js-novel-text p-novel__text"))]
           (lit "sentence") (λ _, sentence_page) (lit "<html>")
           eq_refl eq_refl eq_refl eq_refl eq_refl eq_refl).
Defined.

(** C2 as the specification words it expects a blank after the
    preface-end marker; the extractor returns none. *)
Lemma empty_paragraph_leaves_no_blank :
  (parse_chapter_events isdigit_sample sentence_page false).2
  = [MARK_PREFACE; lit "sentence"; MARK_PREFACE_END]
  ∧ (parse_chapter_events isdigit_sample sentence_page false).2
    ≠ [MARK_PREFACE; lit "sentence"; MARK_PREFACE_END; []].
Proof. split; by vm_compute. Qed.

(** ** The rate limiter spaces the calls *)

Global Instance exact_ticks_exact : ExactArith Z.
Proof.
  split; cbn; intros.
  - lia.
  - lia.
  - apply Z.leb_le. lia.
  - apply Z.leb_le. apply Z.ltb_ge in H. lia.
  - apply Z.leb_gt. apply Z.ltb_lt in H. lia.
  - apply Z.leb_le. apply Z.leb_le in H. lia.
Qed.

Section LimiterFacts.

Context {T : Type} `{ExactArith T}.






End LimiterFacts.





(** * Part III: further properties *)

(** ** Separator handling loses no paragraph *)

Lemma drop_while_filter {A} (p : A → bool) (l : list A) :
  filter (λ x, p x = false) (drop_while p l) = filter (λ x, p x = false) l.
Proof.
  induction l as [|x l IH]; simpl; [done|].
  destruct (p x) eqn:Hx; [|done].
  rewrite filter_cons_False; [done|]. by rewrite Hx.
Qed.

Lemma drop_while_elem {A} (p : A → bool) (l : list A) (x : A) :
  x ∈ l → p x = false → x ∈ drop_while p l.
Proof.
  induction l as [|y l IH]; simpl; intros Hin Hx; [done|].
  destruct (p y) eqn:Hy; [|done].
  apply elem_of_cons in Hin as [->|Hin]; [congruence|auto].
Qed.

Lemma strip_keeps (s : str) (c : char) :
  c ∈ s → isspace c = false → c ∈ strip s.
Proof.
  intros Hin Hc. unfold strip, pop_while.
  rewrite elem_of_reverse. apply drop_while_elem; [|done].
  rewrite elem_of_reverse. by apply drop_while_elem.
Qed.

(** A separator line has a character that is not white space. *)
Lemma separator_line_not_blank (text : str) :
  is_separator_line text = true → is_nil (strip text) = false.
Proof.
  unfold is_separator_line.
  destruct (filter (λ ch, isspace ch = false) text) as [|c compact] eqn:Hf; [done|].
  intros _.
  assert (c ∈ filter (λ ch, isspace ch = false) text) as Hc by (rewrite Hf; left).
  apply list_elem_of_filter in Hc as [Hsp Hin].
  pose proof (strip_keeps text c Hin Hsp) as Hs.
  by destruct (strip text); [apply elem_of_nil in Hs|].
Qed.

Section SeparatorKeeps.

Variable unescape : str → str.

Local Abbreviation visible := (λ p : str, is_blank_para unescape p = false).

Lemma spacing_loop_visible (rest racc : list str) :
  filter visible (spacing_loop unescape rest (reverse racc))
  = filter visible (reverse racc) ++ filter visible rest.
Proof.
  remember (length rest) as n eqn:Hn. revert rest racc Hn.
  induction n as [n IH] using lt_wf_ind. intros rest racc ->.
  destruct rest as [|para rest].
  - simp spacing_loop. by rewrite app_nil_r.
  - destruct (decide (para = MARK_SEPARATOR)) as [->|Hne].
    + rewrite spacing_loop_separator.
      rewrite (IH (length (drop_while (is_blank_para unescape) rest)));
        [| pose proof (drop_while_length (is_blank_para unescape) rest); simpl; lia
         | done].
      rewrite drop_while_filter.
      rewrite (filter_cons _ MARK_SEPARATOR), decide_True by apply blank_separator.
      rewrite !filter_reverse. unfold after_separator.
      assert (∀ r, filter visible ([] :: r) = filter visible r) as Hblank.
      { intros r. rewrite filter_cons_False; [done|]. by rewrite blank_empty. }
      assert (filter visible
                (if is_nil (drop_while (is_blank_para unescape) racc)
                 then drop_while (is_blank_para unescape) racc
                 else [] :: drop_while (is_blank_para unescape) racc)
              = filter visible racc) as Hpop.
      { destruct (is_nil _); rewrite ?Hblank; apply drop_while_filter. }
      destruct (is_nil (drop_while (is_blank_para unescape) rest));
        rewrite ?Hblank, (filter_cons _ MARK_SEPARATOR),
          decide_True, Hpop, reverse_cons, <- ?app_assoc by apply blank_separator;
        done.
    + rewrite spacing_loop_other by done.
      rewrite (IH (length rest)); [| simpl; lia | done].
      rewrite !filter_reverse, !filter_cons.
      case_decide; [|done]. by rewrite reverse_cons, <- app_assoc.
Qed.

Lemma normalize_separator_spacing_visible (paragraphs : list str) :
  filter visible (normalize_separator_spacing unescape paragraphs)
  = filter visible paragraphs.
Proof.
  unfold normalize_separator_spacing. destruct (is_nil paragraphs); [done|].
  change (@nil str) with (reverse (@nil str)). by rewrite spacing_loop_visible.
Qed.

(** What [apply_separator_handling] puts in the place of a paragraph. *)
Definition as_separator (para : str) : str :=
  if bool_decide (para ∈ markers) || bool_decide (para = []) then para
  else if is_separator_line (unescape (html_to_text para)) then MARK_SEPARATOR
  else para.

Lemma as_separator_visible (para : str) :
  is_blank_para unescape (as_separator para) = is_blank_para unescape para.
Proof.
  unfold as_separator.
  destruct (bool_decide (para ∈ markers) || bool_decide (para = [])) eqn:Hm; [done|].
  destruct (is_separator_line _) eqn:Hsep; [|done].
  apply orb_false_iff in Hm as [Hm Hnil].
  rewrite blank_separator. symmetry. unfold is_blank_para.
  rewrite Hnil, Hm. destruct (contains _ _); [done|].
  by apply separator_line_not_blank.
Qed.

Lemma apply_separator_handling_fold (paragraphs out : list str) :
  foldl (λ out para,
           if bool_decide (para ∈ markers) || bool_decide (para = [])
           then out ++ [para]
           else if is_separator_line (unescape (html_to_text para))
                then out ++ [MARK_SEPARATOR]
                else out ++ [para]) out paragraphs
  = out ++ (as_separator <$> paragraphs).
Proof.
  revert out. induction paragraphs as [|para ps IH]; intros out; simpl.
  - by rewrite app_nil_r.
  - rewrite IH. unfold as_separator at 2.
    destruct (_ || _); [by rewrite <- app_assoc|].
    destruct (is_separator_line _); by rewrite <- app_assoc.
Qed.

(** X1: separator handling loses no paragraph and reorders none: the
    paragraphs of the output that are not blank are those of the input, in
    the same order, with each separator line replaced by the separator
    marker.  Only blank paragraphs are added or removed. *)
Theorem apply_separator_handling_keeps_paragraphs (paragraphs : list str) :
  filter visible (apply_separator_handling unescape paragraphs)
  = as_separator <$> filter visible paragraphs.
Proof.
  unfold apply_separator_handling. destruct (is_nil paragraphs) eqn:Hnil.
  - by destruct paragraphs.
  - rewrite normalize_separator_spacing_visible, apply_separator_handling_fold.
    simpl. clear Hnil.
    induction paragraphs as [|para ps IH]; [done|]. csimpl.
    rewrite !filter_cons, as_separator_visible.
    case_decide; csimpl; by rewrite IH.
Qed.

End SeparatorKeeps.

(** ** Markup to text *)

Lemma strip_tags_cons (c : char) (s : str) :
  strip_tags (c :: s)
  = match match_tag (c :: s) with
    | Some n => strip_tags (drop (n - 1) s)
    | None => c :: strip_tags s
    end.
Proof. simp strip_tags. by destruct (match_tag (c :: s)). Qed.

Lemma str_replace_cons (old new : str) (c : char) (s : str) :
  str_replace old new (c :: s)
  = if starts_with old (c :: s)
    then new ++ str_replace old new (drop (length old - 1) s)
    else c :: str_replace old new s.
Proof. by simp str_replace. Qed.

Lemma take_while_drop_while {A} (p : A → bool) (l : list A) :
  drop (length (take_while p l)) l = drop_while p l.
Proof.
  induction l as [|x l IH]; simpl; [done|]. destruct (p x); simpl; [done|done].
Qed.

Lemma take_while_all {A} (p : A → bool) (l : list A) :
  (∀ x, x ∈ l → p x = true) → take_while p l = l.
Proof.
  induction l as [|x l IH]; simpl; intros H; [done|].
  rewrite (H x) by left. f_equal. apply IH. intros y Hy. apply H. by right.
Qed.

(** A character of the output is a character of the input. *)
Lemma strip_tags_elem (s : str) (x : char) : x ∈ strip_tags s → x ∈ s.
Proof.
  remember (length s) as n eqn:Hn. revert s Hn.
  induction n as [n IH] using lt_wf_ind. intros s ->.
  destruct s as [|c s]; [by simp strip_tags|].
  rewrite strip_tags_cons. destruct (match_tag (c :: s)) as [k|].
  - intros Hx. right.
    apply (IH (length (drop (k - 1) s))) in Hx;
      [| rewrite length_drop; simpl; lia | done].
    by apply (subseteq_drop (k - 1) s).
  - intros Hx. apply elem_of_cons in Hx as [->|Hx]; [left|right].
    apply (IH (length s)) in Hx; [done | simpl; lia | done].
Qed.

Definition not_gt (x : char) : bool := negb (x =? chr ">").

(** [match_tag] fails on [<] exactly when no character precedes the next
    [>] or when there is no [>]. *)
Lemma match_tag_lt (r : str) :
  match_tag (chr "<" :: r)
  = match take_while not_gt r, drop_while not_gt r with
    | _ :: _, _ :: _ => Some (length (take_while not_gt r) + 2)%nat
    | _, _ => None
    end.
Proof.
  unfold match_tag. change (chr "<" =? chr "<") with true. cbv iota.
  case_match eqn:Hrun.
  - change (take_while not_gt r = []) in Hrun. by rewrite Hrun.
  - change (take_while not_gt r = n :: l) in Hrun. rewrite <- Hrun.
    rewrite take_while_drop_while. rewrite Hrun. reflexivity.
Qed.

Lemma match_tag_other (c : char) (r : str) : c ≠ chr "<" → match_tag (c :: r) = None.
Proof. intros H. unfold match_tag. apply N.eqb_neq in H. by rewrite H. Qed.

Lemma drop_while_all {A} (p : A → bool) (l : list A) :
  (∀ x, x ∈ l → p x = true) → drop_while p l = [].
Proof.
  induction l as [|x l IH]; simpl; intros H; [done|].
  rewrite (H x) by left. apply IH. intros y Hy. apply H. by right.
Qed.

Lemma drop_while_nil_all {A} (p : A → bool) (l : list A) :
  drop_while p l = [] → ∀ x, x ∈ l → p x = true.
Proof.
  induction l as [|y l IH]; simpl; intros H x Hx; [by apply elem_of_nil in Hx|].
  destruct (p y) eqn:Hy; [|done].
  apply elem_of_cons in Hx as [->|Hx]; auto.
Qed.

(** Where the input has no tag, removing tags further on makes none. *)
Lemma match_tag_strip_tags (c : char) (s : str) :
  match_tag (c :: s) = None → match_tag (c :: strip_tags s) = None.
Proof.
  destruct (decide (c = chr "<")) as [->|Hc]; [|by rewrite !match_tag_other].
  rewrite !match_tag_lt.
  destruct (take_while not_gt s) as [|x run] eqn:Hrun.
  - (* nothing before the next [>] *)
    intros _. destruct s as [|y s]; [by simp strip_tags|].
    simpl in Hrun. destruct (not_gt y) eqn:Hy; [done|].
    assert (y = chr ">") as ->.
    { unfold not_gt in Hy. apply negb_false_iff, N.eqb_eq in Hy. done. }
    rewrite strip_tags_cons, match_tag_other by done. done.
  - destruct (drop_while not_gt s) as [|y rest] eqn:Hrest; [|done].
    intros _.
    rewrite (drop_while_all not_gt (strip_tags s)).
    + by case_match.
    + intros z Hz. apply strip_tags_elem in Hz.
      by apply (drop_while_nil_all not_gt s).
Qed.

(** No tag is left: [<[^>]+>] matches nowhere in the output. *)
Lemma strip_tags_no_tag (s : str) (i : nat) :
  match_tag (drop i (strip_tags s)) = None.
Proof.
  remember (length s) as n eqn:Hn. revert s i Hn.
  induction n as [n IH] using lt_wf_ind. intros s i ->.
  destruct s as [|c s]; [simp strip_tags; by destruct i|].
  rewrite strip_tags_cons. destruct (match_tag (c :: s)) as [k|] eqn:Hm.
  - apply (IH (length (drop (k - 1) s))); [rewrite length_drop; simpl; lia|done].
  - destruct i as [|i]; simpl.
    + by apply match_tag_strip_tags.
    + apply (IH (length s)); [simpl; lia|done].
Qed.

Lemma strip_tags_fixed (t : str) :
  (∀ i, match_tag (drop i t) = None) → strip_tags t = t.
Proof.
  induction t as [|c t IH]; intros H; [by simp strip_tags|].
  pose proof (H 0%nat) as H0. change (match_tag (c :: t) = None) in H0.
  rewrite strip_tags_cons, H0. f_equal. apply IH.
  intros i. apply (H (S i)).
Qed.

Lemma str_replace_fixed (old new t : str) :
  (∀ i, starts_with old (drop i t) = false) → str_replace old new t = t.
Proof.
  induction t as [|c t IH]; intros H; [by simp str_replace|].
  pose proof (H 0%nat) as H0. change (starts_with old (c :: t) = false) in H0.
  rewrite str_replace_cons, H0. f_equal. apply IH.
  intros i. apply (H (S i)).
Qed.

Lemma starts_with_app (p u : str) :
  starts_with p u = true → ∃ rest, u = p ++ rest.
Proof.
  revert u. induction p as [|a p IH]; intros u H; [by exists u|].
  destruct u as [|b u]; [done|]. simpl in H.
  apply andb_true_iff in H as [->%N.eqb_eq H].
  destruct (IH _ H) as [rest ->]. by exists rest.
Qed.

(** A line break written as a tag is a tag. *)
Lemma br_is_tag (u : str) :
  starts_with (lit "<br />") u = true ∨ starts_with (lit "<br/>") u = true
  ∨ starts_with (lit "<br>") u = true →
  match_tag u ≠ None.
Proof.
  intros [H|[H|H]]; apply starts_with_app in H as [rest ->]; by vm_compute.
Qed.

(** X2: [html_to_text] leaves no tag behind: the pattern [<[^>]+>]
    matches at no position of its output.  So converting again changes
    nothing. *)
Theorem html_to_text_removes_every_tag (s : str) :
  (∀ i, match_tag (drop i (html_to_text s)) = None)
  ∧ html_to_text (html_to_text s) = html_to_text s.
Proof.
  assert (∀ i, match_tag (drop i (html_to_text s)) = None) as Hno.
  { intros i. apply strip_tags_no_tag. }
  split; [exact Hno|].
  assert (∀ old, old = lit "<br />" ∨ old = lit "<br/>" ∨ old = lit "<br>" →
            str_replace old [LF] (html_to_text s) = html_to_text s) as Hbr.
  { intros old Hold. apply str_replace_fixed. intros i.
    apply not_true_is_false. intros Hst.
    apply (br_is_tag (drop i (html_to_text s))); [|apply Hno].
    destruct Hold as [-> | [-> | ->]]; auto. }
  unfold html_to_text at 1. cbv zeta.
  rewrite !Hbr by auto. by apply strip_tags_fixed.
Qed.

Example html_to_text_example :
  html_to_text (lit "a<br />b<i>c</i> <> < x") = lit "a" ++ [LF] ++ lit "bc <> < x".
Proof. by vm_compute. Qed.

(** ** Escaped text *)

Definition markup_char (c : char) : bool :=
  (c =? chr "<") || (c =? chr ">") || (c =? dquote) || (c =? chr "'").

Lemma html_escape_cons (c : char) (s : str) :
  html_escape (c :: s) = html_escape [c] ++ html_escape s.
Proof. unfold html_escape. simpl. by rewrite app_nil_r. Qed.

Lemma html_escape_char (c x : char) : x ∈ html_escape [c] → markup_char x = false.
Proof.
  unfold html_escape. simpl. rewrite app_nil_r.
  repeat case_match; intros Hx;
    repeat (apply elem_of_cons in Hx as [->|Hx]; [try reflexivity|]);
    try (by apply elem_of_nil in Hx).
  unfold markup_char. by repeat (apply orb_false_iff; split).
Qed.

Lemma html_escape_no_markup (s : str) (x : char) :
  x ∈ html_escape s → markup_char x = false.
Proof.
  induction s as [|c s IH]; [by intros ?%elem_of_nil|].
  rewrite html_escape_cons, elem_of_app. intros [H|H]; [by eapply html_escape_char|auto].
Qed.

(** Text without [<] has no tag and no line-break tag. *)
Lemma html_to_text_plain (t : str) : chr "<" ∉ t → html_to_text t = t.
Proof.
  intros Hlt.
  assert (∀ i c r, drop i t = c :: r → c ≠ chr "<") as Hdrop.
  { intros i c r Hd ->. apply Hlt.
    apply (subseteq_drop i t). rewrite Hd. left. }
  assert (∀ old, old = lit "<br />" ∨ old = lit "<br/>" ∨ old = lit "<br>" →
            str_replace old [LF] t = t) as Hbr.
  { intros old Hold. apply str_replace_fixed. intros i.
    destruct (drop i t) as [|c r] eqn:Hd; [by destruct Hold as [-> | [-> | ->]]|].
    apply Hdrop in Hd. apply not_true_is_false. intros [rest Hr]%starts_with_app.
    destruct Hold as [-> | [-> | ->]]; by injection Hr as -> _. }
  unfold html_to_text. rewrite !Hbr by auto.
  apply strip_tags_fixed. intros i.
  destruct (drop i t) as [|c r] eqn:Hd; [done|].
  apply match_tag_other. by eapply Hdrop.
Qed.

(** X3: text escaped by [html.escape] carries no markup: it holds none of
    the characters [<], [>], the double quote and the apostrophe, and
    [html_to_text] returns it as it is. *)
Theorem html_escape_is_plain_text (s : str) :
  (∀ x, x ∈ html_escape s → markup_char x = false)
  ∧ html_to_text (html_escape s) = html_escape s.
Proof.
  split; [apply html_escape_no_markup|].
  apply html_to_text_plain. intros H. by apply html_escape_no_markup in H.
Qed.

(** ** What the punctuation pass leaves *)



Section NormalizerLeaves.

Variable isdigit : char → bool.


End NormalizerLeaves.


(** ** Class attributes *)

(** [" ".join(words)] *)
Fixpoint join_spaces (words : list str) : str :=
  match words with
  | [] => []
  | [w] => w
  | w :: words' => w ++ [chr " "] ++ join_spaces words'
  end.

(** A class name: not empty and free of white space. *)
Definition is_token (w : str) : Prop := w ≠ [] ∧ ∀ x, x ∈ w → isspace x = false.

Lemma split_ws_from_token (cur w rest : str) :
  (∀ x, x ∈ w → isspace x = false) →
  split_ws_from cur (w ++ rest) = split_ws_from (cur ++ w) rest.
Proof.
  revert cur. induction w as [|c w IH]; intros cur Hw; simpl.
  - by rewrite app_nil_r.
  - rewrite (Hw c) by left. rewrite IH by (intros x Hx; apply Hw; by right).
    by rewrite <- app_assoc.
Qed.

Lemma split_ws_from_space (cur rest : str) :
  cur ≠ [] → split_ws_from cur (chr " " :: rest) = cur :: split_ws_from [] rest.
Proof. intros H. simpl. by destruct cur. Qed.

Lemma split_ws_join (words : list str) :
  Forall is_token words → split_ws (join_spaces words) = words.
Proof.
  unfold split_ws. induction 1 as [|w words [Hne Hw] Hall IH]; [done|].
  destruct words as [|w' words].
  - simpl. rewrite <- (app_nil_r w) at 1. rewrite split_ws_from_token by done.
    simpl. by destruct w.
  - change (join_spaces (w :: w' :: words))
      with (w ++ chr " " :: join_spaces (w' :: words)).
    rewrite split_ws_from_token, app_nil_l, split_ws_from_space by done.
    by rewrite IH.
Qed.

(** X5: [has_class] tests for a whole class name: when the class attribute
    lists the names [words], separated by spaces, [has_class] holds of
    exactly these names, and of no part or extension of one. *)
Theorem has_class_whole_names (attrs : attrs_t) (words : list str) (class_name : str) :
  attrs_get attrs (lit "class") = Some (join_spaces words) →
  Forall is_token words →
  has_class attrs class_name = bool_decide (class_name ∈ words).
Proof.
  intros Hget Hall. unfold has_class. rewrite Hget.
  destruct (is_nil (join_spaces words)) eqn:Hnil.
  - destruct words as [|w [|w' words]]; [done| |].
    + apply Forall_cons in Hall as [[Hne _] _]. by destruct w.
    + by destruct w.
  - by rewrite split_ws_join.
Qed.

Lemma has_class_whole_names_witness :
  has_class [(lit "class", Some (lit "js-novel-text p-novel__text--preface"))]
    (lit "p-novel__text")
  = false.
Proof.
  refine (has_class_whole_names
            [(lit "class", Some (lit "js-novel-text p-novel__text--preface"))]
            [lit "js-novel-text"; lit "p-novel__text--preface"]
            (lit "p-novel__text") eq_refl _).
  repeat constructor; try done;
    intros x Hx; repeat (apply elem_of_cons in Hx as [->|Hx]; [reflexivity|]);
    by apply elem_of_nil in Hx.
Defined.

(** ** The chapter extractor as a stream *)

(** The parser after [feed] has dispatched [events]. *)
Definition parser_after (isdigit : char → bool) (events : list event)
    (remove_furigana : bool) : ChapterParser :=
  foldl (dispatch isdigit) (ChapterParser_init remove_furigana) events.

Lemma parser_after_app isdigit events1 events2 rf :
  parser_after isdigit (events1 ++ events2) rf
  = foldl (dispatch isdigit) (parser_after isdigit events1 rf) events2.
Proof. unfold parser_after. apply foldl_app. Qed.

(** Splits a goal about one handler call into the branches of the handler. *)
Ltac handler_cases :=
  unfold dispatch, handle_starttag, handle_startendtag, handle_endtag,
    handle_data, img_fragment, append_html, append_html_text, in_text_p,
    set_current, set_paragraphs, set_ruby_skip_depth, set_in_title,
    set_title_parts, set_text_block_depth, set_block_label_end;
  cbn [title_parts paragraphs _remove_furigana _ruby_skip_depth _in_title
       _text_block_depth _in_p _current_html_parts _current_text_parts
       _block_label_end];
  repeat (case_match;
          cbn [title_parts paragraphs _remove_furigana _ruby_skip_depth _in_title
               _text_block_depth _in_p _current_html_parts _current_text_parts
               _block_label_end] in *).

Section ExtractorStream.

Variable isdigit : char → bool.







Lemma dispatch_paragraphs_prefix (p : ChapterParser) (e : event) :
  paragraphs p `prefix_of` paragraphs (dispatch isdigit p e).
Proof.
  destruct p as [tp ps rfu rsd it tbd ip chp ctp ble], e; handler_cases.
  all: try reflexivity.
  all: try (by apply prefix_app_r).
  all: try (by eexists; rewrite <- ?app_assoc).
Qed.

(** X7: the extractor only ever appends paragraphs: the paragraphs it has
    collected from the start of a page remain, unchanged and in place,
    whatever markup follows. *)
Theorem paragraphs_only_grow (events1 events2 : list event) (rf : bool) :
  paragraphs (parser_after isdigit events1 rf)
  `prefix_of` paragraphs (parser_after isdigit (events1 ++ events2) rf).
Proof.
  rewrite parser_after_app. generalize (parser_after isdigit events1 rf).
  induction events2 as [|e events2 IH]; intros p; [reflexivity|].
  simpl. etrans; [apply dispatch_paragraphs_prefix|apply IH].
Qed.

(** No [div] of the page opens a text block. *)
Definition no_text_block (events : list event) : Prop :=
  ∀ attrs, StartTag (lit "div") attrs ∈ events →
    has_class attrs (lit "p-novel__text") = false
    ∧ has_class attrs (lit "p-novel__text--preface") = false
    ∧ has_class attrs (lit "p-novel__text--afterword") = false.

Definition outside_blocks (p : ChapterParser) : Prop :=
  _text_block_depth p = 0%Z ∧ _in_p p = false ∧ paragraphs p = [].

Lemma dispatch_outside_blocks (p : ChapterParser) (e : event) :
  (∀ attrs, e = StartTag (lit "div") attrs →
     has_class attrs (lit "p-novel__text") = false
     ∧ has_class attrs (lit "p-novel__text--preface") = false
     ∧ has_class attrs (lit "p-novel__text--afterword") = false) →
  outside_blocks p → outside_blocks (dispatch isdigit p e).
Proof.
  unfold outside_blocks.
  destruct p as [tp ps rfu rsd it tbd ip chp ctp ble].
  cbn [_text_block_depth _in_p paragraphs]. intros He (-> & -> & ->).
  destruct e as [tag attrs|tag attrs|tag|data].
  - destruct (decide (tag = lit "div")) as [->|Hne].
    + destruct (He attrs eq_refl) as (H1 & H2 & H3).
      unfold dispatch, handle_starttag. eval_tags. rewrite H1, H2, H3. done.
    + assert (is_tag tag "div" = false) as Hdiv by by apply bool_decide_eq_false_2.
      unfold dispatch, handle_starttag. rewrite Hdiv. handler_cases; done.
  - handler_cases; done.
  - handler_cases; try done.
    all: match goal with H : _ && _ = true |- _ =>
           apply andb_prop in H as [_ H]; discriminate H end.
  - handler_cases; done.
Qed.

(** X8: a page in which no [div] opens a text block yields no paragraph,
    whatever else it holds: the extractor returns an empty list instead of
    failing. *)
Theorem no_text_block_no_paragraph (events : list event) (rf : bool) :
  no_text_block events →
  (parse_chapter_events isdigit events rf).2 = [].
Proof.
  intros Hno.
  assert (outside_blocks (parser_after isdigit events rf)) as (_ & _ & Hps).
  { unfold parser_after.
    assert (outside_blocks (ChapterParser_init rf)) as H by done.
    revert H. generalize (ChapterParser_init rf).
    induction events as [|e events IH]; intros p Hp; [done|].
    simpl. apply IH.
    - intros attrs Hin. apply Hno. by right.
    - apply dispatch_outside_blocks; [|done].
      intros attrs ->. apply Hno. left. }
  unfold parse_chapter_events. cbn [snd].
  fold (parser_after isdigit events rf). by rewrite Hps.
Qed.

End ExtractorStream.

Lemma no_text_block_no_paragraph_witness :
  (parse_chapter_events isdigit_sample
     [StartTag (lit "div") [(lit "class", Some (lit "p-novel__text-like"))];
      StartTag (lit "p") []; Data (lit "text"); EndTag (lit "p");
      EndTag (lit "div")] false).2 = [].
Proof.
  apply (no_text_block_no_paragraph isdigit_sample).
  intros attrs Hin.
  repeat (apply elem_of_cons in Hin as [Hin|Hin]; [try discriminate Hin|]).
  - by injection Hin as ->.
  - by apply elem_of_nil in Hin.
Defined.

(** ** The fetcher: the waits of a call *)

Section FetchWaits.

Import Fetch.

Variable response : Type.
Variable urlopen : Z → result exc response.

(** The wait before an attempt: [limiter.wait()], or [time.sleep(delay)]
    when there is no limiter and [delay > 0]. *)
Definition politeness (has_limiter delay_positive : bool) : list effect :=
  if has_limiter then [LimiterWait]
  else if delay_positive then [SleepDelay] else [].

(** The waits of a call that is decided after [n] retried attempts, the
    first of them being attempt [k]. *)
Definition waits (has_limiter delay_positive : bool) (k : Z) (n : Z)
    : list effect :=
  mjoin ((λ j, politeness has_limiter delay_positive
               ++ [SleepBackoff (backoff_base j)]) <$> seqZ k n)
  ++ politeness has_limiter delay_positive.

(** The attempt [a] is the one whose result the call hands on. *)
Definition decided_at (a : Z) (o : outcome response) : Prop :=
  match o with
  | Returned resp => urlopen a = Ok resp
  | Raised attempt e => attempt = a ∧ urlopen a = Raise e
  | FellThrough _ => False
  end.

Lemma backoff_base_bounds (j : Z) : (0 ≤ j → 1 ≤ backoff_base j ≤ 8)%Z.
Proof.
  intros Hj. unfold backoff_base.
  assert (1 ≤ 2 ^ j)%Z by (apply (Z.pow_le_mono_r 2 0 j); lia). lia.
Qed.

Lemma waits_step hl dp (k n : Z) :
  (0 ≤ n)%Z →
  waits hl dp k (Z.succ n)
  = politeness hl dp ++ [SleepBackoff (backoff_base k)] ++ waits hl dp (Z.succ k) n.
Proof.
  intros Hn. unfold waits. rewrite seqZ_cons by lia.
  replace (Z.pred (Z.succ n)) with n by lia.
  csimpl. by rewrite <- !app_assoc.
Qed.

Lemma politeness_no_backoff hl dp (base : Z) :
  SleepBackoff base ∉ politeness hl dp.
Proof.
  unfold politeness. intros Hin.
  repeat case_match;
    repeat (apply elem_of_cons in Hin as [Hin|Hin]; [discriminate Hin|]);
    by apply elem_of_nil in Hin.
Qed.

Lemma waits_backoff hl dp (k n base : Z) :
  (0 ≤ k)%Z → SleepBackoff base ∈ waits hl dp k n → (1 ≤ base ≤ 8)%Z.
Proof.
  intros Hk. unfold waits. rewrite elem_of_app, list_elem_of_join.
  intros [(l & Hin & Hl)|Hin].
  - apply list_elem_of_fmap in Hl as (j & -> & Hj).
    apply elem_of_seqZ in Hj.
    apply elem_of_app in Hin as [Hin|Hin].
    + by apply politeness_no_backoff in Hin.
    + apply list_elem_of_singleton in Hin as [= ->]. apply backoff_base_bounds. lia.
  - by apply politeness_no_backoff in Hin.
Qed.

Lemma fetch_loop_waits hl dp retries (n : nat) (k : Z) last_err log :
  (0 ≤ k)%Z → (k + Z.of_nat n = retries + 1)%Z → (0 < n)%nat →
  ∃ a, (k ≤ a ≤ retries)%Z
    ∧ decided_at a
        (fetch_loop response urlopen hl dp retries (seqZ k (Z.of_nat n)) last_err log).1
    ∧ (fetch_loop response urlopen hl dp retries (seqZ k (Z.of_nat n)) last_err log).2
      = log ++ waits hl dp k (a - k).
Proof.
  revert k last_err log.
  induction n as [|n IH]; intros k last_err log Hk Hsum Hn; [lia|].
  rewrite seqZ_cons by lia.
  replace (Z.pred (Z.of_nat (S n))) with (Z.of_nat n) by lia.
  assert (Hnow : ∀ lg : list effect,
            (if hl then lg ++ [LimiterWait]
             else if dp then lg ++ [SleepDelay] else lg)
            = lg ++ politeness hl dp).
  { intros lg. unfold politeness. destruct hl, dp; by rewrite ?app_nil_r. }
  assert (Hstop : log ++ politeness hl dp = log ++ waits hl dp k (k - k)).
  { unfold waits. by rewrite Z.sub_diag. }
  assert (Hgo : ∀ le, (k <? retries)%Z = true →
            ∃ a, (k ≤ a ≤ retries)%Z
              ∧ decided_at a
                  (fetch_loop response urlopen hl dp retries
                     (seqZ (Z.succ k) (Z.of_nat n)) le
                     ((log ++ politeness hl dp) ++ [SleepBackoff (backoff_base k)])).1
              ∧ (fetch_loop response urlopen hl dp retries
                   (seqZ (Z.succ k) (Z.of_nat n)) le
                   ((log ++ politeness hl dp) ++ [SleepBackoff (backoff_base k)])).2
                = log ++ waits hl dp k (a - k)).
  { intros le Hlt%Z.ltb_lt.
    destruct (IH (Z.succ k) le
                ((log ++ politeness hl dp) ++ [SleepBackoff (backoff_base k)]))
      as (a & Ha & Hdec & Hlog); [lia..|].
    exists a. split; [lia|]. split; [done|]. rewrite Hlog.
    replace (a - k)%Z with (Z.succ (a - Z.succ k)) by lia.
    rewrite waits_step by lia. by rewrite <- !app_assoc. }
  cbn [fetch_loop]. rewrite Hnow.
  destruct (urlopen k) as [resp|[code|msg|msg]] eqn:Hopen.
  - exists k. cbn [fst snd decided_at]. repeat split; try lia; done.
  - destruct (bool_decide (code ∈ retryable_codes)); cbn [andb].
    + destruct (k <? retries)%Z eqn:Hlt; [by apply Hgo|].
      exists k. cbn [fst snd decided_at]. apply Z.ltb_ge in Hlt.
      repeat split; try lia; done.
    + exists k. cbn [fst snd decided_at]. repeat split; try lia; done.
  - destruct (k <? retries)%Z eqn:Hlt; [by apply Hgo|].
    exists k. cbn [fst snd decided_at]. apply Z.ltb_ge in Hlt.
    repeat split; try lia; done.
  - exists k. cbn [fst snd decided_at]. repeat split; try lia; done.
Qed.

(** X9: a call of [_fetch_url] that is decided at attempt [a] has waited
    before each of the attempts [0..a] (on the limiter, or for [delay]),
    has slept a backoff after each of the [a] attempts it retried, of base
    [min(8, 2**attempt)], and has done nothing else; so it makes at most
    [retries + 1] requests and every backoff base lies between 1 and 8. *)
Theorem fetch_url_waits (has_limiter delay_positive : bool) (retries : Z) :
  (0 ≤ retries)%Z →
  ∃ a, (0 ≤ a ≤ retries)%Z
    ∧ decided_at a (_fetch_url response urlopen has_limiter delay_positive retries).1
    ∧ (_fetch_url response urlopen has_limiter delay_positive retries).2
      = waits has_limiter delay_positive 0 a
    ∧ ∀ base,
        SleepBackoff base
          ∈ (_fetch_url response urlopen has_limiter delay_positive retries).2 →
        (1 ≤ base ≤ 8)%Z.
Proof.
  intros Hr. unfold _fetch_url.
  replace (retries + 1)%Z with (Z.of_nat (Z.to_nat (retries + 1))) by lia.
  destruct (fetch_loop_waits has_limiter delay_positive retries
              (Z.to_nat (retries + 1)) 0 None [])
    as (a & Ha & Hdec & Hlog); [lia..|].
  exists a. rewrite Z.sub_0_r in Hlog. cbn [app] in Hlog.
  split; [lia|]. split; [done|]. split; [done|].
  intros base Hin. rewrite Hlog in Hin. by apply waits_backoff in Hin.
Qed.

End FetchWaits.

Lemma fetch_url_waits_witness :
  (0 ≤ 3)%Z ∧
  ∃ a, (0 ≤ a ≤ 3)%Z
    ∧ decided_at unit urlopen_503_503_404 a
        (Fetch._fetch_url unit urlopen_503_503_404 true false 3).1
    ∧ (Fetch._fetch_url unit urlopen_503_503_404 true false 3).2
      = waits true false 0 a
    ∧ ∀ base,
        Fetch.SleepBackoff base
          ∈ (Fetch._fetch_url unit urlopen_503_503_404 true false 3).2 →
        (1 ≤ base ≤ 8)%Z.
Proof.
  split; [lia|].
  apply (fetch_url_waits unit urlopen_503_503_404 true false 3). lia.
Defined.

(** ** The chapter downloader in fail-fast mode *)

Section DownloadFailFast.

Import Download.

Context {exn : Type}.
Variable get_page : nat → str → result exn str.
Variable parse_chapter_page : str → bool → str * list str.
Variable remove_furigana : bool.

(** The first item of [items] whose page fails to download, with the
    exception of the fetch. *)
Fixpoint first_failure (items : list (nat * str)) : option (str * exn) :=
  match items with
  | [] => None
  | (i, url) :: items' =>
      match get_page i url with
      | Raise e => Some (url, e)
      | Ok _ => first_failure items'
      end
  end.

Lemma sequential_first_failure items chapters :
  sequential exn get_page parse_chapter_page false remove_furigana items chapters
  = match first_failure items with
    | Some (_, e) => Raise (Reraised e)
    | None =>
        Ok (chapters
            ++ omap (chapter_of exn get_page parse_chapter_page remove_furigana) items)
    end.
Proof.
  revert chapters. induction items as [|[i url] items IH]; intros chapters.
  - simpl. by rewrite app_nil_r.
  - assert (chapter_of exn get_page parse_chapter_page remove_furigana (i, url)
            = match get_page i url with
              | Ok html_page =>
                  Some (make_chapter parse_chapter_page (i + 1) url html_page
                          remove_furigana)
              | Raise _ => None
              end) as Hof by reflexivity.
    cbn [sequential first_failure]. csimpl. rewrite Hof.
    destruct (get_page i url); [|done].
    rewrite IH. destruct (first_failure items) as [[? ?]|]; [done|].
    by rewrite <- app_assoc.
Qed.

Lemma collect_first_failure completed results errors :
  match first_failure completed with
  | Some (url, e) =>
      collect exn get_page parse_chapter_page false remove_furigana completed
        results errors
      = Raise (RuntimeError url e)
  | None =>
      collect exn get_page parse_chapter_page false remove_furigana completed
        results errors
      = Ok (foldl (store get_page parse_chapter_page remove_furigana) results
              completed, errors)
  end.
Proof.
  revert results errors.
  induction completed as [|[i url] completed IH]; intros results errors; simpl; [done|].
  unfold store at 2, fetch_one, chapter_of; simpl.
  destruct (get_page i url); simpl; [|done]. apply IH.
Qed.

(** X10: without [--skip-errors], [download_chapters] returns exactly when
    every page downloads, and then it returns one chapter for each link, in
    the order of the links.  Otherwise the sequential path re-raises the
    exception of the first link that fails, and the concurrent path raises
    a [RuntimeError] naming the URL of the first future to complete with a
    failure, with that exception as its cause. *)
Theorem download_chapters_fail_fast (links : list str) (jobs : Z)
    (completed : list (nat * str)) :
  completed ≡ₚ enumerate links →
  download_chapters exn get_page parse_chapter_page links jobs false
    remove_furigana completed
  = if (jobs <=? 1)%Z || (length links <=? 1)%nat then
      match first_failure (enumerate links) with
      | Some (_, e) => Raise (Reraised e)
      | None =>
          Ok (downloaded exn get_page parse_chapter_page remove_furigana links)
      end
    else
      match first_failure completed with
      | Some (url, e) => Raise (RuntimeError url e)
      | None =>
          Ok (downloaded exn get_page parse_chapter_page remove_furigana links)
      end.
Proof.
  intros Hperm. unfold download_chapters. destruct (_ || _).
  - by rewrite sequential_first_failure.
  - pose proof (collect_first_failure completed
                  (replicate (length links) None) []) as Hc.
    destruct (first_failure completed) as [[url e]|]; rewrite Hc; [done|].
    by rewrite (foldl_store_complete _ _ _ _ _ Hperm), omap_id_fmap.
Qed.

(** What [download_chapters] returns, in either mode and on either path,
    is the list of the chapters that download. *)
Lemma download_chapters_returns (links : list str) (jobs : Z)
    (skip_errors : bool) (completed : list (nat * str)) (chs : list Chapter) :
  completed ≡ₚ enumerate links →
  download_chapters exn get_page parse_chapter_page links jobs skip_errors
    remove_furigana completed = Ok chs →
  chs = downloaded exn get_page parse_chapter_page remove_furigana links.
Proof.
  intros Hperm. unfold download_chapters. destruct skip_errors.
  - destruct (_ || _).
    + rewrite sequential_skip. by intros [= <-].
    + destruct (collect_skip get_page parse_chapter_page remove_furigana
                  completed (replicate (length links) None) [])
        as [errors' ->].
      intros [= <-].
      by rewrite (foldl_store_complete _ _ _ _ _ Hperm), omap_id_fmap.
  - destruct (_ || _).
    + intros Hseq. by apply sequential_fail_fast in Hseq as [-> _].
    + destruct (collect _ _ _ _ _ _ _ _) as [[results errors]|] eqn:Hc; [|done].
      intros [= <-]. apply collect_fail_fast in Hc as [-> _].
      by rewrite (foldl_store_complete _ _ _ _ _ Hperm), omap_id_fmap.
Qed.

Lemma chapter_of_title (i : nat) (url : str) (c : Chapter) :
  chapter_of exn get_page parse_chapter_page remove_furigana (i, url) = Some c →
  ch_title c ≠ []
  ∧ ch_url c = url
  ∧ ∃ page,
      get_page i url = Ok page
      ∧ ch_paragraphs c = (parse_chapter_page page remove_furigana).2
      ∧ ch_title c
        = if is_nil (parse_chapter_page page remove_furigana).1
          then lit "Chapter " ++ lit (pretty (i + 1)%nat)
          else (parse_chapter_page page remove_furigana).1.
Proof.
  unfold chapter_of. cbn [fst snd].
  destruct (get_page i url) as [page|] eqn:Hp; [|done].
  intros [= <-]. unfold make_chapter.
  destruct (parse_chapter_page page remove_furigana) as [t ps] eqn:Hparse.
  cbn [ch_title ch_url ch_paragraphs fst snd]. split; [|split; [done|]].
  - destruct t; [|done]. cbn [is_nil]. discriminate.
  - exists page. by rewrite Hparse.
Qed.

(** X11: whatever the mode ([skip_errors] or not), the number of jobs and
    the order in which the downloads complete, every chapter of a list
    that [download_chapters] returns has a title that is not empty, the
    URL of one of the links given and the paragraphs parsed from the page
    of that link: a page without a title is called [Chapter n], [n] being
    the 1-based position of its link among all the links given, failed
    ones included. *)
Theorem download_chapters_returns_titled_chapters (links : list str)
    (jobs : Z) (skip_errors : bool) (completed : list (nat * str))
    (chs : list Chapter) (c : Chapter) :
  completed ≡ₚ enumerate links →
  download_chapters exn get_page parse_chapter_page links jobs skip_errors
    remove_furigana completed = Ok chs →
  c ∈ chs →
  ch_title c ≠ []
  ∧ ∃ i page,
      links !! i = Some (ch_url c) ∧ get_page i (ch_url c) = Ok page
      ∧ ch_paragraphs c = (parse_chapter_page page remove_furigana).2
      ∧ ch_title c
        = if is_nil (parse_chapter_page page remove_furigana).1
          then lit "Chapter " ++ lit (pretty (i + 1)%nat)
          else (parse_chapter_page page remove_furigana).1.
Proof.
  intros Hperm Hret Hin.
  apply (download_chapters_returns _ _ _ _ _ Hperm) in Hret as ->.
  unfold downloaded in Hin. apply list_elem_of_omap in Hin as ([i url] & Hin & Hc).
  apply elem_of_enumerate in Hin.
  apply chapter_of_title in Hc as (Htitle & -> & page & Hpage & Hparas & Hname).
  split; [done|]. by exists i, page.
Qed.

End DownloadFailFast.

Lemma download_chapters_fail_fast_witness :
  completion_DBEAC ≡ₚ enumerate five_links ∧
  Download.download_chapters unit all_but_B title_is_text five_links 3 false false
    completion_DBEAC
  = Raise (Download.RuntimeError (lit "B") ()).
Proof.
  split; [exact completion_DBEAC_perm|].
  exact (download_chapters_fail_fast all_but_B title_is_text false five_links 3
           completion_DBEAC completion_DBEAC_perm).
Defined.

(** Five pages without titles, of which the second fails: the third
    chapter of the links is the second of the result and is called
    [Chapter 3]. *)
Definition untitled_C : Chapter := mkChapter (lit "Chapter 3") [] (lit "C").

Definition no_title (page : str) (_ : bool) : str * list str := ([], []).

Lemma download_chapters_returns_titled_chapters_witness :
  completion_DBEAC ≡ₚ enumerate five_links
  ∧ Download.download_chapters unit all_but_B no_title five_links 3 true false
      completion_DBEAC
    = Ok [mkChapter (lit "Chapter 1") [] (lit "A"); untitled_C;
          mkChapter (lit "Chapter 4") [] (lit "D");
          mkChapter (lit "Chapter 5") [] (lit "E")]
  ∧ ch_title untitled_C ≠ [].
Proof.
  assert (Download.download_chapters unit all_but_B no_title five_links 3 true
            false completion_DBEAC
          = Ok [mkChapter (lit "Chapter 1") [] (lit "A"); untitled_C;
                mkChapter (lit "Chapter 4") [] (lit "D");
                mkChapter (lit "Chapter 5") [] (lit "E")]) as Hret
    by by vm_compute.
  split; [exact completion_DBEAC_perm|]. split; [exact Hret|].
  refine (proj1 (download_chapters_returns_titled_chapters all_but_B no_title
                   false five_links 3 true completion_DBEAC _ untitled_C
                   completion_DBEAC_perm Hret _)).
  right. left.
Defined.

(** ** The table of contents collected by the walk *)

(** The chapter URLs of a table of contents, in order. *)
Definition chapter_hrefs (toc_items : list Toc.item) : list str :=
  omap (λ it, match it with
              | Toc.ChapterLink href _ => Some href
              | Toc.Volume _ => None
              end) toc_items.

(** No chapter URL occurs twice, [seen_links] holds exactly the chapter
    URLs, no volume heading is empty and no heading directly follows an
    equal one. *)
Definition toc_consistent (toc_items : list Toc.item) (seen_links : gset str)
    : Prop :=
  NoDup (chapter_hrefs toc_items)
  ∧ (∀ href, href ∈ chapter_hrefs toc_items ↔ href ∈ seen_links)
  ∧ (∀ t, Toc.Volume t ∈ toc_items → t ≠ [])
  ∧ (∀ i t, toc_items !! i = Some (Toc.Volume t) →
            toc_items !! S i ≠ Some (Toc.Volume t)).

Lemma chapter_hrefs_app (l1 l2 : list Toc.item) :
  chapter_hrefs (l1 ++ l2) = chapter_hrefs l1 ++ chapter_hrefs l2.
Proof. apply omap_app. Qed.

Lemma lookup_snoc_Some {A} (l : list A) (x y : A) (i : nat) :
  (l ++ [x]) !! i = Some y →
  l !! i = Some y ∨ (i = length l ∧ y = x).
Proof.
  intros H. apply lookup_app_Some in H as [H|[Hle H]]; [by left|right].
  destruct (i - length l)%nat as [|n] eqn:Hn; simpl in H; [|done].
  injection H as <-. split; [lia|done].
Qed.

Section WalkItems.

Import Toc.

Context {exn : Type}.
Variable get_page : str → result exn str.
Variable parse_toc_page : str → bool → toc_page.
Variable urljoin : str → str → str.
Variable remove_furigana : bool.

Lemma snoc_volume_consistent (toc : list item) (seen : gset str) (t : str) :
  toc_consistent toc seen → t ≠ [] → last toc ≠ Some (Volume t) →
  toc_consistent (toc ++ [Volume t]) seen.
Proof.
  intros (Hnd & Hseen & Hvol & Hadj) Ht Hlast. unfold toc_consistent.
  rewrite chapter_hrefs_app. cbn. rewrite app_nil_r.
  split; [done|]. split; [done|]. split.
  - intros t0 [Hin|Hin%list_elem_of_singleton]%elem_of_app; [by apply Hvol|].
    by injection Hin as ->.
  - intros i t0 Hi Hnext.
    apply lookup_snoc_Some in Hnext as [Hnext|[Hlen Heq]].
    + apply lookup_snoc_Some in Hi as [Hi|[Hlen _]]; [exact (Hadj _ _ Hi Hnext)|].
      apply lookup_lt_Some in Hnext. lia.
    + injection Heq as ->.
      apply lookup_snoc_Some in Hi as [Hi|[Hlen' _]]; [|lia].
      apply Hlast. rewrite last_lookup.
      by replace (pred (length toc)) with i by lia.
Qed.

Lemma snoc_chapter_consistent (toc : list item) (seen : gset str)
    (full t : str) :
  toc_consistent toc seen → full ∉ seen →
  toc_consistent (toc ++ [ChapterLink full t]) ({[ full ]} ∪ seen).
Proof.
  intros (Hnd & Hseen & Hvol & Hadj) Hin. unfold toc_consistent.
  rewrite chapter_hrefs_app. cbn. split; [|split; [|split]].
  - apply NoDup_app. split; [done|]. split; [|apply NoDup_singleton].
    intros x Hx ->%list_elem_of_singleton. apply Hin. by apply Hseen.
  - intros h. rewrite elem_of_app, list_elem_of_singleton, elem_of_union,
      elem_of_singleton, Hseen. tauto.
  - intros t0 [Hin'|Hin'%list_elem_of_singleton]%elem_of_app;
      [by apply Hvol|done].
  - intros i t0 Hi Hnext.
    apply lookup_snoc_Some in Hnext as [Hnext|[_ Heq]]; [|done].
    apply lookup_snoc_Some in Hi as [Hi|[Hlen _]]; [exact (Hadj _ _ Hi Hnext)|].
    apply lookup_lt_Some in Hnext. lia.
Qed.

Lemma merge_item_consistent (page_url : str) (acc : list item * gset str)
    (it : item) :
  toc_consistent acc.1 acc.2 →
  toc_consistent (merge_item urljoin page_url acc it).1
    (merge_item urljoin page_url acc it).2.
Proof.
  destruct acc as [toc seen]. cbn [fst snd]. intros Hacc.
  unfold merge_item. destruct it as [t|href t].
  - destruct (strip t) as [|c vt] eqn:Hstrip; [done|]. cbn [is_nil].
    destruct (last toc) as [[t'|h' t']|] eqn:Hlast.
    + case_bool_decide as Heq; [done|]. cbn [fst snd].
      apply snoc_volume_consistent; [done..|]. rewrite Hlast. congruence.
    + cbn [fst snd]. apply snoc_volume_consistent; [done..|]. by rewrite Hlast.
    + cbn [fst snd]. apply snoc_volume_consistent; [done..|]. by rewrite Hlast.
  - destruct (is_nil href); [done|].
    case_bool_decide as Hin; [done|]. cbn [fst snd].
    by apply snoc_chapter_consistent.
Qed.

Lemma visit_consistent (w : walk) (page : str) :
  toc_consistent (toc_items w) (seen_links w) →
  toc_consistent (toc_items (visit parse_toc_page urljoin remove_furigana w page))
    (seen_links (visit parse_toc_page urljoin remove_furigana w page)).
Proof.
  intros Hw. unfold visit.
  assert (∀ its acc, toc_consistent acc.1 acc.2 →
            toc_consistent (foldl (merge_item urljoin (next_url w)) acc its).1
              (foldl (merge_item urljoin (next_url w)) acc its).2) as Hfold.
  { induction its as [|it its IH]; intros acc Hacc; [done|].
    simpl. apply IH. by apply merge_item_consistent. }
  specialize (Hfold (items (parse_toc_page page remove_furigana))
                (toc_items w, seen_links w) Hw).
  by destruct (foldl _ _ _).
Qed.

Lemma toc_loop_consistent (fuel : nat) (w : walk) (e : ending exn) (w' : walk) :
  toc_consistent (toc_items w) (seen_links w) →
  toc_loop exn get_page parse_toc_page urljoin remove_furigana fuel w = Some (e, w') →
  toc_consistent (toc_items w') (seen_links w').
Proof.
  revert w. induction fuel as [|fuel IH]; intros w Hw; [done|]. simpl.
  destruct (is_nil (next_url w)); [by intros [= <- <-]|].
  destruct (bool_decide _); [by intros [= <- <-]|].
  destruct (get_page (next_url w)) as [page|err]; [|by intros [= <- <-]].
  apply IH. by apply visit_consistent.
Qed.

(** X12: however the walk over the table-of-contents pages ends, no
    chapter URL occurs twice in the collected table of contents,
    [seen_links] holds exactly its chapter URLs, no volume heading is empty
    and no volume heading directly follows an equal one. *)
Theorem toc_walk_collects_each_chapter_once (fuel : nat) (book_url : str)
    (e : ending exn) (w : walk) :
  toc_walk exn get_page parse_toc_page urljoin remove_furigana fuel book_url
  = Some (e, w) →
  toc_consistent (toc_items w) (seen_links w).
Proof.
  apply toc_loop_consistent. unfold toc_start, toc_consistent. cbn.
  split; [apply NoDup_nil_2|]. split; [set_solver|]. split; [set_solver|done].
Qed.

End WalkItems.

(** Two pages that both open with the heading [V] and that both list
    chapter [1]; the text of a page is its URL. *)
Definition two_page_toc (page : str) (_ : bool) : Toc.toc_page :=
  if bool_decide (page = lit "A") then
    {| Toc.page_title := lit "T"; Toc.page_author := []; Toc.page_summary := [];
       Toc.items := [Toc.Volume (lit "V"); Toc.Volume (lit " V ");
                     Toc.ChapterLink (lit "1") (lit "one")];
       Toc.page_next := lit "B" |}
  else
    {| Toc.page_title := []; Toc.page_author := []; Toc.page_summary := [];
       Toc.items := [Toc.Volume (lit "V"); Toc.ChapterLink (lit "1") (lit "one");
                     Toc.ChapterLink (lit "2") (lit "two")];
       Toc.page_next := [] |}.

Example toc_walk_two_page_toc :
  (λ r, Toc.toc_items r.2) <$>
    Toc.toc_walk unit (λ u, Ok u) two_page_toc (λ _ href, href) false 3 (lit "A")
  = Some [Toc.Volume (lit "V"); Toc.ChapterLink (lit "1") (lit "one");
          Toc.Volume (lit "V"); Toc.ChapterLink (lit "2") (lit "two")].
Proof. vm_compute. reflexivity. Qed.

Lemma toc_walk_collects_each_chapter_once_witness :
  ∃ e w,
    Toc.toc_walk unit (λ u, Ok u) two_page_toc (λ _ href, href) false 3 (lit "A")
    = Some (e, w)
    ∧ toc_consistent (Toc.toc_items w) (Toc.seen_links w).
Proof.
  destruct (Toc.toc_walk unit (λ u, Ok u) two_page_toc (λ _ href, href) false 3
              (lit "A")) as [[e w]|] eqn:H.
  - exists e, w. split; [reflexivity|].
    exact (toc_walk_collects_each_chapter_once (λ u, Ok u) two_page_toc
             (λ _ href, href) false 3 (lit "A") e w H).
  - vm_compute in H. discriminate H.
Defined.

(** ** Volumes *)

Section VolumeFacts.

Import Volumes.

Variable selected : option (gset str).

(** The chapters [build_volumes] keeps: those with a URL that is selected. *)
Definition kept (href : str) : Prop :=
  negb (is_nil href) && is_selected selected href = true.

Local Instance kept_dec href : Decision (kept href).
Proof. unfold kept. apply _. Defined.

Definition is_heading (it : Toc.item) : bool :=
  match it with Toc.Volume _ => true | Toc.ChapterLink _ _ => false end.

(** What the loop of [build_volumes] maintains: [current] is the last
    element of [volumes], and the volumes hold, in order, the kept chapters
    of the items read so far. *)
Definition volumes_inv (toc_items : list Toc.item) (st : state) : Prop :=
  match current st with
  | None => volumes st = []
  | Some c => S c = length (volumes st)
  end
  ∧ mjoin (vol_chapters <$> volumes st) = filter kept (chapter_hrefs toc_items)
  ∧ found_volume st = existsb is_heading toc_items
  ∧ Forall (λ v, vol_title v ≠ []) (volumes st)
  ∧ vol_index st = length (volumes st).

Lemma volume_title_or_nonempty (title : str) (n : nat) :
  volume_title_or title n ≠ [].
Proof.
  unfold volume_title_or. destruct (strip title) eqn:Hs; [|done].
  cbn [is_nil]. discriminate.
Qed.

Lemma alter_last {A} (f : A → A) (l : list A) (c : nat) :
  S c = length l →
  ∃ init x, l = init ++ [x] ∧ alter f c l = init ++ [f x].
Proof.
  intros Hc. destruct (decide (l = [])) as [->|Hne]; [done|].
  destruct (exists_last Hne) as (init & x & ->).
  exists init, x. split; [done|].
  rewrite length_app in Hc. simpl in Hc.
  replace c with (length init + 0)%nat by lia.
  by rewrite alter_app_r.
Qed.

Lemma new_volume_inv toc_items st title found it :
  volumes_inv toc_items st → title ≠ [] →
  chapter_hrefs [it] = [] →
  found = existsb is_heading (toc_items ++ [it]) →
  volumes_inv (toc_items ++ [it]) (new_volume title found st).
Proof.
  intros (Hcur & Hch & Hfound & Htitles & Hidx) Ht Hit ->.
  unfold volumes_inv, new_volume. cbn [volumes current vol_index found_volume].
  rewrite length_app, fmap_app, join_app, chapter_hrefs_app, Hit. cbn.
  rewrite !app_nil_r. repeat split; try done; try lia.
  apply Forall_app. split; [done|]. by constructor.
Qed.

Lemma step_inv toc_items st it :
  volumes_inv toc_items st →
  volumes_inv (toc_items ++ [it]) (step selected st it).
Proof.
  intros Hinv. destruct it as [title|href title]; unfold step.
  - apply new_volume_inv; [done|apply volume_title_or_nonempty|done|].
    rewrite existsb_app. simpl. by rewrite !orb_true_r.
  - set (st' := match current st with
                | None => new_volume _ _ st
                | Some _ => st
                end).
    assert (volumes_inv toc_items st' ∧ is_Some (current st')) as [Hinv' [c Hc]].
    { subst st'. destruct (current st) as [c|] eqn:Hcur; [by rewrite Hcur|].
      split; [|by eexists].
      destruct Hinv as (Hcur' & Hch & Hfound & Htitles & Hidx).
      rewrite Hcur in Hcur'.
      unfold volumes_inv, new_volume. cbn [volumes current vol_index found_volume].
      rewrite Hidx. rewrite Hcur' in *. cbn. cbn in Hch.
      repeat split; try done. repeat constructor. discriminate. }
    clearbody st'. clear Hinv.
    destruct Hinv' as (Hcur & Hch & Hfound & Htitles & Hidx).
    rewrite Hc in Hcur.
    assert (existsb is_heading (toc_items ++ [Toc.ChapterLink href title])
            = existsb is_heading toc_items) as Hex.
    { rewrite existsb_app. simpl. by rewrite !orb_false_r. }
    assert (chapter_hrefs (toc_items ++ [Toc.ChapterLink href title])
            = chapter_hrefs toc_items ++ [href]) as Hhrefs.
    { by rewrite chapter_hrefs_app. }
    destruct (negb (is_nil href) && is_selected selected href) eqn:Hkeep.
    + unfold append_chapter. rewrite Hc.
      unfold volumes_inv. cbn [volumes current vol_index found_volume].
      rewrite Hex, Hhrefs, filter_app, filter_cons_True, filter_nil by done.
      destruct (alter_last
                  (λ v, mkVolume (vol_title v) (vol_chapters v ++ [href])) _ c Hcur)
        as (init & v & Hvols & ->).
      rewrite Hvols in *. rewrite !fmap_app, !join_app in *. cbn in *.
      rewrite !app_nil_r in *. rewrite !length_app in *. cbn in *.
      repeat split; try done; try lia.
      * by rewrite <- Hch, app_assoc.
      * apply Forall_app in Htitles as [Hinit Hv]. apply Forall_app.
        split; [done|]. constructor; [|done]. by inversion Hv.
    + unfold volumes_inv. rewrite Hc, Hex, Hhrefs, filter_app.
      rewrite filter_cons_False, filter_nil, app_nil_r; [done|].
      unfold kept. by rewrite Hkeep.
Qed.

Lemma build_volumes_inv toc_items :
  volumes_inv toc_items
    (foldl (step selected)
       {| volumes := []; current := None; vol_index := 0; found_volume := false |}
       toc_items).
Proof.
  induction toc_items as [|it toc_items IH] using rev_ind; [done|].
  rewrite foldl_app. simpl. by apply step_inv.
Qed.

(** X13: read volume after volume, the chapters of the volumes that
    [build_volumes] returns are the chapters of the table of contents that
    have a URL and are selected, each as often as it occurs there and in the
    same order; every volume has a title; and [found_volume] tells whether
    the table of contents has a volume heading. *)
Theorem build_volumes_keeps_selected_chapters (toc_items : list Toc.item) :
  mjoin (vol_chapters <$> (build_volumes toc_items selected).1)
  = filter kept (chapter_hrefs toc_items)
  ∧ Forall (λ v, vol_title v ≠ []) (build_volumes toc_items selected).1
  ∧ ((build_volumes toc_items selected).2 = true
     ↔ ∃ title, Toc.Volume title ∈ toc_items).
Proof.
  destruct (build_volumes_inv toc_items) as (_ & Hch & Hfound & Htitles & _).
  unfold build_volumes. cbn [fst snd]. split; [done|]. split; [done|].
  rewrite Hfound, existsb_exists. split.
  - intros ([t|h t] & Hin%list_elem_of_In & His); [by exists t|done].
  - intros (t & Hin). exists (Toc.Volume t). by rewrite <- list_elem_of_In.
Qed.

End VolumeFacts.

(** ** Volume breaks *)

Lemma enumerate_snoc {A} (l : list A) (x : A) :
  enumerate (l ++ [x]) = enumerate l ++ [(length l, x)].
Proof.
  unfold enumerate. rewrite imap_app. simpl. by rewrite Nat.add_0_r.
Qed.

Lemma index_map_snoc (chapters : list Chapter) (c : Chapter) :
  index_map (chapters ++ [c])
  = <[ch_url c := length chapters]> (index_map chapters).
Proof. unfold index_map. by rewrite enumerate_snoc, foldl_app. Qed.

(** The index of a URL is the position of the last chapter with that URL. *)
Lemma index_map_lookup (chapters : list Chapter) (url : str) (j : nat) :
  index_map chapters !! url = Some j →
  ch_url <$> chapters !! j = Some url
  ∧ ∀ k c, chapters !! k = Some c → ch_url c = url → (k ≤ j)%nat.
Proof.
  revert j. induction chapters as [|c chapters IH] using rev_ind; intros j.
  - unfold index_map. simpl. by rewrite lookup_empty.
  - rewrite index_map_snoc. destruct (decide (ch_url c = url)) as [<-|Hne].
    + rewrite lookup_insert_eq. intros [= <-].
      rewrite lookup_app_r, Nat.sub_diag by lia. split; [done|].
      intros k c' Hk _. apply lookup_lt_Some in Hk.
      rewrite length_app in Hk. simpl in Hk. lia.
    + rewrite lookup_insert_ne by done. intros [Hj Hlast]%IH. split.
      * destruct (chapters !! j) as [cj|] eqn:Hcj; [|done].
        by rewrite (lookup_app_l_Some _ _ _ _ Hcj).
      * intros k c' Hk Hurl.
        apply lookup_app_Some in Hk as [Hk|[Hle Hk]]; [by eapply Hlast|].
        destruct (k - length chapters)%nat; simpl in Hk; [|done].
        injection Hk as <-. done.
Qed.

Lemma foldl_min_spec (i : nat) (l : list nat) :
  foldl Nat.min i l ∈ i :: l ∧ ∀ j, j ∈ i :: l → (foldl Nat.min i l ≤ j)%nat.
Proof.
  revert i. induction l as [|x l IH]; intros i; simpl.
  - split; [left|]. by intros j ->%list_elem_of_singleton.
  - destruct (IH (i `min` x)%nat) as [Hin Hle]. split.
    + apply elem_of_cons in Hin as [->|Hin]; [|by do 2 right].
      destruct (Nat.min_spec i x) as [[_ ->]|[_ ->]]; [left|right; left].
    + intros j Hj. assert (i `min` x ≤ j ∨ j ∈ l)%nat as [Hj'|Hj'].
      { apply elem_of_cons in Hj as [->|Hj]; [left; lia|].
        apply elem_of_cons in Hj as [->|Hj]; [left; lia|by right]. }
      * etrans; [apply Hle; left|done].
      * apply Hle. by right.
Qed.

Lemma foldl_max_spec (i : nat) (l : list nat) :
  foldl Nat.max i l ∈ i :: l ∧ ∀ j, j ∈ i :: l → (j ≤ foldl Nat.max i l)%nat.
Proof.
  revert i. induction l as [|x l IH]; intros i; simpl.
  - split; [left|]. by intros j ->%list_elem_of_singleton.
  - destruct (IH (i `max` x)%nat) as [Hin Hle]. split.
    + apply elem_of_cons in Hin as [->|Hin]; [|by do 2 right].
      destruct (Nat.max_spec i x) as [[_ ->]|[_ ->]]; [right; left|left].
    + intros j Hj. assert (j ≤ i `max` x ∨ j ∈ l)%nat as [Hj'|Hj'].
      { apply elem_of_cons in Hj as [->|Hj]; [left; lia|].
        apply elem_of_cons in Hj as [->|Hj]; [left; lia|by right]. }
      * etrans; [done|apply Hle; left].
      * apply Hle. by right.
Qed.

(** The break [(title, first, last)] belongs to the volume [v], the one at
    position [i] of [volumes]. *)
Definition break_of (chapters : list Chapter) (i : nat) (v : Volume)
    (b : str * nat * nat) : Prop :=
  b.1.1 = volume_title_or (vol_title v) (i + 1)
  ∧ (∃ url, url ∈ vol_chapters v ∧ ch_url <$> chapters !! b.1.2 = Some url)
  ∧ (∃ url, url ∈ vol_chapters v ∧ ch_url <$> chapters !! b.2 = Some url)
  ∧ ∀ k c, chapters !! k = Some c → ch_url c ∈ vol_chapters v →
           (b.1.2 ≤ k ≤ b.2)%nat
           ∨ ∃ k', (k < k')%nat ∧ ch_url <$> chapters !! k' = Some (ch_url c).

Lemma build_volume_breaks_snoc volumes v chapters :
  build_volume_breaks (volumes ++ [v]) chapters
  = build_volume_breaks volumes chapters
    ++ match omap (λ url, index_map chapters !! url) (vol_chapters v) with
       | [] => []
       | i :: indices' =>
           [(volume_title_or (vol_title v) (length volumes + 1),
             foldl Nat.min i indices', foldl Nat.max i indices')]
       end.
Proof.
  unfold build_volume_breaks. rewrite enumerate_snoc, foldl_app. cbn.
  destruct (omap _ _); [by rewrite app_nil_r|done].
Qed.

(** X14: every break that [build_volume_breaks] returns belongs to one of
    the volumes: it carries the title of the volume, it starts and ends at
    chapters of the volume, with [first <= last < len(chapters)], and a
    chapter of the volume outside the break has a later chapter with the
    same URL.  The breaks come in the order of the volumes. *)
Theorem build_volume_breaks_within_chapters (volumes : list Volume)
    (chapters : list Chapter) (b : str * nat * nat) :
  b ∈ build_volume_breaks volumes chapters →
  (b.1.2 ≤ b.2 < length chapters)%nat
  ∧ b.1.1 ≠ []
  ∧ ∃ i v, volumes !! i = Some v ∧ break_of chapters i v b.
Proof.
  induction volumes as [|v volumes IH] using rev_ind.
  - unfold build_volume_breaks. simpl. by intros ?%elem_of_nil.
  - rewrite build_volume_breaks_snoc.
    intros [Hin|Hin]%elem_of_app.
    { destruct (IH Hin) as (Hle & Ht & i & v' & Hi & Hb).
      split; [done|]. split; [done|]. exists i, v'. split; [|done].
      by apply lookup_app_l_Some. }
    destruct (omap _ _) as [|i0 indices'] eqn:Hind; [by apply elem_of_nil in Hin|].
    apply list_elem_of_singleton in Hin as ->. cbn [fst snd].
    destruct (foldl_min_spec i0 indices') as [Hmin_in Hmin].
    destruct (foldl_max_spec i0 indices') as [Hmax_in Hmax].
    rewrite <- Hind in Hmin_in, Hmax_in.
    assert (∀ j, j ∈ omap (λ url, index_map chapters !! url) (vol_chapters v) →
                 ∃ url, url ∈ vol_chapters v
                        ∧ index_map chapters !! url = Some j) as Hsrc.
    { intros j (url & Hurl & Hj)%list_elem_of_omap. by exists url. }
    destruct (Hsrc _ Hmin_in) as (url_s & Hs_in & Hs).
    destruct (Hsrc _ Hmax_in) as (url_e & He_in & He).
    apply index_map_lookup in Hs as [Hs _].
    pose proof He as He'. apply index_map_lookup in He as [He _].
    split; [|split].
    + split; [apply Hmin; by rewrite <- Hind|].
      apply lookup_lt_is_Some_1.
      destruct (chapters !! foldl Nat.max i0 indices'); [by eexists|done].
    + apply volume_title_or_nonempty.
    + exists (length volumes), v. split.
      { by rewrite lookup_app_r, Nat.sub_diag by lia. }
      unfold break_of. cbn [fst snd]. split; [done|].
      split; [by exists url_s|]. split; [by exists url_e|].
      intros k c Hk Hc.
      destruct (index_map chapters !! ch_url c) as [j|] eqn:Hj.
      * assert (j ∈ i0 :: indices') as Hjin.
        { rewrite <- Hind. apply list_elem_of_omap. by exists (ch_url c). }
        pose proof (Hmin _ Hjin). pose proof (Hmax _ Hjin).
        apply index_map_lookup in Hj as [Hj Hlast].
        pose proof (Hlast k c Hk eq_refl).
        destruct (decide (k = j)) as [->|Hne]; [left; lia|].
        destruct (decide (foldl Nat.min i0 indices' ≤ k)%nat); [left; lia|].
        right. exists j. split; [lia|done].
      * exfalso. clear -Hk Hj.
        assert (∀ chs url, index_map chs !! url = None →
                  ∀ k c, chs !! k = Some c → ch_url c ≠ url) as Hnone.
        { induction chs as [|c' chs IHc] using rev_ind; [done|].
          intros url. rewrite index_map_snoc.
          intros [Hne Hnone]%lookup_insert_None k' c'' Hk'.
          apply lookup_app_Some in Hk' as [Hk'|[_ Hk']]; [by eapply IHc|].
          destruct (k' - length chs)%nat; simpl in Hk'; [|done].
          by injection Hk' as <-. }
        by eapply Hnone.
Qed.

(** Three chapters and two volumes: the second volume has no title and
    lists a chapter that was not downloaded. *)
Definition three_chapters : list Chapter :=
  [mkChapter (lit "one") [] (lit "A"); mkChapter (lit "two") [] (lit "B");
   mkChapter (lit "three") [] (lit "C")].

Definition two_volumes : list Volume :=
  [mkVolume (lit "V1") [lit "A"; lit "B"]; mkVolume [] [lit "X"; lit "C"]].

Example build_volume_breaks_two_volumes :
  build_volume_breaks two_volumes three_chapters
  = [(lit "V1", 0, 1); (lit "Volume 2", 2, 2)]%nat.
Proof. vm_compute. reflexivity. Qed.

Lemma build_volume_breaks_within_chapters_witness :
  (lit "Volume 2", 2, 2)%nat ∈ build_volume_breaks two_volumes three_chapters
  ∧ (2 ≤ 2 < length three_chapters)%nat.
Proof.
  assert ((lit "Volume 2", 2, 2)%nat
          ∈ build_volume_breaks two_volumes three_chapters) as Hin.
  { rewrite build_volume_breaks_two_volumes. right. left. }
  split; [exact Hin|].
  exact (proj1 (build_volume_breaks_within_chapters two_volumes three_chapters
                  _ Hin)).
Defined.

(** ** The selection of volumes *)

Section VolumeSelectionFacts.

Variable lower : str → str.
Variable int : str → option Z.

(** Every selected number is the 1-based number of a volume. *)
Definition within (max_index : Z) (result : gset Z) : Prop :=
  ∀ n, n ∈ result → (1 ≤ n ≤ max_index)%Z.

Lemma within_add (max_index n : Z) (result : gset Z) :
  (1 ≤ n ≤ max_index)%Z → within max_index result →
  within max_index ({[ n ]} ∪ result).
Proof.
  intros Hn Hres m [->%elem_of_singleton|Hm]%elem_of_union; [done|by apply Hres].
Qed.

Lemma add_numbers_within (max_index : Z) (numbers : list Z)
    (acc : option (gset Z)) (result' : gset Z) :
  (∀ n, n ∈ numbers → (1 ≤ n)%Z) →
  (∀ result, acc = Some result → within max_index result) →
  foldl (λ acc n,
    result ← acc;
    if (max_index <? n)%Z then None else Some ({[ n ]} ∪ result))
    acc numbers = Some result' →
  within max_index result'.
Proof.
  revert acc. induction numbers as [|n numbers IH]; intros acc Hpos Hacc; simpl.
  - intros ->. by apply Hacc.
  - apply IH; [intros m Hm; apply Hpos; by right|].
    intros result. destruct acc as [result0|]; [|done]. simpl.
    destruct (max_index <? n)%Z eqn:Hlt; [done|]. intros [= <-].
    apply Z.ltb_ge in Hlt. apply within_add; [|by apply Hacc].
    split; [apply Hpos; left|done].
Qed.

Lemma add_part_within (max_index : Z) (result result' : gset Z) (part : str) :
  within max_index result →
  add_part int max_index result part = Some result' →
  within max_index result'.
Proof.
  intros Hres. unfold add_part.
  destruct (is_nil part); [by intros [= <-]|].
  destruct (char_in (chr "-") part).
  - destruct (_ || _); [done|].
    destruct (int (take_while (λ c, negb (c =? chr "-")) part)) as [a|];
      [|done]. simpl.
    destruct (int (drop _ part)) as [b|]; [|done]. simpl.
    destruct (_ || _) eqn:Hab; [done|].
    apply orb_false_elim in Hab as [[Ha _]%orb_false_elim _].
    apply Z.ltb_ge in Ha.
    unfold add_range. apply add_numbers_within.
    + intros n Hn. unfold range in Hn. apply elem_of_seqZ in Hn. lia.
    + by intros ? [= <-].
  - destruct (int part) as [n|]; [|done]. simpl.
    destruct (_ || _) eqn:Hn; [done|]. intros [= <-].
    apply orb_false_elim in Hn as [H1%Z.ltb_ge H2%Z.ltb_ge].
    apply within_add; [lia|done].
Qed.

(** X15: whatever text is given, a selection that [parse_volume_selection]
    accepts for [max_index = len(display_volumes)] holds only numbers from 1
    to that length, so that [display_volumes[i - 1]] in [main] is the
    volume numbered [i] and never raises. *)
Theorem parse_volume_selection_within_volumes {A} (display_volumes : list A)
    (text : str) (selected : gset Z) :
  parse_volume_selection lower int text (Z.of_nat (length display_volumes))
  = Some selected →
  ∀ i, i ∈ selected →
    (1 ≤ i ≤ Z.of_nat (length display_volumes))%Z
    ∧ list_index display_volumes (i - 1)
      = display_volumes !! Z.to_nat (i - 1)
    ∧ is_Some (list_index display_volumes (i - 1)).
Proof.
  intros Hparse.
  assert (within (Z.of_nat (length display_volumes)) selected) as Hin.
  { unfold parse_volume_selection in Hparse. case_bool_decide.
    - injection Hparse as <-. intros n Hn%elem_of_list_to_set.
      unfold range in Hn. apply elem_of_seqZ in Hn. lia.
    - destruct (foldl _ _ _) as [result|] eqn:Hfold; [|done]. simpl in Hparse.
      case_bool_decide; [done|]. injection Hparse as <-.
      revert Hfold. generalize (re_split (lower (strip text))).
      assert (∀ result0, Some (∅ : gset Z) = Some result0 →
                within (Z.of_nat (length display_volumes)) result0) as Hacc.
      { intros ? [= <-] n Hn. by apply elem_of_empty in Hn. }
      revert Hacc. generalize (Some (∅ : gset Z)).
      intros acc Hacc parts. revert acc Hacc.
      induction parts as [|part parts IH]; intros acc Hacc; simpl.
      + intros ->. by apply Hacc.
      + apply IH. intros result0. destruct acc as [result1|]; [|done]. simpl.
        apply add_part_within. by apply Hacc. }
  intros i Hi. specialize (Hin i Hi).
  assert (list_index display_volumes (i - 1)
          = display_volumes !! Z.to_nat (i - 1)) as Hidx.
  { unfold list_index. destruct (0 <=? i - 1)%Z eqn:Hle; [done|].
    apply Z.leb_gt in Hle. lia. }
  split; [done|]. split; [done|]. rewrite Hidx.
  apply lookup_lt_is_Some_2. lia.
Qed.

End VolumeSelectionFacts.

(** [int] on the strings of ASCII digits, and on nothing else. *)
Definition int_sample (s : str) : option Z :=
  if is_nil s then None
  else foldl (λ acc c,
         a ← acc;
         if (48 <=? c) && (c <=? 57) then Some (10 * a + Z.of_N (c - 48))%Z
         else None) (Some 0%Z) s.

Example parse_volume_selection_example :
  (λ selected : gset Z, filter (.∈ selected) (range 0 7))
    <$> parse_volume_selection id int_sample (lit " 4, 1-2 ") 5
  = Some [1; 2; 4]%Z
  ∧ parse_volume_selection id int_sample (lit "1,6") 5 = None
  ∧ parse_volume_selection id int_sample (lit "2-") 5 = None.
Proof. vm_compute. done. Qed.

Lemma parse_volume_selection_within_volumes_witness :
  ∃ selected,
    parse_volume_selection id int_sample (lit " 4, 1-2 ")
      (Z.of_nat (length five_links)) = Some selected
    ∧ ∀ i, i ∈ selected →
        (1 ≤ i ≤ Z.of_nat (length five_links))%Z
        ∧ list_index five_links (i - 1) = five_links !! Z.to_nat (i - 1)
        ∧ is_Some (list_index five_links (i - 1)).
Proof.
  destruct (parse_volume_selection id int_sample (lit " 4, 1-2 ")
              (Z.of_nat (length five_links))) as [selected|] eqn:H.
  - exists selected. split; [reflexivity|].
    exact (parse_volume_selection_within_volumes id int_sample five_links
             (lit " 4, 1-2 ") selected H).
  - vm_compute in H. discriminate H.
Defined.

(** ** The images of a book *)

(** The elements of [l], each at its first occurrence only. *)
Definition first_occurrences {A} `{EqDecision A} (l : list A) : list A :=
  reverse (remove_dups (reverse l)).

Lemma first_occurrences_snoc {A} `{EqDecision A} (l : list A) (x : A) :
  first_occurrences (l ++ [x])
  = if decide (x ∈ l) then first_occurrences l else first_occurrences l ++ [x].
Proof.
  unfold first_occurrences. rewrite reverse_snoc. cbn [remove_dups].
  destruct (decide_rel elem_of x (reverse l)) as [Hin|Hin];
    rewrite elem_of_reverse in Hin; destruct (decide (x ∈ l)); try done.
  by rewrite reverse_cons.
Qed.

Lemma first_occurrences_NoDup {A} `{EqDecision A} (l : list A) :
  NoDup (first_occurrences l).
Proof.
  unfold first_occurrences. rewrite reverse_Permutation.
  apply NoDup_remove_dups.
Qed.

Lemma elem_of_first_occurrences {A} `{EqDecision A} (l : list A) (x : A) :
  x ∈ first_occurrences l ↔ x ∈ l.
Proof.
  unfold first_occurrences.
  by rewrite elem_of_reverse, elem_of_remove_dups, elem_of_reverse.
Qed.

Section ImageFacts.

Variable unescape : str → str.
Variable urljoin : str → str → str.
Variable img_tag_srcs : str → list str.

(** The normalized source of every image tag of the book that has one, in
    the order of the text. *)
Definition paragraph_images (chap_base para : str) : list str :=
  if is_nil para || is_block_marker para then []
  else
    raw_src ← img_tag_srcs para;
    if is_nil raw_src then []
    else [normalize_image_src unescape urljoin raw_src chap_base].

Definition chapter_images (base_url : str) (chap : Chapter) : list str :=
  let chap_base := if is_nil (ch_url chap) then base_url else ch_url chap in
  para ← ch_paragraphs chap; paragraph_images chap_base para.

Definition book_images (chapters : list Chapter) (base_url : str) : list str :=
  chap ← chapters; chapter_images base_url chap.

(** [sources] and [seen] after the images [found] have been met. *)
Definition sources_of (found : list str) (acc : list str * gset str) : Prop :=
  acc.1 = first_occurrences found ∧ ∀ x, x ∈ acc.2 ↔ x ∈ found.

Lemma add_image_sources_of chap_base found acc raw_srcs :
  sources_of found acc →
  sources_of
    (found ++ (raw_src ← raw_srcs;
               if is_nil raw_src then []
               else [normalize_image_src unescape urljoin raw_src chap_base]))
    (foldl (add_image_source unescape urljoin chap_base) acc raw_srcs).
Proof.
  revert found acc.
  induction raw_srcs as [|raw raw_srcs IH]; intros found acc Hacc; csimpl.
  - by rewrite app_nil_r.
  - unfold add_image_source at 2. destruct (is_nil raw); [by apply IH|].
    rewrite (app_assoc found). apply IH.
    destruct Hacc as [Hsrc Hseen]. unfold sources_of.
    rewrite first_occurrences_snoc.
    case_bool_decide as Hin; rewrite Hseen in Hin.
    + rewrite decide_True by done. split; [done|].
      intros x. rewrite Hseen, elem_of_app, list_elem_of_singleton.
      split; [by left|]. by intros [?| ->].
    + rewrite decide_False by done. cbn [fst snd]. split; [by rewrite Hsrc|].
      intros x. rewrite elem_of_union, elem_of_singleton, Hseen, elem_of_app,
        list_elem_of_singleton. tauto.
Qed.

Lemma chapter_sources_of base_url found acc chap :
  sources_of found acc →
  sources_of (found ++ chapter_images base_url chap)
    (foldl (λ acc para,
       if is_nil para || is_block_marker para then acc
       else foldl (add_image_source unescape urljoin
                     (if is_nil (ch_url chap) then base_url else ch_url chap))
              acc (img_tag_srcs para))
       acc (ch_paragraphs chap)).
Proof.
  unfold chapter_images. revert found acc.
  induction (ch_paragraphs chap) as [|para paras IH]; intros found acc Hacc; csimpl.
  - by rewrite app_nil_r.
  - rewrite app_assoc. apply IH. unfold paragraph_images.
    destruct (_ || _); [by rewrite app_nil_r|].
    by apply add_image_sources_of.
Qed.

Lemma extract_image_sources_found (chapters : list Chapter) (base_url : str) :
  extract_image_sources unescape urljoin img_tag_srcs chapters base_url
  = first_occurrences (book_images chapters base_url).
Proof.
  unfold extract_image_sources, book_images.
  assert (sources_of [] ([], ∅)) as Hacc.
  { split; [done|]. intros x. cbn. set_solver. }
  revert Hacc. generalize (([], ∅) : list str * gset str).
  rewrite <- (app_nil_l (chapters ≫= _)). generalize (@nil str).
  induction chapters as [|chap chapters IH]; intros found acc Hacc; csimpl.
  - rewrite app_nil_r. apply Hacc.
  - rewrite app_assoc. apply IH. by apply chapter_sources_of.
Qed.

(** X16: [extract_image_sources] lists the normalized source of every
    image tag in the paragraphs of the book, in the order of the text and
    each at its first occurrence only: no source is listed twice and none
    is left out. *)
Theorem extract_image_sources_first_occurrences (chapters : list Chapter)
    (base_url : str) :
  extract_image_sources unescape urljoin img_tag_srcs chapters base_url
  = first_occurrences (book_images chapters base_url)
  ∧ NoDup (extract_image_sources unescape urljoin img_tag_srcs chapters base_url)
  ∧ ∀ src,
      src ∈ extract_image_sources unescape urljoin img_tag_srcs chapters base_url
      ↔ src ∈ book_images chapters base_url.
Proof.
  rewrite extract_image_sources_found.
  split; [done|]. split; [apply first_occurrences_NoDup|].
  intros src. apply elem_of_first_occurrences.
Qed.

End ImageFacts.

(** ** File names *)

Lemma drop_while_suffix {A} (p : A → bool) (l : list A) :
  drop_while p l `suffix_of` l.
Proof.
  induction l as [|x l IH]; simpl; [done|].
  destruct (p x); [by apply suffix_cons_r|done].
Qed.

Lemma pop_while_prefix {A} (p : A → bool) (l : list A) :
  pop_while p l `prefix_of` l.
Proof.
  unfold pop_while. destruct (drop_while_suffix p (reverse l)) as [k Hk].
  exists (reverse k). apply (inj reverse).
  by rewrite reverse_app, !reverse_involutive.
Qed.

Lemma pop_while_subseteq {A} (p : A → bool) (l : list A) :
  pop_while p l ⊆ l.
Proof. intros x Hx. destruct (pop_while_prefix p l) as [k ->]. set_solver. Qed.

Lemma drop_while_subseteq {A} (p : A → bool) (l : list A) :
  drop_while p l ⊆ l.
Proof. intros x Hx. destruct (drop_while_suffix p l) as [k ->]. set_solver. Qed.

Lemma pop_while_length {A} (p : A → bool) (l : list A) :
  (length (pop_while p l) ≤ length l)%nat.
Proof. apply prefix_length, pop_while_prefix. Qed.

Lemma collapse_spaces_chars (in_run : bool) (name : str) (c : char) :
  c ∈ collapse_spaces in_run name → c ∈ name ∨ c = chr " ".
Proof.
  revert in_run. induction name as [|x name IH]; intros in_run; simpl.
  - by intros ?%elem_of_nil.
  - destruct (isspace x), in_run.
    all: rewrite ?elem_of_cons; intros H; set_solver.
Qed.

(** A name without the characters that [_sanitize_filename] removes,
    which is not empty and does not end with a space or a period. *)
Definition clean_name (name : str) : Prop :=
  name ≠ []
  ∧ (∀ c, c ∈ name → forbidden_char c = false)
  ∧ ∀ c, last name = Some c → c ≠ chr " " ∧ c ≠ chr ".".

Lemma rstrip_space_dot_last (name : str) (c : char) :
  last (rstrip_space_dot name) = Some c → c ≠ chr " " ∧ c ≠ chr ".".
Proof.
  intros H%pop_while_last. split; intros ->; by vm_compute in H.
Qed.

Lemma underscore_clean (name : str) : clean_name name → clean_name (chr "_" :: name).
Proof.
  intros (Hne & Hchars & Hlast). split; [done|]. split.
  - intros c [->|Hc]%elem_of_cons; [done|by apply Hchars].
  - intros c. destruct name; [done|]. apply Hlast.
Qed.

Section FilenameFacts.

Variable upper : str → str.
(** [str.upper] leaves an underscore at the start of a string in place. *)
Hypothesis upper_underscore :
  ∀ name, head (upper (chr "_" :: name)) = Some (chr "_").

Lemma underscore_not_reserved (name : str) :
  is_reserved upper (chr "_" :: name) = false.
Proof.
  unfold is_reserved. apply bool_decide_eq_false_2. intros Hin.
  pose proof (upper_underscore name) as Hhead.
  destruct (upper (chr "_" :: name)) as [|c u]; [done|].
  injection Hhead as ->.
  vm_compute in Hin.
  repeat (apply elem_of_cons in Hin as [Hin|Hin]; [discriminate Hin|]).
  by apply elem_of_nil in Hin.
Qed.

(** The last two steps of [_sanitize_filename] and of [safe_filename]. *)
Definition or_default_unreserved (name default : str) : str :=
  let name := if is_nil name then default else name in
  if is_reserved upper name then chr "_" :: name else name.

Lemma or_default_unreserved_clean (name default : str) :
  clean_name default →
  (∀ c, c ∈ name → forbidden_char c = false) →
  (∀ c, last name = Some c → c ≠ chr " " ∧ c ≠ chr ".") →
  clean_name (or_default_unreserved name default)
  ∧ is_reserved upper (or_default_unreserved name default) = false.
Proof.
  intros Hdef Hchars Hlast. unfold or_default_unreserved.
  assert (clean_name (if is_nil name then default else name)) as Hclean.
  { destruct name; [done|]. by split. }
  destruct (is_reserved upper _) eqn:Hres.
  - split; [by apply underscore_clean|apply underscore_not_reserved].
  - done.
Qed.

Lemma sanitize_filename_clean (name default : str) :
  clean_name default →
  clean_name (_sanitize_filename upper name default)
  ∧ is_reserved upper (_sanitize_filename upper name default) = false.
Proof.
  intros Hdef. apply (or_default_unreserved_clean _ default Hdef).
  - intros c Hc%pop_while_subseteq%pop_while_subseteq%drop_while_subseteq.
    apply collapse_spaces_chars in Hc as [Hc%list_elem_of_filter| ->]; [|done].
    by destruct Hc.
  - apply rstrip_space_dot_last.
Qed.

(** X17: when the default name is a clean one and [str.upper] keeps a
    leading underscore, the name [safe_filename] returns is never empty,
    holds none of the characters that are forbidden in file names, does not
    end with a space or a period, is not a reserved device name, and is at
    most one character longer than [max_length]. *)
Theorem safe_filename_is_safe (name default : str) (max_length : Z) :
  clean_name default →
  clean_name (safe_filename upper name default max_length)
  ∧ is_reserved upper (safe_filename upper name default max_length) = false
  ∧ ((0 < max_length)%Z → (Z.of_nat (length default) ≤ max_length)%Z →
     (Z.of_nat (length (safe_filename upper name default max_length))
      ≤ max_length + 1)%Z).
Proof.
  intros Hdef.
  destruct (sanitize_filename_clean name default Hdef)
    as [(Hne & Hchars & Hlast) _].
  set (sanitized := _sanitize_filename upper name default) in *.
  assert ((∀ c, c ∈ _truncate_filename sanitized max_length →
                forbidden_char c = false)
          ∧ (∀ c, last (_truncate_filename sanitized max_length) = Some c →
                  c ≠ chr " " ∧ c ≠ chr ".")
          ∧ ((0 < max_length)%Z →
             (Z.of_nat (length (_truncate_filename sanitized max_length))
              ≤ max_length)%Z)) as (Htchars & Htlast & Htlen).
  { unfold _truncate_filename.
    destruct (0 <? max_length)%Z eqn:Hpos; cbn [andb].
    - destruct (max_length <? _)%Z eqn:Hlong.
      + split; [|split].
        * intros c Hc%pop_while_subseteq. apply Hchars.
          by eapply subseteq_take.
        * apply rstrip_space_dot_last.
        * intros _. unfold rstrip_space_dot.
          pose proof (pop_while_length (λ c, char_in c [chr " "; chr "."])
                        (take (Z.to_nat max_length) sanitized)) as Hle.
          rewrite length_take in Hle. lia.
      + apply Z.ltb_ge in Hlong. done.
    - apply Z.ltb_ge in Hpos. split; [done|]. split; [done|]. lia. }
  destruct (or_default_unreserved_clean
              (_truncate_filename sanitized max_length) default Hdef Htchars Htlast)
    as [Hclean Hres].
  split; [exact Hclean|]. split; [exact Hres|].
  intros Hpos Hdeflen. specialize (Htlen Hpos).
  change (safe_filename upper name default max_length)
    with (or_default_unreserved (_truncate_filename sanitized max_length) default).
  unfold or_default_unreserved.
  clear Hclean Hres.
  destruct (is_nil (_truncate_filename sanitized max_length));
    case_match; cbn [length]; lia.
Qed.

End FilenameFacts.

(** [str.upper] on ASCII text. *)
Definition upper_sample (s : str) : str :=
  (λ c, if (97 <=? c) && (c <=? 122) then c - 32 else c) <$> s.

Lemma upper_sample_underscore (name : str) :
  head (upper_sample (chr "_" :: name)) = Some (chr "_").
Proof. reflexivity. Qed.

Lemma syosetu_clean : clean_name (lit "syosetu").
Proof.
  split; [done|]. split.
  - intros c Hc. vm_compute in Hc.
    repeat (apply elem_of_cons in Hc as [->|Hc]; [done|]).
    by apply elem_of_nil in Hc.
  - intros c [= <-]. done.
Qed.

Example safe_filename_examples :
  safe_filename upper_sample (lit "  a/b:   c?. ") (lit "syosetu") 120 = lit "ab c"
  ∧ safe_filename upper_sample (lit "con") (lit "syosetu") 120 = lit "_con"
  ∧ safe_filename upper_sample (lit "<?>") (lit "syosetu") 120 = lit "syosetu"
  ∧ safe_filename upper_sample (lit "com1. x") (lit "syosetu") 5 = lit "_com1".
Proof. vm_compute. done. Qed.

Lemma safe_filename_is_safe_witness :
  clean_name (lit "syosetu")
  ∧ clean_name (safe_filename upper_sample (lit "com1. x") (lit "syosetu") 5)
  ∧ is_reserved upper_sample
      (safe_filename upper_sample (lit "com1. x") (lit "syosetu") 5) = false.
Proof.
  split; [exact syosetu_clean|].
  pose proof (safe_filename_is_safe upper_sample upper_sample_underscore
                (lit "com1. x") (lit "syosetu") 5 syosetu_clean) as (H1 & H2 & _).
  exact (conj H1 H2).
Defined.

(** ** The selection of chapters *)

Lemma mapM_list_index_range {A} (l : list A) (m : nat) (n : nat) :
  (m + n ≤ length l)%nat →
  mapM (list_index l) (seqZ (Z.of_nat m) (Z.of_nat n)) = Some (take n (drop m l)).
Proof.
  revert m. induction n as [|n IH]; intros m Hlen.
  - by rewrite take_0.
  - rewrite seqZ_cons by lia.
    replace (Z.pred (Z.of_nat (S n))) with (Z.of_nat n) by lia.
    replace (Z.succ (Z.of_nat m)) with (Z.of_nat (S m)) by lia.
    cbn [mapM]. rewrite IH by lia.
    unfold list_index at 1.
    destruct (0 <=? Z.of_nat m)%Z eqn:Hpos; [|apply Z.leb_gt in Hpos; lia].
    rewrite Nat2Z.id.
    destruct (lookup_lt_is_Some_2 l m) as [x Hx]; [lia|].
    rewrite Hx. cbn. by rewrite (drop_S _ _ _ Hx).
Qed.

Section ChapterSelectionFacts.

Variable isdecimal : char → bool.
Variable int : str → option Z.

Lemma parse_number_range_ordered (text : str) (a b : Z) :
  parse_number_range isdecimal int text = Ok (Some (a, b)) → (1 ≤ a ≤ b)%Z.
Proof.
  unfold parse_number_range.
  destruct (match_range isdecimal (strip text)) as [[ga gb]|].
  - destruct (int ga) as [a'|]; [|done]. destruct (int gb) as [b'|]; [|done].
    destruct (_ || _) eqn:Hab; [done|]. intros [= <- <-].
    apply orb_false_elim in Hab as [[Ha%Z.ltb_ge Hb]%orb_false_elim Hba%Z.ltb_ge].
    lia.
  - destruct (match_number isdecimal (strip text)) as [g|]; [|done].
    destruct (int g) as [value|]; [|done].
    destruct (value <? 1)%Z eqn:Hv; [done|]. intros [= <- <-].
    apply Z.ltb_ge in Hv. lia.
Qed.

Lemma select_chapters_range (chapter_links : list str) (args_chapters : str) :
  chapter_links ≠ [] →
  select_chapters isdecimal int chapter_links args_chapters
  = if is_nil args_chapters then Selected chapter_links
    else
      match parse_number_range isdecimal int args_chapters with
      | Raise _ => SelectionRaised
      | Ok None => InvalidRange
      | Ok (Some (a, b)) =>
          if (Z.of_nat (length chapter_links) <? b)%Z then InvalidRange
          else Selected (take (Z.to_nat (b - a + 1))
                           (drop (Z.to_nat (a - 1)) chapter_links))
      end.
Proof.
  intros Hne. unfold select_chapters.
  assert (is_nil chapter_links = false) as -> by by destruct chapter_links.
  destruct (is_nil args_chapters); cbn [negb].
  - unfold range. rewrite Z.sub_0_r.
    rewrite (mapM_list_index_range chapter_links 0) by lia.
    by rewrite drop_0, firstn_all.
  - destruct (parse_number_range isdecimal int args_chapters)
      as [[[a b]|]|] eqn:Hparse; [|done..].
    apply parse_number_range_ordered in Hparse.
    destruct (_ <? b)%Z eqn:Hlen; [done|]. apply Z.ltb_ge in Hlen.
    unfold range.
    replace (a - 1)%Z with (Z.of_nat (Z.to_nat (a - 1))) at 1 2 by lia.
    replace (b - Z.of_nat (Z.to_nat (a - 1)))%Z
      with (Z.of_nat (Z.to_nat (b - a + 1))) by lia.
    rewrite mapM_list_index_range by lia. done.
Qed.

Lemma select_chapters_selected (chapter_links selected_links : list str)
    (args_chapters : str) :
  select_chapters isdecimal int chapter_links args_chapters
  = Selected selected_links →
  selected_links ≠ [] ∧ selected_links `sublist_of` chapter_links.
Proof.
  destruct (decide (chapter_links = [])) as [->|Hne]; [done|].
  rewrite (select_chapters_range _ _ Hne).
  destruct (is_nil args_chapters); [by intros [= <-]|].
  destruct (parse_number_range isdecimal int args_chapters)
    as [[[a b]|]|] eqn:Hparse; [|done..].
  apply parse_number_range_ordered in Hparse.
  destruct (_ <? b)%Z eqn:Hlen; [done|]. apply Z.ltb_ge in Hlen.
  intros [= <-]. split.
  - intros Hnil%(f_equal length). rewrite length_take, length_drop in Hnil.
    simpl in Hnil. lia.
  - etrans; [apply sublist_take|apply sublist_drop].
Qed.

(** X18: a chapter range [a-b] that [main] accepts selects the chapters
    numbered [a] to [b], counting from 1, in their order, and at least one
    of them: the indexing of [chapter_links] never raises, and without the
    option every chapter is selected.  The range is refused when
    [parse_number_range] refuses it or when [b] exceeds the number of
    chapters. *)
Theorem select_chapters_takes_the_range (chapter_links : list str)
    (args_chapters : str) :
  chapter_links ≠ [] →
  select_chapters isdecimal int chapter_links args_chapters
  = (if is_nil args_chapters then Selected chapter_links
     else
       match parse_number_range isdecimal int args_chapters with
       | Raise _ => SelectionRaised
       | Ok None => InvalidRange
       | Ok (Some (a, b)) =>
           if (Z.of_nat (length chapter_links) <? b)%Z then InvalidRange
           else Selected (take (Z.to_nat (b - a + 1))
                            (drop (Z.to_nat (a - 1)) chapter_links))
       end)
  ∧ ∀ selected_links,
      select_chapters isdecimal int chapter_links args_chapters
      = Selected selected_links →
      selected_links ≠ [] ∧ selected_links `sublist_of` chapter_links.
Proof.
  intros Hne. split; [by apply select_chapters_range|].
  intros selected_links. apply select_chapters_selected.
Qed.

Lemma filter_iff_in {A} (P Q : A → Prop) `{!∀ x, Decision (P x)}
    `{!∀ x, Decision (Q x)} (l : list A) :
  (∀ x, x ∈ l → P x ↔ Q x) → filter P l = filter Q l.
Proof.
  induction l as [|x l IH]; intros HPQ; [done|].
  assert (filter P l = filter Q l) as Hl.
  { apply IH. intros y Hy. apply HPQ. by right. }
  destruct (decide (P x)) as [HP|HP].
  - rewrite !filter_cons_True; [by rewrite Hl|by apply HPQ; [left|]|done].
  - rewrite !filter_cons_False; [done| |done].
    intros HQ. apply HP. apply HPQ; [left|done].
Qed.

Lemma filter_sublist_NoDup {A} `{EqDecision A} (s l : list A) :
  NoDup l → s `sublist_of` l → filter (.∈ s) l = s.
Proof.
  intros Hnd Hsub. induction Hsub as [|x s l Hsub IH|x s l Hsub IH].
  - done.
  - apply NoDup_cons in Hnd as [Hx Hnd].
    rewrite filter_cons_True by left. f_equal.
    etrans; [|exact (IH Hnd)]. apply filter_iff_in.
    intros y Hy. rewrite elem_of_cons. split; [|by right].
    intros [->|?]; done.
  - apply NoDup_cons in Hnd as [Hx Hnd].
    rewrite filter_cons_False; [by apply IH|].
    intros Hin. apply Hx. by eapply sublist_subseteq.
Qed.

(** X19: when no chapter URL of the table of contents is empty or occurs
    twice, the volumes that [main] builds for the selected chapters hold,
    read volume after volume, exactly the selected chapters in their
    order: none is lost at a volume boundary and none is added. *)
Theorem volumes_hold_the_selected_chapters (toc_items : list Toc.item)
    (args_chapters : str) (selected_links : list str) :
  NoDup (chapter_hrefs toc_items) →
  [] ∉ chapter_hrefs toc_items →
  select_chapters isdecimal int (chapter_hrefs toc_items) args_chapters
  = Selected selected_links →
  mjoin (vol_chapters
         <$> (Volumes.build_volumes toc_items
                (Some (list_to_set selected_links))).1)
  = selected_links.
Proof.
  intros Hnd Hempty [_ Hsub]%select_chapters_selected.
  destruct (build_volumes_inv (Some (list_to_set selected_links)) toc_items)
    as (_ & Hch & _).
  unfold Volumes.build_volumes. cbn [fst]. rewrite Hch.
  etrans;
    [|exact (filter_sublist_NoDup selected_links (chapter_hrefs toc_items)
               Hnd Hsub)].
  apply filter_iff_in. intros h Hh. unfold kept, Volumes.is_selected.
  rewrite andb_true_iff, bool_decide_eq_true, elem_of_list_to_set.
  split; [by intros [_ ?]|]. intros Hin. split; [|done].
  destruct h; [done|done].
Qed.

End ChapterSelectionFacts.

(** The class [\d] on ASCII text. *)
Definition isdecimal_sample (c : char) : bool := (48 <=? c) && (c <=? 57).

Example parse_number_range_examples :
  parse_number_range isdecimal_sample int_sample (lit " 2 - 4 ") = Ok (Some (2, 4)%Z)
  ∧ parse_number_range isdecimal_sample int_sample (lit "7") = Ok (Some (7, 7)%Z)
  ∧ parse_number_range isdecimal_sample int_sample (lit "4-2") = Ok None
  ∧ parse_number_range isdecimal_sample int_sample (lit "0") = Ok None
  ∧ parse_number_range isdecimal_sample int_sample (lit "2-4x") = Ok None.
Proof. vm_compute. done. Qed.

Lemma select_chapters_takes_the_range_witness :
  five_links ≠ []
  ∧ select_chapters isdecimal_sample int_sample five_links (lit "2 - 4")
    = Selected [lit "B"; lit "C"; lit "D"].
Proof.
  assert (five_links ≠ []) as Hne by done.
  split; [exact Hne|].
  exact (proj1 (select_chapters_takes_the_range isdecimal_sample int_sample
                  five_links (lit "2 - 4") Hne)).
Defined.

(** Five chapters in two volumes. *)
Definition five_in_two_volumes : list Toc.item :=
  [Toc.Volume (lit "V1"); Toc.ChapterLink (lit "A") (lit "a");
   Toc.ChapterLink (lit "B") (lit "b"); Toc.Volume (lit "V2");
   Toc.ChapterLink (lit "C") (lit "c"); Toc.ChapterLink (lit "D") (lit "d");
   Toc.ChapterLink (lit "E") (lit "e")].

Example build_volumes_five_in_two_volumes :
  Volumes.build_volumes five_in_two_volumes
    (Some (list_to_set [lit "B"; lit "C"; lit "D"]))
  = ([mkVolume (lit "V1") [lit "B"]; mkVolume (lit "V2") [lit "C"; lit "D"]],
     true).
Proof. vm_compute. reflexivity. Qed.

Lemma volumes_hold_the_selected_chapters_witness :
  NoDup (chapter_hrefs five_in_two_volumes)
  ∧ ([] ∉ chapter_hrefs five_in_two_volumes)
  ∧ select_chapters isdecimal_sample int_sample
      (chapter_hrefs five_in_two_volumes) (lit "2-4")
    = Selected [lit "B"; lit "C"; lit "D"]
  ∧ mjoin (vol_chapters
           <$> (Volumes.build_volumes five_in_two_volumes
                  (Some (list_to_set [lit "B"; lit "C"; lit "D"]))).1)
    = [lit "B"; lit "C"; lit "D"].
Proof.
  assert (NoDup (chapter_hrefs five_in_two_volumes)) as Hnd.
  { apply (bool_decide_unpack _). by vm_compute. }
  assert ([] ∉ chapter_hrefs five_in_two_volumes) as Hne.
  { apply (bool_decide_unpack _). by vm_compute. }
  assert (select_chapters isdecimal_sample int_sample
            (chapter_hrefs five_in_two_volumes) (lit "2-4")
          = Selected [lit "B"; lit "C"; lit "D"]) as Hsel by reflexivity.
  split; [exact Hnd|]. split; [exact Hne|]. split; [exact Hsel|].
  exact (volumes_hold_the_selected_chapters isdecimal_sample int_sample
           five_in_two_volumes (lit "2-4") _ Hnd Hne Hsel).
Defined.

(** ** The rules of the text file *)

(** No two rules (separator lines) of [lines] have only empty lines between
    them; [after_rule] tells that the last line before [lines] that is not
    empty is a rule. *)
Fixpoint rules_apart_from (after_rule : bool) (lines : list str) : bool :=
  match lines with
  | [] => true
  | ln :: lines' =>
      if is_nil ln then rules_apart_from after_rule lines'
      else if bool_decide (ln = SEPARATOR_LINE)
           then negb after_rule && rules_apart_from true lines'
           else rules_apart_from false lines'
  end.

(** Whether the last line that is not empty is a rule. *)
Fixpoint rule_state (after_rule : bool) (lines : list str) : bool :=
  match lines with
  | [] => after_rule
  | ln :: lines' =>
      rule_state (if is_nil ln then after_rule
                  else bool_decide (ln = SEPARATOR_LINE)) lines'
  end.

Lemma rules_apart_app (after_rule : bool) (l1 l2 : list str) :
  rules_apart_from after_rule (l1 ++ l2)
  = rules_apart_from after_rule l1
    && rules_apart_from (rule_state after_rule l1) l2.
Proof.
  revert after_rule. induction l1 as [|ln l1 IH]; intros a; simpl; [done|].
  destruct (is_nil ln); [apply IH|].
  case_bool_decide; [|apply IH]. by rewrite IH, andb_assoc.
Qed.

Lemma rule_state_app (after_rule : bool) (l1 l2 : list str) :
  rule_state after_rule (l1 ++ l2) = rule_state (rule_state after_rule l1) l2.
Proof. revert after_rule. induction l1 as [|ln l1 IH]; intros a; simpl; auto. Qed.

(** The test [last == SEPARATOR_LINE] of [append_block]. *)
Lemma rule_state_last_text (lines : list str) :
  rule_state false lines
  = bool_decide (default [] (head (filter (λ ln, ln ≠ []) (reverse lines)))
                 = SEPARATOR_LINE).
Proof.
  induction lines as [|ln lines IH] using rev_ind; [done|].
  rewrite rule_state_app, reverse_snoc. cbn [rule_state].
  destruct ln as [|c ln]; cbn [is_nil].
  - rewrite filter_cons_False by (by intros ?). apply IH.
  - by rewrite filter_cons_True by done.
Qed.

Lemma no_rule_apart (after_rule : bool) (lines : list str) :
  Forall (λ ln, ln ≠ SEPARATOR_LINE) lines →
  rules_apart_from after_rule lines = true.
Proof.
  intros Hall. revert after_rule.
  induction Hall as [|ln lines Hln _ IH]; intros a; simpl; [done|].
  destruct (is_nil ln); [apply IH|]. by rewrite bool_decide_eq_false_2.
Qed.

Lemma rule_then_text_apart (after_rule : bool) (block : list str) :
  Forall (λ ln, ln ≠ SEPARATOR_LINE) block →
  rules_apart_from after_rule (SEPARATOR_LINE :: block) = negb after_rule.
Proof.
  intros Hall. cbn [rules_apart_from].
  change (is_nil SEPARATOR_LINE) with false. cbv iota.
  rewrite bool_decide_eq_true_2 by done.
  by rewrite no_rule_apart, andb_true_r.
Qed.

(** What [append_block] does with a block that opens with a rule and has no
    other rule. *)
Lemma append_block_apart (lines block : list str) :
  Forall (λ ln, ln ≠ SEPARATOR_LINE) block →
  rules_apart_from false lines = true →
  rules_apart_from false (append_block lines (SEPARATOR_LINE :: block)) = true.
Proof.
  intros Hblock Hlines.
  assert (∀ pad added,
            Forall (λ ln, ln = []) pad →
            (if rule_state false lines
             then Forall (λ ln, ln ≠ SEPARATOR_LINE) added
             else added = SEPARATOR_LINE :: block) →
            rules_apart_from false ((lines ++ pad) ++ added) = true) as Hadd.
  { intros pad added Hpad Hadded.
    rewrite !rules_apart_app, rule_state_app, Hlines. cbn [andb].
    assert (∀ a, rules_apart_from a pad = true ∧ rule_state a pad = a)
      as Hblank.
    { intros a. induction Hpad as [|? pad -> _ IH]; [done|]. apply IH. }
    destruct (Hblank (rule_state false lines)) as [-> ->]. cbn [andb].
    destruct (rule_state false lines).
    - by apply no_rule_apart.
    - subst added. by rewrite rule_then_text_apart. }
  assert (∀ block1,
            (if rule_state false lines
             then Forall (λ ln, ln ≠ SEPARATOR_LINE) block1
             else block1 = SEPARATOR_LINE :: block) →
            rules_apart_from false
              (default lines
                 ((if negb (is_nil lines) && bool_decide (last lines = Some [])
                   then
                     if is_nil (drop_while is_nil block1) then None
                     else Some (drop_while is_nil block1)
                   else Some block1) ≫= λ block2,
                  Some ((if negb (is_nil lines)
                            && negb (bool_decide (last lines = Some []))
                            && negb (bool_decide (head block2 = Some []))
                         then lines ++ [[]] else lines) ++ block2))) = true)
    as Hrest.
  { intros block1 Hblock1.
    assert (if rule_state false lines
            then Forall (λ ln, ln ≠ SEPARATOR_LINE) (drop_while is_nil block1)
            else drop_while is_nil block1 = SEPARATOR_LINE :: block) as Hdrop.
    { destruct (rule_state false lines); [|by subst block1].
      eapply Forall_forall. intros ln Hln%drop_while_subseteq.
      by eapply Forall_forall in Hblock1. }
    destruct (negb (is_nil lines) && bool_decide (last lines = Some [])).
    - destruct (is_nil (drop_while is_nil block1)); [done|].
      cbn [mbind option_bind default].
      destruct (_ && _).
      + by apply (Hadd [[]]); [repeat constructor|].
      + rewrite <- (app_nil_r lines) at 1. by apply (Hadd []).
    - cbn [mbind option_bind default].
      destruct (_ && _).
      + by apply (Hadd [[]]); [repeat constructor|].
      + rewrite <- (app_nil_r lines) at 1. by apply (Hadd []). }
  unfold append_block. cbn [is_nil mbind option_bind head tail].
  rewrite (bool_decide_eq_true_2 (Some SEPARATOR_LINE = Some SEPARATOR_LINE))
    by reflexivity.
  rewrite <- rule_state_last_text.
  destruct (rule_state false lines) eqn:Hstate.
  - destruct block as [|ln block']; cbn [is_nil mbind option_bind default];
      [exact Hlines|].
    by apply Hrest.
  - cbn [mbind option_bind]. by apply Hrest.
Qed.

(** Every block of [section_map] opens with a rule and has no other. *)
Lemma section_get_rule (para : str) (section : list str) :
  section_get para = Some section →
  ∃ block, section = SEPARATOR_LINE :: block
           ∧ Forall (λ ln, ln ≠ SEPARATOR_LINE) block.
Proof.
  unfold section_get. intros Hget.
  destruct (head _) as [[key sec]|] eqn:Hhead; [|done].
  injection Hget as <-.
  apply head_Some_elem_of, list_elem_of_filter in Hhead as [_ Hin].
  unfold section_map in Hin.
  repeat (apply elem_of_cons in Hin as [[= _ ->]|Hin];
          [eexists; split; [reflexivity|]; by repeat constructor|]).
  by apply elem_of_nil in Hin.
Qed.

Section TxtRules.

Variable unescape : str → str.
Variable replace_img_tags_for_txt : str → str → str.

(** [out_lines] of [write_txt], as it is handed to [join]. *)
Definition txt_lines (title author : str) (chapters : list Chapter)
    (book_url : str) : list str :=
  let out_lines := [title] in
  let out_lines :=
    if is_nil author then out_lines
    else out_lines ++ [[20316; 32773; 65306] ++ author] in
  let out_lines := out_lines ++ [[]] in
  foldl (λ out_lines chap,
    let out_lines := out_lines ++ [ch_title chap] in
    let out_lines := out_lines ++ [[]] in
    let chap_base := if is_nil (ch_url chap) then book_url else ch_url chap in
    let out_lines :=
      render_paragraphs unescape replace_img_tags_for_txt chap_base
        (ch_paragraphs chap) out_lines in
    out_lines ++ [[]]) out_lines chapters.

(** Neither the title of the chapter nor the text of one of its paragraphs
    is itself a rule. *)
Definition plain_chapter (book_url : str) (chap : Chapter) : Prop :=
  ch_title chap ≠ SEPARATOR_LINE
  ∧ ∀ para, para ∈ ch_paragraphs chap →
      unescape (html_to_text
                  (replace_img_tags_for_txt para
                     (if is_nil (ch_url chap) then book_url else ch_url chap)))
      ≠ SEPARATOR_LINE.

Lemma snoc_apart (lines : list str) (ln : str) :
  ln ≠ SEPARATOR_LINE →
  rules_apart_from false lines = true →
  rules_apart_from false (lines ++ [ln]) = true.
Proof.
  intros Hln Hlines. rewrite rules_apart_app, Hlines.
  apply no_rule_apart. by repeat constructor.
Qed.

Lemma render_paragraphs_apart (chap_base : str) (paras out_lines : list str) :
  (∀ para, para ∈ paras →
     unescape (html_to_text (replace_img_tags_for_txt para chap_base))
     ≠ SEPARATOR_LINE) →
  rules_apart_from false out_lines = true →
  rules_apart_from false
    (render_paragraphs unescape replace_img_tags_for_txt chap_base paras out_lines)
  = true.
Proof.
  unfold render_paragraphs. revert out_lines.
  induction paras as [|para paras IH]; intros out_lines Hplain Hout; [done|].
  cbn [foldl]. apply IH; [intros p Hp; apply Hplain; by right|].
  destruct (section_get para) as [section|] eqn:Hsec.
  - apply section_get_rule in Hsec as (block & -> & Hblock).
    by apply append_block_apart.
  - destruct (is_nil para); [by apply snoc_apart|].
    apply snoc_apart; [|done]. apply Hplain. left.
Qed.

(** X20: when neither the title of the book, nor the title of a chapter,
    nor the text of a paragraph is itself a separator line, the lines that
    [write_txt] joins never have two separator lines with only empty lines
    between them: the rule that closes a preface and the rule of a
    separator paragraph right after it come out as one rule. *)
Theorem write_txt_rules_apart (title author : str) (chapters : list Chapter)
    (book_url : str) :
  title ≠ SEPARATOR_LINE →
  Forall (plain_chapter book_url) chapters →
  write_txt unescape replace_img_tags_for_txt title author chapters book_url
  = strip (join_lines (txt_lines title author chapters book_url)) ++ [LF]
  ∧ rules_apart_from false (txt_lines title author chapters book_url) = true.
Proof.
  intros Htitle Hchapters. split; [reflexivity|].
  unfold txt_lines.
  assert (rules_apart_from false
            ((if is_nil author then [title]
              else [title] ++ [[20316; 32773; 65306] ++ author]) ++ [[]])
          = true) as Hhead.
  { apply snoc_apart; [done|]. destruct (is_nil author).
    - by apply (snoc_apart []).
    - apply snoc_apart; [done|]. by apply (snoc_apart []). }
  revert Hhead. generalize ((if is_nil author then [title]
              else [title] ++ [[20316; 32773; 65306] ++ author]) ++ [[]]).
  induction Hchapters as [|chap chapters [Hct Hparas] _ IH];
    intros out_lines Hout; [done|].
  cbn [foldl]. apply IH. apply snoc_apart; [done|].
  apply render_paragraphs_apart; [done|].
  apply snoc_apart; [done|]. by apply snoc_apart.
Qed.

End TxtRules.

(** A chapter whose preface is directly followed by a separator paragraph. *)
Definition preface_then_separator : Chapter :=
  mkChapter (lit "C1")
    [MARK_PREFACE; lit "hello"; MARK_PREFACE_END; []; MARK_SEPARATOR;
     lit "text"]
    (lit "u").

Example txt_lines_preface_then_separator :
  txt_lines id (λ para _, para) (lit "T") [] [preface_then_separator] []
  = [lit "T"; []; lit "C1"; []; SEPARATOR_LINE; []; [21069; 26360; 12365]; [];
     lit "hello"; []; SEPARATOR_LINE; []; lit "text"; []].
Proof. by vm_compute. Qed.

Lemma preface_then_separator_plain : plain_chapter id (λ para _, para) [] preface_then_separator.
Proof.
  split; [by vm_compute|]. intros para Hin.
  unfold preface_then_separator in Hin. cbn [ch_paragraphs] in Hin.
  repeat (apply elem_of_cons in Hin as [->|Hin]; [by vm_compute|]).
  by apply elem_of_nil in Hin.
Qed.

Lemma write_txt_rules_apart_witness :
  lit "T" ≠ SEPARATOR_LINE
  ∧ Forall (plain_chapter id (λ para _, para) []) [preface_then_separator]
  ∧ rules_apart_from false
      (txt_lines id (λ para _, para) (lit "T") [] [preface_then_separator] [])
    = true.
Proof.
  assert (lit "T" ≠ SEPARATOR_LINE) as Htitle by by vm_compute.
  assert (Forall (plain_chapter id (λ para _, para) []) [preface_then_separator])
    as Hplain by (constructor; [exact preface_then_separator_plain|constructor]).
  split; [exact Htitle|]. split; [exact Hplain|].
  exact (proj2 (write_txt_rules_apart id (λ para _, para) (lit "T") []
                  [preface_then_separator] [] Htitle Hplain)).
Defined.

(** ** Separator handling settles *)

Section SeparatorSettles.

Variable unescape : str → str.

Lemma separator_marker : MARK_SEPARATOR ∈ markers.
Proof. unfold markers. set_solver. Qed.

Lemma as_separator_blank (para : str) :
  is_blank_para unescape para = true → as_separator unescape para = para.
Proof.
  unfold is_blank_para, as_separator.
  case_bool_decide as Hnil; [by rewrite orb_true_r|].
  case_bool_decide as Hm; [done|]. cbn [orb].
  destruct (contains _ _); [done|]. intros Hblank.
  destruct (is_separator_line _) eqn:Hsep; [|done].
  apply separator_line_not_blank in Hsep. congruence.
Qed.

Lemma as_separator_idem (para : str) :
  as_separator unescape (as_separator unescape para) = as_separator unescape para.
Proof.
  assert (as_separator unescape MARK_SEPARATOR = MARK_SEPARATOR) as Hmark.
  { unfold as_separator.
    by rewrite (bool_decide_eq_true_2 _ separator_marker). }
  assert (as_separator unescape para = para
          ∨ as_separator unescape para = MARK_SEPARATOR) as [Heq|Heq].
  { unfold as_separator. destruct (_ || _); [by left|].
    destruct (is_separator_line _); [by right|by left]. }
  - by rewrite !Heq.
  - by rewrite !Heq.
Qed.

Lemma apply_separator_handling_marked (paragraphs : list str) (para : str) :
  para ∈ apply_separator_handling unescape paragraphs →
  as_separator unescape para = para.
Proof.
  intros Hin.
  destruct (is_blank_para unescape para) eqn:Hblank;
    [by apply as_separator_blank|].
  assert (para ∈ filter (λ p, is_blank_para unescape p = false)
                   (apply_separator_handling unescape paragraphs)) as Hvis.
  { by apply list_elem_of_filter. }
  unfold apply_separator_handling in Hvis.
  destruct (is_nil paragraphs) eqn:Hnil.
  - destruct paragraphs; [|done]. by apply elem_of_nil in Hvis.
  - rewrite normalize_separator_spacing_visible, apply_separator_handling_fold
      in Hvis.
    apply list_elem_of_filter in Hvis as [_ Hvis]. simpl in Hvis.
    apply list_elem_of_fmap in Hvis as (para0 & -> & _).
    apply as_separator_idem.
Qed.

(** X21: separator handling settles in one pass: applied to its own output
    it changes nothing, and in that output no paragraph other than the
    markers and the empty ones reads as a separator line. *)
Theorem apply_separator_handling_idempotent (paragraphs : list str) :
  apply_separator_handling unescape
    (apply_separator_handling unescape paragraphs)
  = apply_separator_handling unescape paragraphs
  ∧ ∀ para, para ∈ apply_separator_handling unescape paragraphs →
      para ∉ markers → para ≠ [] →
      is_separator_line (unescape (html_to_text para)) = false.
Proof.
  split.
  - pose proof (apply_separator_handling_marked paragraphs) as Hmarked.
    assert (separators_flanked unescape
              (apply_separator_handling unescape paragraphs)) as Hflanked.
    { unfold apply_separator_handling. destruct (is_nil paragraphs) eqn:Hnil.
      - destruct paragraphs; [|done]. intros pre post H. by destruct pre.
      - apply normalize_separator_spacing_flanked. }
    revert Hmarked Hflanked.
    generalize (apply_separator_handling unescape paragraphs).
    intros out Hmarked Hflanked. unfold apply_separator_handling.
    destruct (is_nil out); [done|].
    rewrite apply_separator_handling_fold. cbn [app].
    assert (as_separator unescape <$> out = out) as ->.
    { clear Hflanked. induction out as [|para out IH]; [done|]. csimpl.
      rewrite Hmarked by left. f_equal. apply IH.
      intros p Hp. apply Hmarked. by right. }
    by apply normalize_separator_spacing_fixed.
  - intros para Hin Hm Hne.
    pose proof (apply_separator_handling_marked paragraphs para Hin) as Hfix.
    unfold as_separator in Hfix.
    rewrite (bool_decide_eq_false_2 _ Hm), (bool_decide_eq_false_2 _ Hne)
      in Hfix. cbn [orb] in Hfix.
    destruct (is_separator_line _); [|done].
    exfalso. apply Hm. rewrite <- Hfix. apply separator_marker.
Qed.

End SeparatorSettles.

(** ** The table-of-contents parser *)

(** Splits a goal about one call of a handler of [TocParser] into the
    branches of the handler. *)
Ltac toc_handler_cases :=
  unfold TocParser.dispatch, TocParser.handle_starttag,
    TocParser.handle_endtag, TocParser.handle_data;
  repeat (case_match; try done);
  unfold TocParser.set_title_parts, TocParser.set_author_parts,
    TocParser.set_summary_parts, TocParser.set_items, TocParser.set_next_url,
    TocParser.set_ruby_skip_depth, TocParser.set_in_title,
    TocParser.set_in_author, TocParser.set_eplist_depth,
    TocParser.set_in_volume_title, TocParser.set_volume_parts,
    TocParser.set_in_chapter_link, TocParser.set_chapter_parts,
    TocParser.set_chapter_href, TocParser.set_summary_depth in *;
  cbn [TocParser.title_parts TocParser.author_parts TocParser.summary_parts
       TocParser.items TocParser.next_url TocParser._remove_furigana
       TocParser._ruby_skip_depth TocParser._in_title TocParser._in_author
       TocParser._eplist_depth TocParser._in_volume_title
       TocParser._volume_parts TocParser._in_chapter_link
       TocParser._chapter_parts TocParser._chapter_href
       TocParser._summary_depth] in *.

Section TocParserFacts.

Variable isdigit : char → bool.

(** A volume heading has a title and a chapter link has a target. *)
Definition item_complete (it : Toc.item) : Prop :=
  match it with
  | Toc.Volume title => title ≠ []
  | Toc.ChapterLink href _ => href ≠ []
  end.

Lemma toc_handle_starttag_items tag attrs self :
  TocParser.items (TocParser.handle_starttag tag attrs self)
  = TocParser.items self.
Proof. toc_handler_cases. Qed.

Lemma toc_handle_data_items data self :
  TocParser.items (TocParser.handle_data isdigit data self)
  = TocParser.items self.
Proof. toc_handler_cases. Qed.

Lemma toc_handle_endtag_items tag self :
  ∃ added,
    TocParser.items (TocParser.handle_endtag tag self)
    = TocParser.items self ++ added
    ∧ ((∀ href, TocParser._chapter_href self = Some href → href ≠ []) →
       Forall item_complete added).
Proof.
  unfold TocParser.handle_endtag.
  repeat (case_match; try done).
  all: unfold TocParser.set_title_parts, TocParser.set_author_parts,
    TocParser.set_summary_parts, TocParser.set_items, TocParser.set_next_url,
    TocParser.set_ruby_skip_depth, TocParser.set_in_title,
    TocParser.set_in_author, TocParser.set_eplist_depth,
    TocParser.set_in_volume_title, TocParser.set_volume_parts,
    TocParser.set_in_chapter_link, TocParser.set_chapter_parts,
    TocParser.set_chapter_href, TocParser.set_summary_depth in *.
  all: cbn [TocParser.items TocParser._chapter_href] in *.
  all: try (exists []; by rewrite app_nil_r).
  all: eexists [_]; split; [done|]; intros Hhref; repeat constructor.
  all: cbn [item_complete]; try by apply Hhref.
  all: by destruct (strip _).
Qed.

(** The link being read has a target. *)
Definition href_kept (self : TocParser.parser) : Prop :=
  ∀ href, TocParser._chapter_href self = Some href → href ≠ [].

Lemma toc_handle_starttag_href tag attrs self :
  href_kept self → href_kept (TocParser.handle_starttag tag attrs self).
Proof.
  unfold href_kept. intros Hself href. toc_handler_cases; auto.
  intros [= <-]. by intros ->.
Qed.

Lemma toc_handle_endtag_href tag self :
  href_kept self → href_kept (TocParser.handle_endtag tag self).
Proof. unfold href_kept. intros Hself href. toc_handler_cases; auto. Qed.

Lemma toc_handle_data_href data self :
  href_kept self → href_kept (TocParser.handle_data isdigit data self).
Proof. unfold href_kept. intros Hself href. toc_handler_cases; auto. Qed.

Lemma toc_dispatch_items self e :
  href_kept self →
  href_kept (TocParser.dispatch isdigit self e)
  ∧ ∃ added,
      TocParser.items (TocParser.dispatch isdigit self e)
      = TocParser.items self ++ added
      ∧ Forall item_complete added.
Proof.
  intros Hself. destruct e as [tag attrs|tag attrs|tag|data];
    cbn [TocParser.dispatch].
  - split; [by apply toc_handle_starttag_href|].
    exists []. by rewrite toc_handle_starttag_items, app_nil_r.
  - pose proof (toc_handle_starttag_href tag attrs self Hself) as Hstart.
    split; [by apply toc_handle_endtag_href|].
    destruct (toc_handle_endtag_items tag
                (TocParser.handle_starttag tag attrs self))
      as (added & Heq & Hadded).
    exists added. rewrite Heq, toc_handle_starttag_items. auto.
  - split; [by apply toc_handle_endtag_href|].
    destruct (toc_handle_endtag_items tag self) as (added & Heq & Hadded).
    exists added. auto.
  - split; [by apply toc_handle_data_href|].
    exists []. by rewrite toc_handle_data_items, app_nil_r.
Qed.

Lemma toc_feed_app events1 events2 rf :
  TocParser.feed isdigit (events1 ++ events2) rf
  = foldl (TocParser.dispatch isdigit) (TocParser.feed isdigit events1 rf)
      events2.
Proof. unfold TocParser.feed. apply foldl_app. Qed.

Lemma toc_foldl_items events self :
  href_kept self →
  href_kept (foldl (TocParser.dispatch isdigit) self events)
  ∧ ∃ added,
      TocParser.items (foldl (TocParser.dispatch isdigit) self events)
      = TocParser.items self ++ added
      ∧ Forall item_complete added.
Proof.
  revert self. induction events as [|e events IH]; intros self Hself.
  - split; [done|]. exists []. by rewrite app_nil_r.
  - cbn [foldl].
    destruct (toc_dispatch_items self e Hself) as (Hnext & added1 & Heq1 & Hc1).
    destruct (IH _ Hnext) as (Hend & added2 & Heq2 & Hc2).
    split; [done|]. exists (added1 ++ added2).
    rewrite Heq2, Heq1, <- app_assoc. split; [done|]. by apply Forall_app.
Qed.

(** X22: whatever the markup of a table-of-contents page, every volume
    heading that [TocParser] records has a title that is not empty and
    every chapter link it records has a target that is not empty; and the
    items recorded from the start of a page remain, unchanged and in place,
    whatever markup follows. *)
Theorem toc_parser_items_complete (events1 events2 : list event) (rf : bool) :
  Forall item_complete (TocParser.items (TocParser.feed isdigit events1 rf))
  ∧ TocParser.items (TocParser.feed isdigit events1 rf)
    `prefix_of` TocParser.items (TocParser.feed isdigit (events1 ++ events2) rf).
Proof.
  assert (href_kept (TocParser.init rf)) as Hinit by done.
  split.
  - destruct (toc_foldl_items events1 _ Hinit) as (_ & added & Heq & Hc).
    unfold TocParser.feed. by rewrite Heq.
  - rewrite toc_feed_app. unfold TocParser.feed.
    destruct (toc_foldl_items events1 _ Hinit) as (Hmid & _).
    destruct (toc_foldl_items events2 _ Hmid) as (_ & added & Heq & _).
    rewrite Heq. by exists added.
Qed.

Lemma toc_dispatch_next_url self e :
  TocParser.next_url self ≠ [] →
  TocParser.next_url (TocParser.dispatch isdigit self e)
  = TocParser.next_url self.
Proof.
  intros Hset.
  assert (is_nil (TocParser.next_url self) = false) as Hnil
    by by destruct (TocParser.next_url self).
  assert (∀ tag attrs,
            TocParser.next_url (TocParser.handle_starttag tag attrs self)
            = TocParser.next_url self) as Hstart.
  { intros tag attrs. unfold TocParser.handle_starttag.
    rewrite Hnil, andb_false_r. toc_handler_cases. }
  assert (∀ tag self',
            TocParser.next_url (TocParser.handle_endtag tag self')
            = TocParser.next_url self') as Hend.
  { intros tag self'. toc_handler_cases. }
  destruct e as [tag attrs|tag attrs|tag|data]; cbn [TocParser.dispatch].
  - apply Hstart.
  - by rewrite Hend, Hstart.
  - apply Hend.
  - toc_handler_cases.
Qed.

(** X23: the first next-page link with a target wins: once [TocParser] has
    a [next_url], no later markup of the page changes it. *)
Theorem toc_parser_first_next_link_wins (events1 events2 : list event)
    (rf : bool) :
  TocParser.next_url (TocParser.feed isdigit events1 rf) ≠ [] →
  TocParser.next_url (TocParser.feed isdigit (events1 ++ events2) rf)
  = TocParser.next_url (TocParser.feed isdigit events1 rf).
Proof.
  rewrite toc_feed_app. generalize (TocParser.feed isdigit events1 rf).
  induction events2 as [|e events2 IH]; intros self Hset; [done|].
  cbn [foldl]. rewrite IH; by rewrite toc_dispatch_next_url.
Qed.

End TocParserFacts.

(** A page with two next-page links. *)
Definition two_next_links : list event :=
  [StartTag (lit "a")
     [(lit "class", Some (lit "c-pager__item c-pager__item--next"));
      (lit "href", Some (lit "/n1/?p=2"))];
   EndTag (lit "a")].

Lemma toc_parser_first_next_link_wins_witness :
  TocParser.next_url (TocParser.feed isdigit_sample two_next_links false) ≠ []
  ∧ TocParser.next_url
      (TocParser.feed isdigit_sample
         (two_next_links
          ++ [StartTag (lit "a")
                [(lit "class", Some (lit "c-pager__item--next"));
                 (lit "href", Some (lit "/n1/?p=3"))]]) false)
    = lit "/n1/?p=2".
Proof.
  assert (TocParser.next_url (TocParser.feed isdigit_sample two_next_links false)
          ≠ []) as Hset by by vm_compute.
  split; [exact Hset|].
  exact (toc_parser_first_next_link_wins isdigit_sample two_next_links
           [StartTag (lit "a")
              [(lit "class", Some (lit "c-pager__item--next"));
               (lit "href", Some (lit "/n1/?p=3"))]] false Hset).
Defined.

(** A table of contents with a title, an author line, one volume heading
    and one chapter. *)
Definition small_toc : list event :=
  [StartTag (lit "h1") [(lit "class", Some (lit "p-novel__title"))];
   Data (lit "Book"); EndTag (lit "h1");
   StartTag (lit "div") [(lit "class", Some (lit "p-novel__author"))];
   Data ([20316; 32773; 65306] ++ lit " Ann "); EndTag (lit "div");
   StartTag (lit "div") [(lit "class", Some (lit "p-eplist"))];
   StartTag (lit "div") [(lit "class", Some (lit "p-eplist__chapter-title"))];
   Data (lit " Part one "); EndTag (lit "div");
   StartTag (lit "a")
     [(lit "href", Some (lit "/n1/1/")); (lit "class", Some (lit "p-eplist__subtitle"))];
   Data (lit "First"); EndTag (lit "a");
   StartTag (lit "a") [(lit "class", Some (lit "p-eplist__subtitle"))];
   Data (lit "No target"); EndTag (lit "a");
   EndTag (lit "div")].

Example parse_toc_events_small_toc :
  parse_toc_events isdigit_sample small_toc false
  = {| Toc.page_title := lit "Book"; Toc.page_author := lit "Ann";
       Toc.page_summary := [];
       Toc.items := [Toc.Volume (lit "Part one");
                     Toc.ChapterLink (lit "/n1/1/") (lit "First")];
       Toc.page_next := [] |}.
Proof. by vm_compute. Qed.

(** ** The names of the image files *)

Definition is_ascii_decimal (c : char) : bool := (48 <=? c) && (c <=? 57).

Lemma lit_String (a : ascii) (s : string) :
  lit (String a s) = N_of_ascii a :: lit s.
Proof. reflexivity. Qed.

Lemma lit_inj (s1 s2 : string) : lit s1 = lit s2 → s1 = s2.
Proof.
  revert s2. induction s1 as [|a s1 IH]; intros [|b s2]; try done.
  rewrite !lit_String. intros [= Hab Hs].
  f_equal; [|by apply IH].
  by rewrite <- (ascii_N_embedding a), <- (ascii_N_embedding b), Hab.
Qed.

Lemma pretty_N_char_decimal (x : N) :
  is_ascii_decimal (N_of_ascii (pretty_N_char x)) = true.
Proof. unfold pretty_N_char. by repeat case_match. Qed.

Lemma pretty_N_go_decimal (x : N) (s : string) :
  Forall (λ c, is_ascii_decimal c = true) (lit s) →
  Forall (λ c, is_ascii_decimal c = true) (lit (pretty_N_go x s)).
Proof.
  revert s. induction (N.lt_wf_0 x) as [x _ IH]; intros s Hs.
  assert (x = 0 ∨ 0 < x)%N as [->|Hx] by lia.
  - by rewrite pretty_N_go_0.
  - rewrite pretty_N_go_step by done. apply IH; [by apply N.div_lt|].
    rewrite lit_String. constructor; [apply pretty_N_char_decimal|done].
Qed.

Lemma pretty_N_go_head (x : N) (s : string) :
  (0 < x)%N →
  ∃ c rest, lit (pretty_N_go x s) = c :: rest ∧ c ≠ chr "0".
Proof.
  revert s. induction (N.lt_wf_0 x) as [x _ IH]; intros s Hx.
  rewrite pretty_N_go_step by done.
  destruct (decide (x `div` 10 = 0)%N) as [Hdiv|Hdiv%N.neq_0_lt_0].
  - rewrite Hdiv, pretty_N_go_0, lit_String. eexists _, _. split; [done|].
    assert (x < 10)%N as Hlt by by apply N.div_small_iff in Hdiv.
    rewrite N.mod_small by done.
    assert (x = 1 ∨ x = 2 ∨ x = 3 ∨ x = 4 ∨ x = 5 ∨ x = 6
            ∨ x = 7 ∨ x = 8 ∨ x = 9)%N as Hcases by lia.
    destruct Hcases as [->|[->|[->|[->|[->|[->|[->|[->| ->]]]]]]]]; done.
  - apply IH; [by apply N.div_lt|done].
Qed.

Lemma pretty_nat_decimal (n : nat) :
  Forall (λ c, is_ascii_decimal c = true) (lit (pretty n)).
Proof.
  unfold pretty, pretty_nat, pretty, pretty_N. case_decide.
  - by repeat constructor.
  - by apply pretty_N_go_decimal.
Qed.

Lemma pretty_nat_head (n : nat) :
  (0 < n)%nat → ∃ c rest, lit (pretty n) = c :: rest ∧ c ≠ chr "0".
Proof.
  intros Hn. unfold pretty, pretty_nat, pretty, pretty_N.
  rewrite decide_False by lia. apply pretty_N_go_head. lia.
Qed.

Lemma pad3_decimal (n : nat) :
  Forall (λ c, is_ascii_decimal c = true) (pad3 n).
Proof.
  unfold pad3. apply Forall_app. split; [|apply pretty_nat_decimal].
  by apply Forall_replicate.
Qed.

(** The digits of [n], after zeros: no other number has this form. *)
Lemma zeros_pretty_inj (i j : nat) (n m : nat) :
  (0 < n)%nat → (0 < m)%nat →
  replicate i (chr "0") ++ lit (pretty n)
  = replicate j (chr "0") ++ lit (pretty m) →
  n = m.
Proof.
  intros Hn Hm. revert j. induction i as [|i IH]; intros [|j]; simpl.
  - intros H%lit_inj. by apply (inj pretty).
  - destruct (pretty_nat_head n Hn) as (c & rest & -> & Hc). by intros [= ->].
  - destruct (pretty_nat_head m Hm) as (c & rest & -> & Hc). by intros [= <-].
  - intros [= H]. by apply (IH j).
Qed.

Lemma pad3_inj (n m : nat) :
  (0 < n)%nat → (0 < m)%nat → pad3 n = pad3 m → n = m.
Proof. intros Hn Hm. unfold pad3. by apply zeros_pretty_inj. Qed.

(** Two texts made of digits, each followed by a period: the digits are
    the same. *)
Lemma decimal_then_period (d1 d2 rest1 rest2 : str) :
  Forall (λ c, is_ascii_decimal c = true) d1 →
  Forall (λ c, is_ascii_decimal c = true) d2 →
  d1 ++ chr "." :: rest1 = d2 ++ chr "." :: rest2 → d1 = d2.
Proof.
  intros H1. revert d2. induction H1 as [|c d1 Hc _ IH]; intros d2 H2.
  - destruct H2 as [|c d2 Hc _]; [done|]. simpl. intros [= <-]. done.
  - destruct H2 as [|c' d2 Hc' H2]; simpl.
    + intros [= ->]. done.
    + intros [= <- H]. f_equal. by apply IH.
Qed.

(** ** The image downloader *)

Section ImageDownloadFacts.

Variables bytes exn : Type.
Variable unescape : str → str.
Variable urljoin : str → str → str.
Variable img_tag_srcs : str → list str.
Variable lower : str → str.
Variable url_path : str → result exn str.
Variable b64decode : str → result exn bytes.
Variable encode_utf8 : str → result exn bytes.
Variable get_binary : nat → str → result exn (bytes * str).

Local Abbreviation fetch :=
  (Images.fetch_one bytes exn lower url_path b64decode encode_utf8 get_binary).
Local Abbreviation store_one :=
  (Images.store_result bytes exn lower url_path b64decode encode_utf8
     get_binary).
Local Abbreviation add_one := (Images.add_image bytes exn lower).

(** The source, media type and data of the item [(index, src)], when its
    image downloads. *)
Definition downloaded_image (item : nat * str) : option (str * str * bytes) :=
  match fetch item.1 item.2 with
  | (Some data, media_type, None) => Some (item.2, media_type, data)
  | _ => None
  end.

(** The name of the image numbered [counter]. *)
Definition image_href (counter : nat) (media_type : str) : str :=
  let ext := Images._ext_from_media_type lower media_type in
  lit "images/" ++ lit "image" ++ pad3 counter
  ++ (if is_nil ext then lit ".bin" else ext).

(** The images that download, numbered from [first] in their order. *)
Definition numbered_images (first : nat) (found : list (str * str * bytes))
    : list (ImageItem bytes) :=
  imap (λ k image,
    mkImageItem (image_href (first + k) image.1.2) image.1.2 image.2) found.

Lemma store_one_length results item :
  length (store_one results item) = length results.
Proof. apply length_insert. Qed.

Lemma foldl_store_one_length completed results :
  length (foldl store_one results completed) = length results.
Proof.
  revert results. induction completed as [|item completed IH]; intros results;
    simpl; [done|]. by rewrite IH, store_one_length.
Qed.

Lemma foldl_store_one_other completed results (j : nat) :
  j ∉ completed.*1 → foldl store_one results completed !! j = results !! j.
Proof.
  revert results. induction completed as [|[i src] completed IH];
    intros results; simpl; [done|].
  intros Hj. apply not_elem_of_cons in Hj as [Hne Hj].
  rewrite IH by done. by apply list_lookup_insert_ne.
Qed.

Lemma foldl_store_one_own completed results (j : nat) (src : str) :
  NoDup completed.*1 → (j, src) ∈ completed → (j < length results)%nat →
  foldl store_one results completed !! j = Some (Some (src, fetch j src)).
Proof.
  revert results.
  induction completed as [|[i src'] completed IH]; intros results Hnd Hin Hlen;
    simpl.
  - by apply elem_of_nil in Hin.
  - apply NoDup_cons in Hnd as [Hi Hnd].
    apply elem_of_cons in Hin as [[= <- <-]|Hin].
    + rewrite foldl_store_one_other by done.
      by apply list_lookup_insert_eq.
    + apply IH; [done..|]. by rewrite store_one_length.
Qed.

(** Once every future has completed, in whatever order, [results] holds
    the outcome of every source at the position of the source. *)
Lemma foldl_store_one_complete (sources : list str) completed :
  completed ≡ₚ enumerate sources →
  foldl store_one (replicate (length sources) None) completed
  = (λ item, Some (item.2, fetch item.1 item.2)) <$> enumerate sources.
Proof.
  intros Hperm. apply list_eq. intros j.
  rewrite list_lookup_fmap, enumerate_lookup.
  destruct (sources !! j) as [src|] eqn:Hj; simpl.
  - apply (foldl_store_one_own _ _ j src).
    + rewrite Hperm, enumerate_fst. apply NoDup_seq.
    + rewrite Hperm. by apply elem_of_enumerate.
    + rewrite length_replicate. by eapply lookup_lt_Some.
  - apply lookup_ge_None. rewrite foldl_store_one_length, length_replicate.
    by apply lookup_ge_None.
Qed.

(** What the last loop has built after the outcomes of [items]. *)
Definition images_built (items : list (nat * str))
    (acc : gmap str str * list (ImageItem bytes) * nat) : Prop :=
  acc.1.2 = numbered_images 1 (omap downloaded_image items)
  ∧ acc.2 = S (length (omap downloaded_image items))
  ∧ ∀ src href,
      acc.1.1 !! src = Some href
      ↔ ∃ k media_type data,
          omap downloaded_image items !! k = Some (src, media_type, data)
          ∧ href = image_href (1 + k) media_type.

Lemma numbered_images_snoc first found image :
  numbered_images first (found ++ [image])
  = numbered_images first found
    ++ [mkImageItem (image_href (first + length found) image.1.2) image.1.2
          image.2].
Proof.
  unfold numbered_images. rewrite imap_app. simpl. by rewrite Nat.add_0_r.
Qed.

Lemma add_one_downloaded image_map images counter src data media_type :
  add_one (image_map, images, counter) (Some (src, (Some data, media_type, None)))
  = (<[src := image_href counter media_type]> image_map,
     images ++ [mkImageItem (image_href counter media_type) media_type data],
     (counter + 1)%nat).
Proof. reflexivity. Qed.

Lemma add_one_failed acc item :
  downloaded_image item = None →
  add_one acc (Some (item.2, fetch item.1 item.2)) = acc.
Proof.
  unfold downloaded_image, Images.add_image.
  destruct acc as [[image_map images] counter].
  by destruct (fetch item.1 item.2) as [[[data|] media_type] [e|]].
Qed.

Lemma downloaded_image_fetch item src media_type data :
  downloaded_image item = Some (src, media_type, data) →
  src = item.2 ∧ fetch item.1 item.2 = (Some data, media_type, None).
Proof.
  unfold downloaded_image.
  destruct (fetch item.1 item.2) as [[[data'|] media_type'] [e|]];
    intros [= <- <- <-]; done.
Qed.

Lemma omap_singleton {A B} (f : A → option B) (x : A) :
  omap f [x] = match f x with Some y => [y] | None => [] end.
Proof. reflexivity. Qed.

Lemma add_one_built items item acc :
  NoDup (items ++ [item]).*2 →
  images_built items acc →
  images_built (items ++ [item])
    (add_one acc (Some (item.2, fetch item.1 item.2))).
Proof.
  intros Hnd (Himages & Hcounter & Hmap).
  unfold images_built. rewrite omap_app, omap_singleton.
  destruct (downloaded_image item) as [[[src media_type] data]|] eqn:Hitem.
  - destruct (downloaded_image_fetch _ _ _ _ Hitem) as [-> Hfetch].
    rewrite Hfetch. destruct acc as [[image_map images] counter].
    cbn [fst snd] in Himages, Hcounter, Hmap.
    rewrite add_one_downloaded. cbn [fst snd].
    rewrite numbered_images_snoc, length_app. cbn [fst snd length].
    subst counter images. split; [done|]. split; [lia|].
    intros src' href'.
    assert (∀ k media_type data,
              omap downloaded_image items !! k = Some (item.2, media_type, data)
              → False) as Hfresh.
    { intros k mt d Hk. apply list_elem_of_lookup_2, list_elem_of_omap in Hk
        as (item' & Hin & Himg).
      apply downloaded_image_fetch in Himg as [Himg _].
      rewrite fmap_app in Hnd. apply NoDup_app in Hnd as (_ & Hnd & _).
      apply (Hnd item.2); [|left].
      apply list_elem_of_fmap. exists item'. by rewrite Himg. }
    destruct (decide (src' = item.2)) as [->|Hne].
    + rewrite lookup_insert_eq. split.
      * intros [= <-].
        exists (length (omap downloaded_image items)), media_type, data.
        by rewrite lookup_app_r, Nat.sub_diag by lia.
      * intros (k & mt & d & Hk & ->).
        apply lookup_app_Some in Hk as [Hk|[Hle Hk]]; [by apply Hfresh in Hk|].
        destruct (k - length (omap downloaded_image items))%nat eqn:Hd;
          simpl in Hk; [|done].
        injection Hk as <- <-.
        by replace k with (length (omap downloaded_image items)) by lia.
    + rewrite lookup_insert_ne by done. rewrite Hmap. split.
      * intros (k & mt & d & Hk & ->). exists k, mt, d.
        split; [by apply lookup_app_l_Some|done].
      * intros (k & mt & d & Hk & ->). exists k, mt, d. split; [|done].
        apply lookup_app_Some in Hk as [Hk|[Hle Hk]]; [done|].
        destruct (k - length (omap downloaded_image items))%nat; simpl in Hk;
          [|done].
        by injection Hk as <- <-.
  - rewrite app_nil_r, add_one_failed by done. done.
Qed.

Lemma foldl_add_one_built items :
  NoDup items.*2 →
  images_built items
    (foldl add_one (∅, [], 1%nat)
       ((λ item, Some (item.2, fetch item.1 item.2)) <$> items)).
Proof.
  induction items as [|item items IH] using rev_ind; intros Hnd.
  - split; [done|]. split; [done|]. intros src href. cbn.
    rewrite lookup_empty. split; [done|]. by intros (k & ? & ? & ? & _).
  - rewrite fmap_app, foldl_app. cbn [fmap list_fmap foldl].
    apply add_one_built; [done|]. apply IH.
    rewrite fmap_app in Hnd. by apply NoDup_app in Hnd as (? & _).
Qed.

Lemma ext_from_media_type_period (media_type : str) :
  ∃ rest,
    (if is_nil (Images._ext_from_media_type lower media_type) then lit ".bin"
     else Images._ext_from_media_type lower media_type)
    = chr "." :: rest.
Proof.
  unfold Images._ext_from_media_type.
  destruct (head _) as [[key ext]|] eqn:Hhead; [|by eexists].
  apply head_Some_elem_of, list_elem_of_filter in Hhead as [_ Hin].
  unfold _IMG_EXT_BY_MIME in Hin.
  repeat (apply elem_of_cons in Hin as [[= _ ->]|Hin]; [by eexists|]).
  by apply elem_of_nil in Hin.
Qed.

Lemma image_href_inj (n m : nat) (media_type1 media_type2 : str) :
  (0 < n)%nat → (0 < m)%nat →
  image_href n media_type1 = image_href m media_type2 → n = m.
Proof.
  intros Hn Hm. unfold image_href. cbv zeta.
  destruct (ext_from_media_type_period media_type1) as [rest1 H1].
  destruct (ext_from_media_type_period media_type2) as [rest2 H2].
  intros H. do 2 apply app_inv_head in H.
  assert (pad3 n ++ chr "." :: rest1 = pad3 m ++ chr "." :: rest2) as H'.
  { rewrite <- H1, <- H2. exact H. }
  apply decimal_then_period in H'; [|apply pad3_decimal..].
  by apply pad3_inj.
Qed.

Lemma numbered_images_NoDup (found : list (str * str * bytes)) :
  NoDup (img_href <$> numbered_images 1 found).
Proof.
  apply NoDup_alt. intros i j href Hi Hj.
  unfold numbered_images in Hi, Hj.
  rewrite list_lookup_fmap, list_lookup_imap in Hi, Hj.
  destruct (found !! i) as [image1|]; [|done].
  destruct (found !! j) as [image2|]; [|done].
  cbn in Hi, Hj. injection Hi as Hi. injection Hj as Hj.
  rewrite <- Hj in Hi. apply image_href_inj in Hi; lia.
Qed.

(** X24: whatever the number of jobs and the order in which the downloads
    complete, [download_images] returns the images that download in the
    order in which their sources first occur in the text, numbered from 1
    in that order ([images/imageNNN] and the extension of the media type,
    or [.bin]); no two images have the same name; and [image_map] maps
    each such source, and nothing else, to the name of its image. *)
Theorem download_images_numbers_in_text_order (chapters : list Chapter)
    (base_url : str) (jobs : Z) (completed : list (nat * str)) :
  completed
  ≡ₚ enumerate
       (extract_image_sources unescape urljoin img_tag_srcs chapters base_url) →
  (Images.download_images bytes exn unescape urljoin img_tag_srcs lower
     url_path b64decode encode_utf8 get_binary chapters base_url jobs
     completed).2
  = numbered_images 1
      (omap downloaded_image
         (enumerate (extract_image_sources unescape urljoin img_tag_srcs
                       chapters base_url)))
  ∧ NoDup
      (img_href
       <$> (Images.download_images bytes exn unescape urljoin img_tag_srcs
              lower url_path b64decode encode_utf8 get_binary chapters
              base_url jobs completed).2)
  ∧ ∀ src href,
      (Images.download_images bytes exn unescape urljoin img_tag_srcs lower
         url_path b64decode encode_utf8 get_binary chapters base_url jobs
         completed).1 !! src = Some href
      ↔ ∃ k media_type data,
          omap downloaded_image
            (enumerate (extract_image_sources unescape urljoin img_tag_srcs
                          chapters base_url)) !! k
          = Some (src, media_type, data)
          ∧ href = image_href (1 + k) media_type.
Proof.
  intros Hperm. unfold Images.download_images.
  assert (NoDup (extract_image_sources unescape urljoin img_tag_srcs chapters
                   base_url)) as Hnd.
  { rewrite extract_image_sources_found. apply first_occurrences_NoDup. }
  revert Hperm Hnd.
  generalize (extract_image_sources unescape urljoin img_tag_srcs chapters
                base_url).
  intros sources Hperm Hnd.
  destruct (decide (sources = [])) as [->|Hne].
  { cbn. split; [done|]. split; [apply NoDup_nil_2|].
    intros src href. rewrite lookup_empty.
    split; [done|]. by intros (k & ? & ? & ? & _). }
  assert (is_nil sources = false) as -> by by destruct sources.
  assert ((if (jobs <=? 1)%Z || (length sources <=? 1)%nat
           then foldl store_one (replicate (length sources) None)
                  (enumerate sources)
           else foldl store_one (replicate (length sources) None) completed)
          = (λ item, Some (item.2, fetch item.1 item.2)) <$> enumerate sources)
    as ->.
  { destruct (_ || _); by apply foldl_store_one_complete. }
  destruct (foldl_add_one_built (enumerate sources)) as (Himages & _ & Hmap).
  { by rewrite enumerate_snd. }
  split; [exact Himages|]. split; [|exact Hmap].
  rewrite Himages. apply numbered_images_NoDup.
Qed.

End ImageDownloadFacts.

(** A chapter with three images, the first of them twice; the second does
    not download.  A paragraph stands for its one image tag. *)
Definition image_chapter : Chapter :=
  mkChapter (lit "C1") [lit "A"; lit "B"; lit "C"; lit "A"] (lit "u").

Definition png_but_B (index : nat) (src : str) : result unit (str * str) :=
  if bool_decide (src = lit "B") then Raise ()
  else Ok (src, lit "image/png; charset=binary").

Definition completion_CAB : list (nat * str) :=
  [(2, lit "C"); (0, lit "A"); (1, lit "B")]%nat.

Lemma download_images_numbers_in_text_order_witness :
  completion_CAB
  ≡ₚ enumerate
       (extract_image_sources id (λ _ src, src) (λ para, [para])
          [image_chapter] [])
  ∧ (Images.download_images str unit id (λ _ src, src) (λ para, [para]) id
       Ok Ok Ok png_but_B [image_chapter] [] 4 completion_CAB).2
    = [mkImageItem (lit "images/image001.png") (lit "image/png") (lit "A");
       mkImageItem (lit "images/image002.png") (lit "image/png") (lit "C")].
Proof.
  assert (completion_CAB
          ≡ₚ enumerate
               (extract_image_sources id (λ _ src, src) (λ para, [para])
                  [image_chapter] [])) as Hperm.
  { apply (bool_decide_unpack _). by vm_compute. }
  split; [exact Hperm|].
  etrans;
    [exact (proj1 (download_images_numbers_in_text_order str unit id
                     (λ _ src, src) (λ para, [para]) id Ok Ok Ok png_but_B
                     [image_chapter] [] 4 completion_CAB Hperm))|].
  by vm_compute.
Defined.

(** [str.lower] on ASCII text. *)
Definition lower_sample (s : str) : str :=
  (λ c, if (65 <=? c) && (c <=? 90) then c + 32 else c) <$> s.

Example fetch_one_examples :
  Images.fetch_one str unit lower_sample Ok Ok Ok
    (λ _ src, Ok (src, lit " ; q=1")) 0 (lit "http://h/a/B.JPEG")
  = (Some (lit "http://h/a/B.JPEG"), lit "image/jpeg", None)
  ∧ Images.fetch_one str unit lower_sample Ok Ok Ok
      (λ _ src, Ok (src, [])) 0 (lit "http://h/a/b")
    = (Some (lit "http://h/a/b"), lit "application/octet-stream", None)
  ∧ Images.fetch_one str unit lower_sample Ok Ok Ok
      (λ _ _, Raise ()) 0 (lit "data:image/gif;BASE64,R0lG")
    = (Some (lit "R0lG"), lit "image/gif", None)
  ∧ Images.fetch_one str unit lower_sample Ok Ok Ok
      (λ _ _, Raise ()) 0 (lit "data:,hello")
    = (Some (lit "hello"), lit "application/octet-stream", None)
  ∧ Images.fetch_one str unit lower_sample Ok Ok Ok
      (λ _ _, Raise ()) 0 (lit "http://h/a.png")
    = (None, [], Some ()).
Proof. by vm_compute. Qed.
